(** * Lattice-surgery compiler: patches, ancilla routing and time slices

    A shallow embedding of [patches.py], [topological_assembly.py] and
    [rotation.py].

    Python integers are [Z], tuples [(col, row)] are pairs, lists are lists,
    the insertion-ordered operator [dict] is an association list with distinct
    keys, and a raised exception is a value of [exn].  Objects that the code
    mutates in place are modelled by explicit state passing: a lattice is a
    value that each routine returns updated, a patch object is named by its
    position in [patches] of its lattice, and the lattices referenced by the
    composer's slice list live in a store indexed by location, so that two
    slices holding the same lattice object hold the same location.  A patch
    or edge object is taken to occur once, in one lattice: the layout
    initializer builds the lattice so and [copy.deepcopy] keeps it so.

    The graph library [igraph] is not part of the repository.  The routing
    code is stated over any function with the signature of
    [Graph.get_shortest_paths]; where a statement evaluates the routing on a
    layout, the function is the breadth-first search of module [igraph]
    below. *)

From Stdlib Require Import ZArith Ascii String DecimalString DecimalZ Lia.
From stdpp Require Import base decidable list strings.

Local Open Scope Z_scope.

(** ** Exceptions and results *)

Inductive exn : Set :=
  | AssertionError | IndexError | KeyError | ValueError | AttributeError.

Inductive result (A : Type) : Type :=
  | Ok (a : A)
  | Raise (e : exn).
Arguments Ok {A} a.
Arguments Raise {A} e.

(** Sequencing: the first exception raised ends the computation. *)
#[global] Instance result_bind : MBind result := fun A B k r =>
  match r with
  | Ok a => k a
  | Raise e => Raise e
  end.

#[global] Instance exn_eq_dec : EqDecision exn.
Proof. solve_decision. Defined.

(** ** rotation.py: the operator vocabulary *)

Module PauliOperator.
Inductive t : Set := I | X | Y | Z.
End PauliOperator.

#[global] Instance PauliOperator_eq_dec : EqDecision PauliOperator.t.
Proof. solve_decision. Defined.

(** ** patches.py: the grid and border model *)

Definition Cell : Set := (Z * Z)%type.

Inductive Orientation : Set := Top | Bottom | Left | Right.

Inductive EdgeType : Set :=
  | Solid | SolidStiched | Dashed | DashedStiched | AncillaJoin.

Inductive PatchType : Set := Qubit | DistillationQubit | Ancilla.

(** Modelled from the spec: the optional logical state of a patch.  The
    module [qubit_state] that declares it is not among the sources; the
    constructors are the values the layout initializer passes
    ([InitializeableState.Zero], [.Plus], [.Magic]), and the code under study
    only stores the value. *)
Inductive QubitState : Set := Zero | Plus | Magic.

Inductive CoordType : Set := Col | Row.

#[global] Instance Orientation_eq_dec : EqDecision Orientation.
Proof. solve_decision. Defined.
#[global] Instance EdgeType_eq_dec : EqDecision EdgeType.
Proof. solve_decision. Defined.
#[global] Instance PatchType_eq_dec : EqDecision PatchType.
Proof. solve_decision. Defined.
#[global] Instance QubitState_eq_dec : EqDecision QubitState.
Proof. solve_decision. Defined.
#[global] Instance CoordType_eq_dec : EqDecision CoordType.
Proof. solve_decision. Defined.

Definition stitched_type (self : EdgeType) : EdgeType :=
  match self with
  | Solid => SolidStiched
  | Dashed => DashedStiched
  | _ => self
  end.

Definition unstitched_type (self : EdgeType) : EdgeType :=
  match self with
  | SolidStiched => Solid
  | DashedStiched => Dashed
  | _ => self
  end.

(** [PAULI_OPERATOR_TO_EDGE_MAP[op]]: a [KeyError] outside X and Z. *)
Definition PAULI_OPERATOR_TO_EDGE_MAP (op : PauliOperator.t) : result EdgeType :=
  match op with
  | PauliOperator.X => Ok Dashed
  | PauliOperator.Z => Ok Solid
  | _ => Raise KeyError
  end.

Record Edge : Set := mkEdge {
  border_type : EdgeType;
  cell : Cell;
  orientation : Orientation
}.

#[global] Instance Edge_eq_dec : EqDecision Edge.
Proof. solve_decision. Defined.

(** The dictionary of [getNeighbouringCell] has all four orientations, so
    [.get] never yields [None]. *)
Definition getNeighbouringCell (self : Edge) : Cell :=
  let '(col, row) := cell self in
  match orientation self with
  | Top => (col, row - 1)
  | Bottom => (col, row + 1)
  | Left => (col - 1, row)
  | Right => (col + 1, row)
  end.

Definition isStiched (self : Edge) : bool :=
  bool_decide (border_type self = SolidStiched)
  || bool_decide (border_type self = DashedStiched).

Record Patch : Set := mkPatch {
  patch_type : PatchType;
  state : option QubitState;
  cells : list Cell;
  edges : list Edge;
  patch_uuid : option N
}.

#[global] Instance Patch_eq_dec : EqDecision Patch.
Proof. solve_decision. Defined.

(** [self.cells[0]] *)
Definition getRepresentative (self : Patch) : result Cell :=
  match cells self with
  | c :: _ => Ok c
  | [] => Raise IndexError
  end.

Definition coord (coord_type : CoordType) (c : Cell) : Z :=
  match coord_type with
  | Col => fst c
  | Row => snd c
  end.

Definition getCoordList (self : Patch) (coord_type : CoordType) : list Z :=
  map (coord coord_type) (cells self).

(** [logical_ops] is initialised to the empty list and never read or written
    by the code under study; it is left out. *)
Record Lattice : Set := mkLattice {
  patches : list Patch;
  min_rows : Z;
  min_cols : Z
}.

#[global] Instance Lattice_eq_dec : EqDecision Lattice.
Proof. solve_decision. Defined.

(** Python's [max] of an iterable: [ValueError] when it is empty. *)
Definition py_max (l : list Z) : result Z :=
  match l with
  | [] => Raise ValueError
  | x :: l' => Ok (fold_left Z.max l' x)
  end.

Definition getMaxCoord (self : Lattice) (coord_type : CoordType) : result Z :=
  let all_coords := concat (map (fun patch => getCoordList patch coord_type) (patches self)) in
  let lower_bound :=
    if decide (coord_type = Row) then min_rows self else min_cols self in
  m ← py_max all_coords;
  Ok (Z.max (1 + m) lower_bound).

Definition getCols (self : Lattice) : result Z := getMaxCoord self Col.

Definition getRows (self : Lattice) : result Z := getMaxCoord self Row.

Definition clear (self : Lattice) : Lattice :=
  {| patches := []; min_rows := min_rows self; min_cols := min_cols self |}.

(** The first patch, in list order, one of whose cells equals [target],
    together with its position in [self.patches]; the position stands for the
    identity of the patch object that the callers mutate. *)
Definition findPatchOfCell (self : Lattice) (target : Cell) : option (nat * Patch) :=
  list_find (fun patch => target ∈ cells patch) (patches self).

Definition getPatchOfCell (self : Lattice) (target : Cell) : option Patch :=
  snd <$> findPatchOfCell self target.

Definition cellIsFree (self : Lattice) (target : Cell) : bool :=
  match getPatchOfCell self target with
  | None => true
  | Some _ => false
  end.

(** [maybe_patch.cells[0]] cannot fail: a patch found by [getPatchOfCell] has
    a cell. *)
Definition getPatchRepresentative (self : Lattice) (c : Cell) : Cell :=
  match getPatchOfCell self c with
  | Some maybe_patch => hd c (cells maybe_patch)
  | None => c
  end.

(** ** Python values the routing code compares and prints *)

(** [cell == name] compares a tuple with a string in [add_directed_edges];
    Python's [==] is [False] across the two types. *)
Inductive PyValue : Set :=
  | PyTuple (c : Cell)
  | PyStr (s : string).

Definition py_eq (a b : PyValue) : bool :=
  match a, b with
  | PyTuple c, PyTuple d => bool_decide (c = d)
  | PyStr s, PyStr t => bool_decide (s = t)
  | _, _ => false
  end.

Definition str_int (z : Z) : string := NilZero.string_of_int (Z.to_int z).

(** [str((col, row))], e.g. ["(12, 9)"]. *)
Definition str (c : Cell) : string :=
  ("(" +:+ str_int (fst c) +:+ ", " +:+ str_int (snd c) +:+ ")")%string.

(** The text before the first [", "] and the text after it. *)
Fixpoint split_comma (s : string) : option (string * string) :=
  match s with
  | EmptyString => None
  | String a rest =>
      match (if Ascii.eqb a ","%char
             then match rest with
                  | String " "%char rest' => Some rest'
                  | _ => None
                  end
             else None) with
      | Some rest' => Some (EmptyString, rest')
      | None =>
          match split_comma rest with
          | Some (l, r) => Some (String a l, r)
          | None => None
          end
      end
  end.

(** The text before the closing parenthesis that ends [s]. *)
Fixpoint strip_paren (s : string) : option string :=
  match s with
  | EmptyString => None
  | String a rest =>
      if Ascii.eqb a ")"%char && bool_decide (rest = EmptyString)
      then Some EmptyString
      else String a <$> strip_paren rest
  end.

(** [ast.literal_eval] on the strings the program passes to it, the [str] of
    a pair of integers; anything else is a [ValueError]. *)
Definition make_tuple (s : string) : result Cell :=
  match s with
  | String "("%char rest =>
      match split_comma rest with
      | Some (l, r) =>
          match NilZero.int_of_string l, strip_paren r ≫= NilZero.int_of_string with
          | Some col, Some row => Ok (Z.of_int col, Z.of_int row)
          | _, _ => Raise ValueError
          end
      | None => Raise ValueError
      end
  | _ => Raise ValueError
  end.

(** [l[i]] with Python's negative indices. *)
Definition py_index {A} (l : list A) (i : Z) : result A :=
  let j := if decide (i < 0) then i + Z.of_nat (length l) else i in
  if decide (j < 0) then Raise IndexError
  else match l !! Z.to_nat j with
       | Some x => Ok x
       | None => Raise IndexError
       end.

(** [range(n)] *)
Definition range (n : Z) : list Z := Z.of_nat <$> seq 0 (Z.to_nat n).

(** A loop whose body may raise. *)
Fixpoint foldM {A B} (f : B -> A -> result B) (l : list A) (b : B) : result B :=
  match l with
  | [] => Ok b
  | a :: l' => b' ← f b a; foldM f l' b'
  end.

Fixpoint mapM {A B} (f : A -> result B) (l : list A) : result (list B) :=
  match l with
  | [] => Ok []
  | a :: l' => b ← f a; bs ← mapM f l'; Ok (b :: bs)
  end.

(** ** igraph: the part of the graph library the routing code calls

    Modelled from the spec: the graph library is external to the repository;
    the routing code needs of it a graph with named vertices, the addition of
    vertices and directed edges, and a single-source search for one shortest
    path by hop count to each target.  Vertices are numbered in insertion
    order and carry a name; edges are pairs of vertex ids, kept in insertion
    order (parallel edges allowed). *)

Module igraph.

Record Graph : Set := mkGraph {
  vs_name : list string;
  es : list (nat * nat)
}.

(** [igraph.Graph(directed=True)] *)
Definition empty : Graph := {| vs_name := []; es := [] |}.

Definition vcount (g : Graph) : nat := length (vs_name g).

Definition add_vertex (g : Graph) (name : string) : Graph :=
  {| vs_name := vs_name g ++ [name]; es := es g |}.

Definition add_vertices (g : Graph) (names : list string) : Graph :=
  {| vs_name := vs_name g ++ names; es := es g |}.

(** A vertex given by name: the lowest id that carries the name, a
    [ValueError] when there is none. *)
Definition vertex_id (g : Graph) (name : string) : result nat :=
  match list_find (fun n => n = name) (vs_name g) with
  | Some (i, _) => Ok i
  | None => Raise ValueError
  end.

Definition add_edge (g : Graph) (source target : string) : result Graph :=
  s ← vertex_id g source;
  t ← vertex_id g target;
  Ok {| vs_name := vs_name g; es := es g ++ [(s, t)] |}.

(** [g.vs[v_idx]["name"]] *)
Definition vs_get_name (g : Graph) (v_idx : nat) : result string :=
  match vs_name g !! v_idx with
  | Some n => Ok n
  | None => Raise IndexError
  end.

(** Neighbours of [v] with [mode='all']: edge directions are ignored.  The
    out-neighbours come first, then the in-neighbours, each by increasing id;
    the search below skips a neighbour it has seen, so repetitions do not
    matter. *)
Definition neighbors_all (g : Graph) (v : nat) : list nat :=
  filter (fun u => (v, u) ∈ es g) (seq 0 (vcount g))
  ++ filter (fun u => (u, v) ∈ es g) (seq 0 (vcount g)).

(** One step of the breadth-first search: [act] is popped, each neighbour not
    yet reached gets [act] as parent and joins the queue. *)
Definition visit (act : nat) (st : list nat * list (option nat)) (neighbor : nat)
    : list nat * list (option nat) :=
  let '(q, parent) := st in
  match parent !! neighbor with
  | Some None => (q ++ [neighbor], <[neighbor := Some act]> parent)
  | _ => (q, parent)
  end.

Fixpoint bfs (fuel : nat) (g : Graph) (q : list nat) (parent : list (option nat))
    : list (option nat) :=
  match fuel, q with
  | S fuel', act :: q' =>
      let '(q'', parent') := fold_left (visit act) (neighbors_all g act) (q', parent) in
      bfs fuel' g q'' parent'
  | _, _ => parent
  end.

(** The path to [v], read off the parents back to the source. *)
Fixpoint path_back (fuel : nat) (parent : list (option nat)) (from v : nat)
    (acc : list nat) : list nat :=
  match fuel with
  | O => []
  | S fuel' =>
      if decide (v = from) then v :: acc
      else match parent !! v with
           | Some (Some p) => path_back fuel' parent from p (v :: acc)
           | _ => []
           end
  end.

(** [g.get_shortest_paths(v, to, mode='all', output='vpath')]: one
    breadth-first search from [v]; the call site passes [mode='all'], for
    which the library takes the graph as undirected.  For each target the
    result has the vertex ids of a path found by the search, the empty list
    for a target that was not reached.  The library stops the search once
    every target is reached, which leaves the parents of the reached vertices
    as they are here.  Which of several paths of the same length is returned
    follows the order of [neighbors_all]. *)
Definition get_shortest_paths (g : Graph) (v : string) (to : list string)
    : result (list (list nat)) :=
  from ← vertex_id g v;
  targets ← mapM (vertex_id g) to;
  let parent0 := <[from := Some from]> (replicate (vcount g) None) in
  let parent := bfs (vcount g) g [from] parent0 in
  Ok (map (fun t => path_back (S (vcount g)) parent from t []) targets).

End igraph.

(** ** topological_assembly.py *)

(** [LatticeLayoutInitializer.singleSquarePatch]; the defaults of the Python
    signature are [Qubit] and [Zero]. *)
Definition singleSquarePatch (c : Cell) (patch_type : PatchType)
    (patch_state : QubitState) : Patch :=
  mkPatch patch_type (Some patch_state) [c]
    [ mkEdge Solid c Top;
      mkEdge Solid c Bottom;
      mkEdge Dashed c Left;
      mkEdge Dashed c Right ]
    None.

(** The operator request: a Python [dict], iterated in insertion order. *)
Definition OperatorMap : Set := list (Cell * PauliOperator.t).

Definition keys (m : OperatorMap) : list Cell := map fst m.

(** [m[k]] *)
Definition dict_get (m : OperatorMap) (k : Cell) : result PauliOperator.t :=
  match list_find (fun kv => fst kv = k) m with
  | Some (_, kv) => Ok (snd kv)
  | None => Raise KeyError
  end.

Definition neighbours4 (col row : Z) : list Cell :=
  [(col, row + 1); (col, row - 1); (col + 1, row); (col - 1, row)].

Definition in_range (x n : Z) : bool := bool_decide (0 <= x < n).

Definition make_graph_of_free_cells (lattice : Lattice) : result igraph.Graph :=
  rows ← getRows lattice;
  cols ← getCols lattice;
  let g :=
    fold_left (fun g row =>
      fold_left (fun g col =>
        if cellIsFree lattice (col, row)
        then igraph.add_vertex g (str (col, row))
        else g) (range cols) g) (range rows) igraph.empty in
  let nrows := rows in
  let ncols := cols in
  foldM (fun g row =>
    foldM (fun g col =>
      foldM (fun g '(neighbour_col, neighbour_row) =>
        if in_range neighbour_col ncols && in_range neighbour_row nrows
           && cellIsFree lattice (col, row)
           && cellIsFree lattice (neighbour_col, neighbour_row)
        then igraph.add_edge g (str (col, row)) (str (neighbour_col, neighbour_row))
        else Ok g) (neighbours4 col row) g) (range ncols) g) (range nrows) g.

(** The inner loop of [add_directed_edges] over the borders of one active
    patch.  The test that chooses the direction compares the representative, a
    tuple, with [source_patch_vertex], a string. *)
Definition add_directed_edges_of_patch (source_patch_vertex : string)
    (representative : Cell) (requested_edge_type : EdgeType)
    (ancilla_search_graph : igraph.Graph) (edge : Edge) : result igraph.Graph :=
  let patch_representative := str representative in
  let neighbour := str (getNeighbouringCell edge) in
  if bool_decide (border_type edge = requested_edge_type)
     && bool_decide (neighbour ∈ igraph.vs_name ancilla_search_graph)
  then
    if py_eq (PyTuple representative) (PyStr source_patch_vertex)
    then igraph.add_edge ancilla_search_graph patch_representative neighbour
    else igraph.add_edge ancilla_search_graph neighbour patch_representative
  else Ok ancilla_search_graph.

Definition add_directed_edges (ancilla_search_graph : igraph.Graph)
    (lattice : Lattice) (patch_pauli_operator_map : OperatorMap)
    (source_patch_vertex : string) (tagret_patch_vertex : list string)
    : result igraph.Graph :=
  foldM (fun g patch =>
    representative ← getRepresentative patch;
    let patch_representative := str representative in
    if bool_decide (patch_representative ≠ source_patch_vertex)
       && bool_decide (patch_representative ∉ tagret_patch_vertex)
    then Ok g
    else
      operator ← dict_get patch_pauli_operator_map representative;
      requested_edge_type ← PAULI_OPERATOR_TO_EDGE_MAP operator;
      foldM (add_directed_edges_of_patch source_patch_vertex representative
               requested_edge_type) (edges patch) g)
    (patches lattice) ancilla_search_graph.

(** What a routine that mutates the lattice leaves behind: the lattice as it
    is when the routine returns, or as it is when the exception leaves it. *)
Inductive outcome : Set :=
  | Returned (lattice : Lattice)
  | Raised (e : exn) (lattice : Lattice).

Definition lattice_of (o : outcome) : Lattice :=
  match o with
  | Returned l => l
  | Raised _ l => l
  end.

Definition exception_of (o : outcome) : option exn :=
  match o with
  | Returned _ => None
  | Raised e _ => Some e
  end.

Definition stitch (edge : Edge) : Edge :=
  mkEdge (stitched_type (border_type edge)) (cell edge) (orientation edge).

Definition unstitch (edge : Edge) : Edge :=
  mkEdge (unstitched_type (border_type edge)) (cell edge) (orientation edge).

(** [for edge in patch.edges: if edge.getNeighbouringCell() == path[k]: ...];
    the index expression is evaluated in every iteration, so an index out of
    range raises in the first one, before any border has changed. *)
Fixpoint stitch_facing (facing : result Cell) (es : list Edge) : result (list Edge) :=
  match es with
  | [] => Ok []
  | edge :: rest =>
      c ← facing;
      rest' ← stitch_facing facing rest;
      Ok ((if bool_decide (getNeighbouringCell edge = c) then stitch edge else edge) :: rest')
  end.

Definition set_edges (patch : Patch) (es : list Edge) : Patch :=
  mkPatch (patch_type patch) (state patch) (cells patch) es (patch_uuid patch).

Definition set_patches (lattice : Lattice) (ps : list Patch) : Lattice :=
  {| patches := ps; min_rows := min_rows lattice; min_cols := min_cols lattice |}.

(** [p = lattice.getPatchOfCell(c)] followed by the loop over [p.edges];
    [None.edges] is an [AttributeError]. *)
Definition stitch_patch_of_cell (lattice : Lattice) (c : Cell) (facing : result Cell)
    : outcome :=
  match findPatchOfCell lattice c with
  | None => Raised AttributeError lattice
  | Some (j, patch) =>
      match stitch_facing facing (edges patch) with
      | Ok es' => Returned (set_patches lattice (<[j := set_edges patch es']> (patches lattice)))
      | Raise e => Raised e lattice
      end
  end.

(** The body of the loop over [paths], up to the update of the cell set. *)
Definition stitch_path (lattice : Lattice) (path : list Cell) : outcome :=
  match py_index path 0 with
  | Raise e => Raised e lattice
  | Ok first =>
      match stitch_patch_of_cell lattice first (py_index path 1) with
      | Raised e l => Raised e l
      | Returned l =>
          match py_index path (-1) with
          | Raise e => Raised e l
          | Ok last => stitch_patch_of_cell l last (py_index path (-2))
          end
      end
  end.

(** [path[1:-1]] *)
Definition interior {A} (path : list A) : list A := removelast (tail path).

(** [s.union(set(cells))] on a set kept as a duplicate-free list.  Python
    fixes no iteration order for a set; here [list(s)] lists the cells by
    first insertion. *)
Definition set_union (s cells : list Cell) : list Cell :=
  fold_left (fun s c => if bool_decide (c ∈ s) then s else s ++ [c]) cells s.

Fixpoint stitch_paths (lattice : Lattice) (all_ancilla_cells : list Cell)
    (paths : list (list Cell)) : outcome * list Cell :=
  match paths with
  | [] => (Returned lattice, all_ancilla_cells)
  | path :: rest =>
      match stitch_path lattice path with
      | Raised e l => (Raised e l, all_ancilla_cells)
      | Returned l => stitch_paths l (set_union all_ancilla_cells (interior path)) rest
      end
  end.

Definition add_ancilla_to_lattice_from_paths (lattice : Lattice)
    (paths : list (list Cell)) : outcome :=
  match stitch_paths lattice [] paths with
  | (Raised e l, _) => Raised e l
  | (Returned l, all_ancilla_cells) =>
      Returned (set_patches l (patches l ++ [mkPatch Ancilla None all_ancilla_cells [] None]))
  end.

(** The signature of [Graph.get_shortest_paths(v, to, mode='all',
    output='vpath')]. *)
Definition path_search : Type :=
  igraph.Graph -> string -> list string -> result (list (list nat)).

(** The keys of the request are their own representatives. *)
Definition keys_are_representatives (lattice : Lattice) (m : OperatorMap) : bool :=
  forallb (fun c => bool_decide (getPatchRepresentative lattice c = c)) (keys m).

(** The first part of [compute_ancilla_cells]: the assertion, the graph of
    free cells, the vertices of the active patches and the activation edges.
    The result is the search graph with the source and the target names. *)
Definition search_graph (lattice : Lattice) (patch_pauli_operator_map : OperatorMap)
    : result (igraph.Graph * string * list string) :=
  if negb (keys_are_representatives lattice patch_pauli_operator_map)
  then Raise AssertionError
  else
    g ← make_graph_of_free_cells lattice;
    let active_qubits := map str (keys patch_pauli_operator_map) in
    let g := igraph.add_vertices g active_qubits in
    source_qubit ← py_index active_qubits 0;
    let target_qubits := tail active_qubits in
    g ← add_directed_edges g lattice patch_pauli_operator_map source_qubit target_qubits;
    Ok (g, source_qubit, target_qubits).

(** [[make_tuple(g.vs[v_idx]["name"]) for v_idx in path]] *)
Definition path_cells (g : igraph.Graph) (path : list nat) : result (list Cell) :=
  mapM (fun v_idx => name ← igraph.vs_get_name g v_idx; make_tuple name) path.

(** Everything [compute_ancilla_cells] does before it touches the lattice:
    the search graph, the search, and the paths as cells. *)
Definition route (get_shortest_paths : path_search) (lattice : Lattice)
    (patch_pauli_operator_map : OperatorMap) : result (list (list Cell)) :=
  '(g, source_qubit, target_qubits) ← search_graph lattice patch_pauli_operator_map;
  shortest_paths_raw ← get_shortest_paths g source_qubit target_qubits;
  mapM (path_cells g) shortest_paths_raw.

Definition compute_ancilla_cells (get_shortest_paths : path_search)
    (lattice : Lattice) (patch_pauli_operator_map : OperatorMap) : outcome :=
  match route get_shortest_paths lattice patch_pauli_operator_map with
  | Raise e => Raised e lattice
  | Ok shortest_paths => add_ancilla_to_lattice_from_paths lattice shortest_paths
  end.

(** *** The time-slice composer

    [qubit_patch_slices] is a list of references to lattice objects: [store]
    holds the objects, the slice list holds their locations. *)
Record Composer : Set := mkComposer {
  store : list Lattice;
  qubit_patch_slices : list nat
}.

(** [TopologicalAssemblyComposer(initial_layout)] *)
Definition init (initial_layout : Lattice) : Composer :=
  {| store := [initial_layout]; qubit_patch_slices := [0%nat] |}.

(** [self.qubit_patch_slices[-1]]: the location of the last slice. *)
Definition last_slice (self : Composer) : result nat :=
  py_index (qubit_patch_slices self) (-1).

(** [getSlices()]: the slice list, each reference followed to its lattice. *)
Definition getSlices (self : Composer) : list Lattice :=
  omap (fun l => store self !! l) (qubit_patch_slices self).

(** Appends the reference itself. *)
Definition initQubit (self : Composer) : Composer * option exn :=
  match last_slice self with
  | Raise e => (self, Some e)
  | Ok l =>
      ({| store := store self; qubit_patch_slices := qubit_patch_slices self ++ [l] |}, None)
  end.

(** [copy.deepcopy] allocates a new lattice object with the same contents. *)
Definition newTimeSlice (self : Composer) : Composer * option exn :=
  match last_slice self with
  | Raise e => (self, Some e)
  | Ok l =>
      match store self !! l with
      | None => (self, None)
      | Some lattice =>
          ({| store := store self ++ [lattice];
              qubit_patch_slices := qubit_patch_slices self ++ [length (store self)] |}, None)
      end
  end.

(** An operation that works in place on the last slice. *)
Definition on_last_slice (f : Lattice -> outcome) (self : Composer)
    : Composer * option exn :=
  match last_slice self with
  | Raise e => (self, Some e)
  | Ok l =>
      match store self !! l with
      | None => (self, None)
      | Some lattice =>
          let o := f lattice in
          ({| store := <[l := lattice_of o]> (store self);
              qubit_patch_slices := qubit_patch_slices self |}, exception_of o)
      end
  end.

Definition measureMultiPatch (get_shortest_paths : path_search) (self : Composer)
    (patch_pauli_operator_map : OperatorMap) : Composer * option exn :=
  on_last_slice
    (fun lattice => compute_ancilla_cells get_shortest_paths lattice patch_pauli_operator_map)
    self.

Definition unstitch_patch (patch : Patch) : Patch :=
  set_edges patch (map unstitch (edges patch)).

(** The loop that unstitches every border, then the filter. *)
Definition clear_ancilla (lattice : Lattice) : Lattice :=
  set_patches lattice
    (filter (fun patch => patch_type patch ≠ Ancilla)
       (map unstitch_patch (patches lattice))).

Definition clearAncilla (self : Composer) : Composer * option exn :=
  on_last_slice (fun lattice => Returned (clear_ancilla lattice)) self.

Definition clearLattice (self : Composer) : Composer * option exn :=
  on_last_slice (fun lattice => Returned (clear lattice)) self.

(** ** Vocabulary of the statements *)

(** The composer's invariant: the history is not empty and every slice
    refers to a lattice of the store. *)
Definition wf (self : Composer) : Prop :=
  qubit_patch_slices self ≠ []
  ∧ Forall (fun l => (l < length (store self))%nat) (qubit_patch_slices self).

(** The operations that mutate the last slice in place. *)
Inductive mutation : Set :=
  | MeasureMultiPatch (patch_pauli_operator_map : OperatorMap)
  | ClearAncilla
  | ClearLattice.

(** What a mutation does to the lattice object it is applied to. *)
Definition effect (search : path_search) (mu : mutation) (lattice : Lattice) : outcome :=
  match mu with
  | MeasureMultiPatch m => compute_ancilla_cells search lattice m
  | ClearAncilla => Returned (clear_ancilla lattice)
  | ClearLattice => Returned (clear lattice)
  end.

Definition apply_mutation (search : path_search) (self : Composer) (mu : mutation)
    : Composer * option exn :=
  match mu with
  | MeasureMultiPatch m => measureMultiPatch search self m
  | ClearAncilla => clearAncilla self
  | ClearLattice => clearLattice self
  end.

(** A sequence of mutations; an exception is reported to the caller, who
    goes on with the composer as the exception left it. *)
Definition apply_mutations (search : path_search) (self : Composer)
    (mus : list mutation) : Composer :=
  fold_left (fun c mu => fst (apply_mutation search c mu)) mus self.

(** The composers a program can build: the constructor, then any sequence
    of operations, whether they return or raise. *)
Inductive reachable (search : path_search) : Composer -> Prop :=
  | reachable_init (initial_layout : Lattice) :
      reachable search (init initial_layout)
  | reachable_initQubit (c : Composer) :
      reachable search c -> reachable search (fst (initQubit c))
  | reachable_newTimeSlice (c : Composer) :
      reachable search c -> reachable search (fst (newTimeSlice c))
  | reachable_mutation (c : Composer) (mu : mutation) :
      reachable search c -> reachable search (fst (apply_mutation search c mu)).

(** [m] is the greatest element of [l]. *)
Definition is_max (m : Z) (l : list Z) : Prop :=
  m ∈ l ∧ Forall (fun x => x <= m) l.

Definition all_coords (lattice : Lattice) (coord_type : CoordType) : list Z :=
  concat (map (fun patch => getCoordList patch coord_type) (patches lattice)).

(** No character of [s] is a comma or a closing parenthesis. *)
Fixpoint no_separator (s : string) : Prop :=
  match s with
  | EmptyString => True
  | String a rest => a ≠ ","%char ∧ a ≠ ")"%char ∧ no_separator rest
  end.

(** [u] and [v] are joined by an edge, in either direction. *)
Definition adjacent (g : igraph.Graph) (u v : nat) : Prop :=
  (u, v) ∈ igraph.es g ∨ (v, u) ∈ igraph.es g.

(** Consecutive vertices of [p] are adjacent. *)
Fixpoint walk (g : igraph.Graph) (p : list nat) : Prop :=
  match p with
  | [] => True
  | u :: rest =>
      match rest with
      | [] => True
      | v :: _ => adjacent g u v ∧ walk g rest
      end
  end.

(** Every parent recorded by the search is a neighbour of its child. *)
Definition parents_adjacent (g : igraph.Graph) (from : nat)
    (parent : list (option nat)) : Prop :=
  forall v p, parent !! v = Some (Some p) -> v = from ∨ adjacent g p v.

(** The search has given [v] a parent. *)
Definition discovered (parent : list (option nat)) (v : nat) : Prop :=
  exists p, parent !! v = Some (Some p).

(** The state of the search: [order] lists the discovered vertices in the
    order of their discovery, the source first, and the parent of a vertex was
    discovered before the vertex. *)
Record search_inv (g : igraph.Graph) (from : nat) (order : list nat)
    (parent : list (option nat)) : Prop := {
  inv_length : length parent = igraph.vcount g;
  inv_nodup : NoDup order;
  inv_discovered : forall v, v ∈ order <-> discovered parent v;
  inv_head : head order = Some from;
  inv_earlier : forall v p,
    parent !! v = Some (Some p) ->
    v = from ∨ exists i j, order !! i = Some p ∧ order !! j = Some v ∧ (i < j)%nat
}.

(** Every neighbour of a vertex of [done] is in [order]. *)
Definition closed (g : igraph.Graph) (done order : list nat) : Prop :=
  forall u v, u ∈ done -> adjacent g u v -> (v < igraph.vcount g)%nat -> v ∈ order.

(** A walk from [s] to [t] that repeats no vertex. *)
Definition simple_walk (g : igraph.Graph) (s t : nat) (p : list nat) : Prop :=
  walk g p ∧ NoDup p ∧ Forall (fun v => (v < igraph.vcount g)%nat) p
  ∧ head p = Some s ∧ last p = Some t.

(** What a path search may answer for the target [t]: a walk from the source
    that repeats no vertex, as every shortest path is, or the empty path when
    there is no walk. *)
Definition acceptable_path (g : igraph.Graph) (s t : nat) (p : list nat) : Prop :=
  simple_walk g s t p ∨ (p = [] ∧ forall q, ¬ simple_walk g s t q).

(** All walks from [u] to [t] that repeat no vertex and avoid [visited]. *)
Fixpoint simple_paths (fuel : nat) (g : igraph.Graph) (visited : list nat)
    (u t : nat) : list (list nat) :=
  match fuel with
  | O => []
  | S fuel' =>
      if decide (u = t) then [[u]]
      else
        flat_map (fun v =>
          if decide (v ∈ u :: visited) then []
          else map (cons u) (simple_paths fuel' g (u :: visited) v t))
          (remove_dups (igraph.neighbors_all g u))
  end.

(** The acceptable answers for one target, and for a list of targets. *)
Definition answers_for (g : igraph.Graph) (s t : nat) : list (list nat) :=
  match simple_paths (igraph.vcount g) g [] s t with
  | [] => [[]]
  | ps => ps
  end.

Fixpoint all_answers (g : igraph.Graph) (s : nat) (ts : list nat)
    : list (list (list nat)) :=
  match ts with
  | [] => [[]]
  | t :: ts' =>
      flat_map (fun p => map (cons p) (all_answers g s ts')) (answers_for g s t)
  end.

(** The second part of [compute_ancilla_cells], from the answer of the search
    on. *)
Definition finish (g : igraph.Graph) (lattice : Lattice) (raw : list (list nat))
    : outcome :=
  match mapM (path_cells g) raw with
  | Ok shortest_paths => add_ancilla_to_lattice_from_paths lattice shortest_paths
  | Raise e => Raised e lattice
  end.

(** The answers that are acceptable for a search called with vertex names. *)
Definition acceptable_answer (g : igraph.Graph) (source : string)
    (targets : list string) (raw : list (list nat)) : Prop :=
  exists s ts,
    igraph.vertex_id g source = Ok s
    ∧ mapM (igraph.vertex_id g) targets = Ok ts
    ∧ Forall2 (acceptable_path g s) ts raw.

Definition named_answers (g : igraph.Graph) (source : string)
    (targets : list string) : list (list (list nat)) :=
  match igraph.vertex_id g source, mapM (igraph.vertex_id g) targets with
  | Ok s, Ok ts => all_answers g s ts
  | _, _ => []
  end.

#[global] Instance outcome_eq_dec : EqDecision outcome.
Proof. solve_decision. Defined.

(** [e'] is [e], possibly with its border type stitched. *)
Definition stitched_or_same (e e' : Edge) : Prop := e' = e ∨ e' = stitch e.

(** [p'] is [p] up to stitched borders. *)
Definition patch_stitched_or_same (p p' : Patch) : Prop :=
  exists es', p' = set_edges p es' ∧ Forall2 stitched_or_same (edges p) es'.

(** [lattice'] has the patches of [lattice], in the same order and with the
    same cells, kinds and borders, except that some border types have been
    stitched: nothing was appended or removed. *)
Definition only_stitched (lattice lattice' : Lattice) : Prop :=
  exists ps', lattice' = set_patches lattice ps'
              ∧ Forall2 patch_stitched_or_same (patches lattice) ps'.

(** ** Layouts and requests used below *)

(** [singleSquarePatch(cell)] with the default arguments. *)
Definition square (c : Cell) : Patch := singleSquarePatch c Qubit Zero.

(** Scenario A: single-cell patches at columns 0, 4 and 6 of row 0, at least
    two rows. *)
Definition scenario_A_lattice : Lattice :=
  mkLattice [square (0, 0); square (4, 0); square (6, 0)] 2 0.

Definition scenario_A_request : OperatorMap :=
  [((0, 0), PauliOperator.X); ((4, 0), PauliOperator.Z); ((6, 0), PauliOperator.X)].

(** One row: patches at columns 0, 2 and 4, the cells between them free. *)
Definition row_lattice : Lattice :=
  mkLattice [square (0, 0); square (2, 0); square (4, 0)] 1 0.

Definition row_request_XXX : OperatorMap :=
  [((0, 0), PauliOperator.X); ((2, 0), PauliOperator.X); ((4, 0), PauliOperator.X)].

Definition row_request_XXZ : OperatorMap :=
  [((0, 0), PauliOperator.X); ((2, 0), PauliOperator.X); ((4, 0), PauliOperator.Z)].

(** One row: patches at columns 0 and 2. *)
Definition pair_lattice : Lattice :=
  mkLattice [square (0, 0); square (2, 0)] 1 0.

Definition pair_request : OperatorMap :=
  [((0, 0), PauliOperator.X); ((2, 0), PauliOperator.X)].

(** Two patches side by side. *)
Definition adjacent_lattice : Lattice :=
  mkLattice [square (0, 0); square (1, 0)] 1 0.

Definition adjacent_request : OperatorMap :=
  [((0, 0), PauliOperator.X); ((1, 0), PauliOperator.X)].

(** The two-cell patch of [simpleRightFacingDistillery] at the origin. *)
Definition tall_patch : Patch :=
  mkPatch DistillationQubit (Some Zero) [(0, 0); (0, 1)]
    [ mkEdge Solid (0, 0) Top;
      mkEdge Solid (0, 0) Left;
      mkEdge Dashed (0, 0) Right;
      mkEdge Dashed (0, 1) Left;
      mkEdge Dashed (0, 1) Bottom;
      mkEdge Solid (0, 1) Right ]
    None.

Definition tall_lattice : Lattice := mkLattice [tall_patch; square (2, 0)] 2 0.

Definition tall_request : OperatorMap :=
  [((0, 1), PauliOperator.X); ((2, 0), PauliOperator.X)].

(** A single patch in row 5. *)
Definition high_lattice : Lattice := mkLattice [square (0, 5)] 2 0.

(** A lattice that carries an ancilla patch and stitched borders. *)
Definition stitched_lattice : Lattice :=
  mkLattice
    [ mkPatch Qubit (Some Zero) [(0, 0)]
        [ mkEdge Solid (0, 0) Top; mkEdge Solid (0, 0) Bottom;
          mkEdge Dashed (0, 0) Left; mkEdge DashedStiched (0, 0) Right ] None;
      mkPatch Ancilla None [(1, 0)] [] None;
      mkPatch Qubit (Some Zero) [(2, 0)]
        [ mkEdge Solid (2, 0) Top; mkEdge Solid (2, 0) Bottom;
          mkEdge DashedStiched (2, 0) Left; mkEdge Dashed (2, 0) Right ] None ]
    1 0.

(** What scenario A comes to: the three patches with the Right border of
    (0, 0), the Bottom border of (4, 0) and the Left border of (6, 0)
    stitched, and one Ancilla patch without borders whose cells were free, lie
    in columns 1 to 5 of rows 0 and 1, and include (1, 0), (4, 1), (5, 0). *)
Definition scenario_A_expected (o : outcome) : Prop :=
  match o with
  | Returned lattice' =>
      match last (patches lattice') with
      | Some ancilla =>
          lattice' =
            mkLattice
              [ mkPatch Qubit (Some Zero) [(0, 0)]
                  [ mkEdge Solid (0, 0) Top; mkEdge Solid (0, 0) Bottom;
                    mkEdge Dashed (0, 0) Left; mkEdge DashedStiched (0, 0) Right ] None;
                mkPatch Qubit (Some Zero) [(4, 0)]
                  [ mkEdge Solid (4, 0) Top; mkEdge SolidStiched (4, 0) Bottom;
                    mkEdge Dashed (4, 0) Left; mkEdge Dashed (4, 0) Right ] None;
                mkPatch Qubit (Some Zero) [(6, 0)]
                  [ mkEdge Solid (6, 0) Top; mkEdge Solid (6, 0) Bottom;
                    mkEdge DashedStiched (6, 0) Left; mkEdge Dashed (6, 0) Right ] None;
                mkPatch Ancilla None (cells ancilla) [] None ]
              2 0
          ∧ Forall (fun c => cellIsFree scenario_A_lattice c = true
                             ∧ 1 <= fst c <= 5 ∧ 0 <= snd c <= 1) (cells ancilla)
          ∧ (1, 0) ∈ cells ancilla ∧ (4, 1) ∈ cells ancilla ∧ (5, 0) ∈ cells ancilla
          ∧ NoDup (cells ancilla)
      | None => False
      end
  | Raised _ _ => False
  end.

#[global] Instance scenario_A_expected_dec (o : outcome) : Decision (scenario_A_expected o).
Proof.
  unfold scenario_A_expected. destruct o as [lattice'|]; [|apply _].
  destruct (last (patches lattice')); apply _.
Defined.

(** ** patches.py: the remaining operations *)

(** [Orientation.get_graph_edge(edge)]: the cell of the border and the cell
    across it. *)
Definition get_graph_edge (edge : Edge) : Cell * Cell :=
  let '(col, row) := cell edge in
  match orientation edge with
  | Top => ((col, row), (col, row - 1))
  | Bottom => ((col, row), (col, row + 1))
  | Left => ((col, row), (col - 1, row))
  | Right => ((col, row), (col + 1, row))
  end.

(** The dictionary of [get_border_orientation] is indexed by the difference
    of the two cells; any other difference is a [KeyError]. *)
Definition get_border_orientation (subject neighbour : Cell) : result Orientation :=
  let d := (fst neighbour - fst subject, snd neighbour - snd subject) in
  if decide (d = (0, -1)) then Ok Top
  else if decide (d = (0, 1)) then Ok Bottom
  else if decide (d = (-1, 0)) then Ok Left
  else if decide (d = (1, 0)) then Ok Right
  else Raise KeyError.

(** [Patch.borders(to_cell)]; [and] evaluates [get_border_orientation] only
    for an edge that sits on [from_cell]. *)
Definition borders (self : Patch) (to_cell : Cell) : result (list Edge) :=
  foldM (fun edges_between from_cell =>
    foldM (fun edges_between edge =>
      if bool_decide (cell edge = from_cell)
      then
        o ← get_border_orientation from_cell to_cell;
        Ok (if bool_decide (orientation edge = o)
            then edges_between ++ [edge]
            else edges_between)
      else Ok edges_between) (edges self) edges_between) (cells self) [].

(** [Patch.set_uuid] *)
Definition set_uuid (self : Patch) (uuid : option N) : Patch :=
  mkPatch (patch_type self) (state self) (cells self) (edges self) uuid.

Definition patchTypeOfCell (self : Lattice) (c : Cell) : option PatchType :=
  match getPatchOfCell self c with
  | Some maybe_patch => Some (patch_type maybe_patch)
  | None => None
  end.

(** [Lattice.getPatchByUuid]: the first patch that has an identity and whose
    identity equals the argument. *)
Definition getPatchByUuid (self : Lattice) (uuid : option N) : option Patch :=
  snd <$> list_find (fun p => patch_uuid p ≠ None ∧ patch_uuid p = uuid) (patches self).

(** ** topological_assembly.py: the layouts and the operator listing *)

(** [LatticeLayoutInitializer.simpleRightFacingDistillery] *)
Definition simpleRightFacingDistillery (top_left_corner : Cell) : list Patch :=
  let '(x, y) := top_left_corner in
  [ singleSquarePatch (x + 2, y) DistillationQubit Magic;
    singleSquarePatch (x + 3, y) DistillationQubit Magic;
    singleSquarePatch (x + 4, y + 1) DistillationQubit Plus;
    singleSquarePatch (x + 3, y + 2) DistillationQubit Magic;
    singleSquarePatch (x + 2, y + 2) DistillationQubit Magic;
    mkPatch DistillationQubit (Some Zero) [(x, y); (x, y + 1)]
      [ mkEdge Solid (x, y) Top;
        mkEdge Solid (x, y) Left;
        mkEdge Dashed (x, y) Right;
        mkEdge Dashed (x, y + 1) Left;
        mkEdge Dashed (x, y + 1) Bottom;
        mkEdge Solid (x, y + 1) Right ]
      None;
    mkPatch DistillationQubit (Some Magic) [(x + 1, y); (x + 1, y + 1)]
      [ mkEdge Dashed (x + 1, y) Top;
        mkEdge Solid (x + 1, y) Left;
        mkEdge Dashed (x + 1, y) Right;
        mkEdge Solid (x + 1, y + 1) Left;
        mkEdge Dashed (x + 1, y + 1) Bottom;
        mkEdge Solid (x + 1, y + 1) Right ]
      None ].

(** [LatticeLayoutInitializer.simpleLayout] *)
Definition simpleLayout (num_logical_qubits : Z) : Lattice :=
  mkLattice
    (map (fun j => singleSquarePatch (j * 2, 0) Qubit Zero) (range num_logical_qubits)
     ++ simpleRightFacingDistillery (2 * num_logical_qubits, 0))
    2 0.

(** What [get_pauli_op_listing] raises: an exception of the interpreter, or
    its own [Exception] with a message. *)
Inductive raised : Set :=
  | Builtin (e : exn)
  | Exception (message : string).

(** [get_pauli_op_listing(cell, lattice, patch_pauli_operator_map)]: the
    first cell of the patch of [cell] that is a key of the request. *)
Definition get_pauli_op_listing (c : Cell) (lattice : Lattice)
    (patch_pauli_operator_map : OperatorMap) : raised + option Cell :=
  match getPatchOfCell lattice c with
  | None => inl (Builtin AttributeError)
  | Some patch =>
      let l := filter (fun c' => c' ∈ keys patch_pauli_operator_map) (cells patch) in
      match l with
      | [] => inr None
      | first :: _ =>
          let r := getPatchRepresentative lattice c in
          if bool_decide (first ≠ r)
          then inl (Exception
                      ("Non patch repr cell associated with operator: " +:+ str first
                       +:+ ". Repr is " +:+ str r))
          else inr (Some first)
      end
  end.

(** The lattice invariant: no cell belongs to two patches, or twice to one. *)
Definition disjoint_cells (lattice : Lattice) : Prop :=
  NoDup (concat (map cells (patches lattice))).

(** A lattice without Ancilla patch and without stitched border. *)
Definition clean (lattice : Lattice) : Prop :=
  Forall (fun p => patch_type p ≠ Ancilla
                   ∧ Forall (fun e => isStiched e = false) (edges p))
    (patches lattice).

(** The edges that [borders] collects. *)
Definition edges_between (p : Patch) (to_cell : Cell) (from_cells : list Cell)
    : list Edge :=
  flat_map (fun from_cell =>
    filter (fun e => cell e = from_cell ∧ getNeighbouringCell e = to_cell) (edges p))
    from_cells.

(** Every border of [p] that sits on one of [from_cells] sits on a
    neighbour of [to_cell]. *)
Definition borders_defined (p : Patch) (to_cell : Cell) (from_cells : list Cell) : Prop :=
  Forall (fun e => cell e ∈ from_cells ->
                   to_cell ∈ neighbours4 (fst (cell e)) (snd (cell e))) (edges p).

(** The cells of a grid of [rows] rows and [cols] columns, row by row. *)
Definition grid (rows cols : Z) : list Cell :=
  flat_map (fun row => map (fun col => (col, row)) (range cols)) (range rows).

(** The free cells of the grid, row by row. *)
Definition free_cells (lattice : Lattice) (rows cols : Z) : list Cell :=
  filter (fun c => cellIsFree lattice c = true) (grid rows cols).

(** The ordered pairs of free cells of the grid that are neighbours, by the
    first cell row by row, then in the order of [neighbours4]. *)
Definition free_neighbours (lattice : Lattice) (rows cols : Z) : list (Cell * Cell) :=
  flat_map (fun a =>
    map (pair a)
      (filter (fun b => in_range (fst b) cols && in_range (snd b) rows
                        && cellIsFree lattice a && cellIsFree lattice b = true)
         (neighbours4 (fst a) (snd a))))
    (grid rows cols).

(** The edge [(u, v)] joins the vertices named after the cells [a] and [b]. *)
Definition joins (names : list string) (ab : Cell * Cell) (uv : nat * nat) : Prop :=
  names !! fst uv = Some (str (fst ab)) ∧ names !! snd uv = Some (str (snd ab)).

(** The state of the loops that add the edges: the vertices are in place,
    and the edges join, in order, the pairs [done]. *)
Definition edges_join (names : list string) (done : list (Cell * Cell))
    (g : igraph.Graph) : Prop :=
  igraph.vs_name g = names ∧ Forall2 (joins names) done (igraph.es g).

(** The pairs of cells that [add_directed_edges] joins: for each patch whose
    first cell is a key of the request, each border of the requested type
    whose neighbouring cell names a vertex, paired with the first cell. *)
Definition activation_edges (lattice : Lattice) (m : OperatorMap) (names : list string)
    : list (Cell * Cell) :=
  flat_map (fun p =>
    match cells p with
    | [] => []
    | representative :: _ =>
        match dict_get m representative with
        | Ok operator =>
            match PAULI_OPERATOR_TO_EDGE_MAP operator with
            | Ok requested_edge_type =>
                map (fun e => (getNeighbouringCell e, representative))
                  (filter (fun e => border_type e = requested_edge_type
                                    ∧ str (getNeighbouringCell e) ∈ names) (edges p))
            | Raise _ => []
            end
        | Raise _ => []
        end
    end) (patches lattice).

(** The first patch that stops [add_directed_edges]: a patch without cells,
    or a patch of the request whose operator has no border type. *)
Fixpoint activation_error (m : OperatorMap) (ps : list Patch) : option exn :=
  match ps with
  | [] => None
  | p :: ps' =>
      match cells p with
      | [] => Some IndexError
      | representative :: _ =>
          match dict_get m representative with
          | Ok operator =>
              match PAULI_OPERATOR_TO_EDGE_MAP operator with
              | Ok _ => activation_error m ps'
              | Raise e => Some e
              end
          | Raise _ => activation_error m ps'
          end
      end
  end.

(** ** rotation.py: products of operators and operator lists *)

(** The coefficients of the table: [1], [1j] and [-1j]. *)
Inductive Coefficient : Set := One | PlusI | MinusI.

#[global] Instance Coefficient_eq_dec : EqDecision Coefficient.
Proof. solve_decision. Defined.

(** [PauliOperator._anticommute_tbl]: [(a, b) in tbl] is [Some] here. *)
Definition _anticommute_tbl (a b : PauliOperator.t)
    : option (Coefficient * PauliOperator.t) :=
  match a, b with
  | PauliOperator.Z, PauliOperator.X => Some (PlusI, PauliOperator.Y)
  | PauliOperator.X, PauliOperator.Z => Some (MinusI, PauliOperator.Y)
  | PauliOperator.Z, PauliOperator.Y => Some (PlusI, PauliOperator.X)
  | PauliOperator.Y, PauliOperator.Z => Some (MinusI, PauliOperator.X)
  | PauliOperator.Y, PauliOperator.X => Some (PlusI, PauliOperator.Z)
  | PauliOperator.X, PauliOperator.Y => Some (MinusI, PauliOperator.Z)
  | _, _ => None
  end.

(** [PauliOperator.are_commuting]; the [isinstance] test cannot fail on
    arguments of type [PauliOperator.t]. *)
Definition are_commuting (a b : PauliOperator.t) : bool :=
  match _anticommute_tbl a b with
  | Some _ => false
  | None => true
  end.

(** [PauliOperator.multiply_operators]; [None] is the value of a call that
    reaches the end of the body without a [return]. *)
Definition multiply_operators (a b : PauliOperator.t)
    : option (Coefficient * PauliOperator.t) :=
  match _anticommute_tbl a b with
  | Some product => Some product
  | None =>
      if decide (a = b) then Some (One, PauliOperator.I)
      else if decide (a = PauliOperator.I ∨ b = PauliOperator.I)
           then Some (One, if decide (a = PauliOperator.I) then b else a)
           else None
  end.

(** [l[i] = x] on a Python list. *)
Definition py_setitem {A} (l : list A) (i : Z) (x : A) : result (list A) :=
  let j := if decide (i < 0) then i + Z.of_nat (length l) else i in
  if decide (j < 0) then Raise IndexError
  else if decide (Z.to_nat j < length l)%nat then Ok (<[Z.to_nat j := x]> l)
       else Raise IndexError.

(** [enumerate(l, start)] *)
Fixpoint enumerate_from {A} (start : Z) (l : list A) : list (Z * A) :=
  match l with
  | [] => []
  | x :: l' => (start, x) :: enumerate_from (start + 1) l'
  end.

Definition enumerate {A} (l : list A) : list (Z * A) := enumerate_from 0 l.

(** The fields that [Rotation] and [Measurement] share, on which the methods
    of [PauliProductOperation] work. *)
Record PauliProductOperation : Set := mkPauliProductOperation {
  qubit_num : Z;
  ops_list : list PauliOperator.t
}.

(** [change_single_op]; the [isinstance] test cannot fail on an argument of
    type [PauliOperator.t]. *)
Definition change_single_op (self : PauliProductOperation) (qubit : Z)
    (new_op : PauliOperator.t) : result PauliProductOperation :=
  ops ← py_setitem (ops_list self) qubit new_op;
  Ok {| qubit_num := qubit_num self; ops_list := ops |}.

Definition get_op (self : PauliProductOperation) (qubit : Z) : result PauliOperator.t :=
  py_index (ops_list self) qubit.

(** [get_ops_map]: the pairs of the comprehension, in the order of
    [range(self.qubit_num)]; the keys are distinct, so [dict] keeps them
    all. *)
Definition get_ops_map (self : PauliProductOperation)
    : result (list (Z * PauliOperator.t)) :=
  foldM (fun pairs qn =>
    op ← py_index (ops_list self) qn;
    Ok (if decide (op ≠ PauliOperator.I) then pairs ++ [(qn, op)] else pairs))
    (range (qubit_num self)) [].

(** [fractions.Fraction], which the code only stores: numerator and
    denominator. *)
Definition Fraction : Set := (Z * positive)%type.

Record Rotation : Set := mkRotation {
  rotation_ops : PauliProductOperation;
  rotation_amount : Fraction
}.

(** [Rotation(no_of_qubit, rotation_amount)] *)
Definition Rotation_init (no_of_qubit : Z) (amount : Fraction) : Rotation :=
  {| rotation_ops :=
       {| qubit_num := no_of_qubit;
          ops_list := map (fun _ => PauliOperator.I) (range no_of_qubit) |};
     rotation_amount := amount |}.

(** [Rotation.from_list] *)
Definition Rotation_from_list (pauli_ops : list PauliOperator.t) (rotation : Fraction)
    : result Rotation :=
  foldM (fun r '(i, op) =>
    ops ← change_single_op (rotation_ops r) i op;
    Ok {| rotation_ops := ops; rotation_amount := rotation_amount r |})
    (enumerate pauli_ops)
    (Rotation_init (Z.of_nat (length pauli_ops)) rotation).

Record Measurement : Set := mkMeasurement {
  measurement_ops : PauliProductOperation;
  isNegative : bool
}.

(** [Measurement(no_of_qubit, isNegative)] *)
Definition Measurement_init (no_of_qubit : Z) (is_negative : bool) : Measurement :=
  {| measurement_ops :=
       {| qubit_num := no_of_qubit;
          ops_list := map (fun _ => PauliOperator.I) (range no_of_qubit) |};
     isNegative := is_negative |}.

(** [Measurement.from_list] *)
Definition Measurement_from_list (pauli_ops : list PauliOperator.t) (is_negative : bool)
    : result Measurement :=
  foldM (fun m '(i, op) =>
    ops ← change_single_op (measurement_ops m) i op;
    Ok {| measurement_ops := ops; isNegative := isNegative m |})
    (enumerate pauli_ops)
    (Measurement_init (Z.of_nat (length pauli_ops)) is_negative).

(** *** The Pauli matrices

    The matrices that the operators stand for, over the Gaussian integers,
    to state what the table of products returns. *)

(** [(re, im)] *)
Definition Gauss : Set := (Z * Z)%type.

Definition gauss_add (x y : Gauss) : Gauss := (fst x + fst y, snd x + snd y).

Definition gauss_mul (x y : Gauss) : Gauss :=
  (fst x * fst y - snd x * snd y, fst x * snd y + snd x * fst y).

Definition gauss_opp (x : Gauss) : Gauss := (- fst x, - snd x).

(** A 2 by 2 matrix, by rows. *)
Definition Matrix : Set := (Gauss * Gauss * (Gauss * Gauss))%type.

Definition matrix_mul (m n : Matrix) : Matrix :=
  let '((a, b), (c, d)) := m in
  let '((e, f), (g, h)) := n in
  ((gauss_add (gauss_mul a e) (gauss_mul b g), gauss_add (gauss_mul a f) (gauss_mul b h)),
   (gauss_add (gauss_mul c e) (gauss_mul d g), gauss_add (gauss_mul c f) (gauss_mul d h))).

Definition matrix_scale (k : Gauss) (m : Matrix) : Matrix :=
  let '((a, b), (c, d)) := m in
  ((gauss_mul k a, gauss_mul k b), (gauss_mul k c, gauss_mul k d)).

Definition pauli_matrix (op : PauliOperator.t) : Matrix :=
  match op with
  | PauliOperator.I => (((1, 0), (0, 0)), ((0, 0), (1, 0)))
  | PauliOperator.X => (((0, 0), (1, 0)), ((1, 0), (0, 0)))
  | PauliOperator.Y => (((0, 0), (0, -1)), ((0, 1), (0, 0)))
  | PauliOperator.Z => (((1, 0), (0, 0)), ((0, 0), (-1, 0)))
  end.

Definition coefficient_value (c : Coefficient) : Gauss :=
  match c with
  | One => (1, 0)
  | PlusI => (0, 1)
  | MinusI => (0, -1)
  end.

(** * Properties *)

(** ** Python indexing *)

Lemma py_index_last {A} (l : list A) :
  py_index l (-1) = match last l with Some x => Ok x | None => Raise IndexError end.
Proof.
  unfold py_index. destruct (decide (-1 < 0)) as [_|]; [|lia].
  destruct (decide (l = [])) as [->|Hne]; [reflexivity|].
  destruct (last l) as [x|] eqn:Hl; [|by apply last_None in Hl].
  assert (length l ≠ 0%nat) by (by destruct l).
  destruct (decide (-1 + Z.of_nat (length l) < 0)); [lia|].
  rewrite last_lookup in Hl.
  replace (Z.to_nat (-1 + Z.of_nat (length l))) with (Nat.pred (length l)).
  - by rewrite Hl.
  - destruct l; [done|]. simpl length. lia.
Qed.

(** ** Vertex names

    [str] prints a cell and [make_tuple] reads it back, so a vertex name
    stands for exactly one cell. *)

Lemma no_separator_uint (d : Decimal.uint) :
  no_separator (NilEmpty.string_of_uint d).
Proof. induction d; simpl; repeat split; try discriminate; assumption. Qed.

Lemma no_separator_nz_uint (d : Decimal.uint) :
  no_separator (NilZero.string_of_uint d).
Proof.
  destruct d; try apply (no_separator_uint (_ d)).
  simpl. repeat split; discriminate.
Qed.

Lemma no_separator_str_int (z : Z) : no_separator (str_int z).
Proof.
  unfold str_int. destruct z as [|p|p]; unfold Z.to_int, NilZero.string_of_int.
  - apply no_separator_nz_uint.
  - apply no_separator_nz_uint.
  - split; [discriminate|]. split; [discriminate|]. apply no_separator_nz_uint.
Qed.

Lemma split_comma_app (l r : string) :
  no_separator l -> split_comma (l +:+ ", " +:+ r) = Some (l, r).
Proof.
  induction l as [|a l IH]; intros Hl; [reflexivity|].
  destruct Hl as (Ha & _ & Hl). simpl.
  apply Ascii.eqb_neq in Ha. rewrite Ha.
  fold (String.append l (", " +:+ r)). by rewrite (IH Hl).
Qed.

Lemma strip_paren_app (l : string) :
  no_separator l -> strip_paren (l +:+ ")") = Some l.
Proof.
  induction l as [|a l IH]; intros Hl; [reflexivity|].
  destruct Hl as (_ & Ha & Hl). simpl.
  apply Ascii.eqb_neq in Ha. rewrite Ha. simpl.
  fold (String.append l ")"). by rewrite (IH Hl).
Qed.

Lemma int_of_string_str_int (z : Z) :
  NilZero.int_of_string (str_int z) = Some (Z.to_int z).
Proof.
  unfold str_int. apply NilZero.isi; destruct z; simpl; try discriminate;
    intros [= H]; by apply DecimalPos.Unsigned.to_uint_nonnil in H.
Qed.

Lemma make_tuple_str (c : Cell) : make_tuple (str c) = Ok c.
Proof.
  destruct c as [col row]. unfold str, make_tuple. simpl fst. simpl snd.
  change ("(" +:+ str_int col +:+ ", " +:+ str_int row +:+ ")")
    with (String "("%char (str_int col +:+ ", " +:+ (str_int row +:+ ")"))).
  cbv beta iota.
  rewrite split_comma_app by apply no_separator_str_int.
  rewrite strip_paren_app by apply no_separator_str_int.
  simpl. rewrite !int_of_string_str_int. by rewrite !DecimalZ.of_to.
Qed.

Lemma str_inj (c d : Cell) : str c = str d -> c = d.
Proof.
  intros H. apply (f_equal make_tuple) in H.
  rewrite !make_tuple_str in H. by injection H.
Qed.

(** ** The border algebra *)

Lemma unstitched_type_idemp (b : EdgeType) :
  unstitched_type (unstitched_type b) = unstitched_type b.
Proof. by destruct b. Qed.

Lemma unstitch_idemp (e : Edge) : unstitch (unstitch e) = unstitch e.
Proof. unfold unstitch; simpl. by rewrite unstitched_type_idemp. Qed.

Lemma unstitch_not_stitched (e : Edge) : isStiched (unstitch e) = false.
Proof. destruct e as [[] ? ?]; reflexivity. Qed.

Lemma unstitch_patch_idemp (p : Patch) :
  unstitch_patch (unstitch_patch p) = unstitch_patch p.
Proof.
  unfold unstitch_patch, set_edges; simpl. f_equal.
  rewrite map_map. apply map_ext. intros e. apply unstitch_idemp.
Qed.

Lemma stitch_idemp (e : Edge) : stitch (stitch e) = stitch e.
Proof. destruct e as [[] ? ?]; reflexivity. Qed.

(** ** The size of the grid *)

Lemma fold_left_max_is_max (l : list Z) (x : Z) :
  is_max (fold_left Z.max l x) (x :: l).
Proof.
  revert x. induction l as [|y l IH]; intros x; simpl.
  - split; [apply list_elem_of_here|]. constructor; [lia|constructor].
  - destruct (IH (Z.max x y)) as [Hin Hall]. split.
    + apply elem_of_cons in Hin as [Heq|Hin].
      * rewrite Heq. destruct (Z.max_spec x y) as [[_ ->]|[_ ->]].
        -- apply list_elem_of_further, list_elem_of_here.
        -- apply list_elem_of_here.
      * by apply list_elem_of_further, list_elem_of_further.
    + apply Forall_cons in Hall as [Hxy Hall].
      constructor; [lia|]. constructor; [lia|]. exact Hall.
Qed.

Lemma getMaxCoord_nonempty (lattice : Lattice) (coord_type : CoordType) :
  all_coords lattice coord_type ≠ [] ->
  exists m,
    is_max m (all_coords lattice coord_type)
    ∧ getMaxCoord lattice coord_type =
        Ok (Z.max (1 + m)
              (if decide (coord_type = Row) then min_rows lattice else min_cols lattice)).
Proof.
  intros Hne. unfold getMaxCoord. fold (all_coords lattice coord_type).
  destruct (all_coords lattice coord_type) as [|x l]; [done|].
  exists (fold_left Z.max l x). split; [apply fold_left_max_is_max|reflexivity].
Qed.

(** C9, as the code has it: on a lattice with at least one cell, [getRows]
    is one more than the greatest row coordinate of the cells of the patches,
    floored at [min_rows], and [getCols] is one more than the greatest column
    coordinate, floored at [min_cols]. *)
Theorem getRows_getCols_count (lattice : Lattice) (p : Patch) :
  p ∈ patches lattice ->
  cells p ≠ [] ->
  exists max_row max_col,
    is_max max_row (all_coords lattice Row)
    ∧ is_max max_col (all_coords lattice Col)
    ∧ getRows lattice = Ok (Z.max (1 + max_row) (min_rows lattice))
    ∧ getCols lattice = Ok (Z.max (1 + max_col) (min_cols lattice)).
Proof.
  intros Hp Hc.
  assert (Hne : forall ct, all_coords lattice ct ≠ []).
  { intros ct Hnil. unfold all_coords in Hnil.
    apply list_elem_of_split in Hp as (l1 & l2 & Hp). rewrite Hp in Hnil.
    rewrite map_app, concat_app in Hnil. simpl in Hnil.
    apply app_eq_nil in Hnil as [_ Hnil]. apply app_eq_nil in Hnil as [Hnil _].
    unfold getCoordList in Hnil. apply map_eq_nil in Hnil. done. }
  destruct (getMaxCoord_nonempty lattice Row (Hne Row)) as (r & Hr & Hrows).
  destruct (getMaxCoord_nonempty lattice Col (Hne Col)) as (c & Hc' & Hcols).
  exists r, c. repeat split; try apply Hr; try apply Hc'.
  - exact Hrows.
  - exact Hcols.
Qed.

Lemma getRows_getCols_count_witness :
  exists max_row max_col,
    is_max max_row (all_coords scenario_A_lattice Row)
    ∧ is_max max_col (all_coords scenario_A_lattice Col)
    ∧ getRows scenario_A_lattice = Ok (Z.max (1 + max_row) (min_rows scenario_A_lattice))
    ∧ getCols scenario_A_lattice = Ok (Z.max (1 + max_col) (min_cols scenario_A_lattice)).
Proof.
  apply (getRows_getCols_count scenario_A_lattice (square (0, 0))).
  - apply list_elem_of_here.
  - discriminate.
Defined.

(** C9 as stated fails: with one patch at row 5 and two rows at least,
    [getRows] is 6, not the greatest row coordinate 5 floored at 2; and on a
    cleared lattice [getRows] and [getCols] raise instead of returning. *)
Lemma getRows_is_not_max_coordinate :
  is_max 5 (all_coords high_lattice Row)
  ∧ getRows high_lattice = Ok 6
  ∧ getRows high_lattice ≠ Ok (Z.max 5 (min_rows high_lattice))
  ∧ getRows (clear high_lattice) = Raise ValueError
  ∧ getCols (clear high_lattice) = Raise ValueError.
Proof.
  split.
  { split; [apply list_elem_of_here|]. constructor; [simpl; lia|constructor]. }
  split; [reflexivity|]. split; [discriminate|]. split; reflexivity.
Qed.

(** ** The store of the composer *)

Lemma wf_last_slice (c : Composer) :
  wf c ->
  exists l lattice,
    last_slice c = Ok l ∧ last (qubit_patch_slices c) = Some l
    ∧ store c !! l = Some lattice.
Proof.
  intros [Hne Hall]. unfold last_slice. rewrite py_index_last.
  destruct (last (qubit_patch_slices c)) as [l|] eqn:Hl;
    [|by apply last_None in Hl].
  assert (Hin : l ∈ qubit_patch_slices c).
  { rewrite last_lookup in Hl. by eapply list_elem_of_lookup_2. }
  rewrite Forall_forall in Hall. specialize (Hall l Hin).
  apply lookup_lt_is_Some_2 in Hall as [lattice Hlat].
  by exists l, lattice.
Qed.

Lemma on_last_slice_wf (f : Lattice -> outcome) (c : Composer) :
  wf c ->
  exists l lattice,
    last (qubit_patch_slices c) = Some l ∧ store c !! l = Some lattice
    ∧ on_last_slice f c =
        ({| store := <[l := lattice_of (f lattice)]> (store c);
            qubit_patch_slices := qubit_patch_slices c |},
         exception_of (f lattice)).
Proof.
  intros Hwf. destruct (wf_last_slice c Hwf) as (l & lattice & H1 & H2 & H3).
  exists l, lattice. unfold on_last_slice. by rewrite H1, H3.
Qed.

Lemma apply_mutation_on_last_slice (search : path_search) (c : Composer) (mu : mutation) :
  apply_mutation search c mu = on_last_slice (effect search mu) c.
Proof. by destruct mu. Qed.

Lemma getSlices_lookup (c : Composer) :
  Forall (fun l => (l < length (store c))%nat) (qubit_patch_slices c) ->
  Forall2 (fun l lattice => store c !! l = Some lattice)
    (qubit_patch_slices c) (getSlices c).
Proof.
  unfold getSlices. induction 1 as [|l ls Hl _ IH]; [constructor|].
  simpl. apply lookup_lt_is_Some_2 in Hl as [lattice Hlat].
  rewrite Hlat. simpl. by constructor.
Qed.

(** The slices seen through a store that was extended by one object. *)
Lemma getSlices_extend (st : list Lattice) (ls : list nat) (lattice : Lattice) :
  Forall (fun l => (l < length st)%nat) ls ->
  getSlices {| store := st ++ [lattice]; qubit_patch_slices := ls ++ [length st] |}
  = getSlices {| store := st; qubit_patch_slices := ls |} ++ [lattice].
Proof.
  intros Hall. unfold getSlices. simpl. rewrite omap_app. f_equal.
  - induction Hall as [|l ls' Hl _ IH]; [reflexivity|].
    csimpl. rewrite lookup_app_l by exact Hl. by rewrite IH.
  - simpl. rewrite lookup_app_r by lia. by rewrite Nat.sub_diag.
Qed.

(** Mutations of a freshly copied last slice stay in the copy. *)
Lemma apply_mutations_fresh (search : path_search) (st : list Lattice)
    (ls : list nat) (mus : list mutation) (lattice : Lattice) :
  exists lattice',
    apply_mutations search
      {| store := st ++ [lattice]; qubit_patch_slices := ls ++ [length st] |} mus
    = {| store := st ++ [lattice']; qubit_patch_slices := ls ++ [length st] |}.
Proof.
  revert lattice. induction mus as [|mu mus IH]; intros lattice.
  - by exists lattice.
  - unfold apply_mutations. simpl fold_left.
    rewrite apply_mutation_on_last_slice. unfold on_last_slice, last_slice.
    rewrite py_index_last. simpl qubit_patch_slices. rewrite last_snoc.
    simpl store. rewrite lookup_app_r by lia. rewrite Nat.sub_diag. simpl.
    replace (<[length st := lattice_of (effect search mu lattice)]> (st ++ [lattice]))
      with (st ++ [lattice_of (effect search mu lattice)]).
    + apply IH.
    + rewrite insert_app_r_alt by lia. by rewrite Nat.sub_diag.
Qed.

Lemma getSlices_lookup_Some (c : Composer) (i l : nat) (lattice : Lattice) :
  Forall (fun l => (l < length (store c))%nat) (qubit_patch_slices c) ->
  qubit_patch_slices c !! i = Some l ->
  store c !! l = Some lattice ->
  getSlices c !! i = Some lattice.
Proof.
  intros Hall Hi Hl. pose proof (getSlices_lookup c Hall) as H2.
  destruct (Forall2_lookup_l _ _ _ _ _ H2 Hi) as (x & Hx & Hlx).
  congruence.
Qed.

Lemma getSlices_length (c : Composer) :
  Forall (fun l => (l < length (store c))%nat) (qubit_patch_slices c) ->
  length (getSlices c) = length (qubit_patch_slices c).
Proof. intros Hall. symmetry. eapply Forall2_length, getSlices_lookup, Hall. Qed.

Lemma getSlices_last (c : Composer) (l : nat) (lattice : Lattice) :
  Forall (fun l => (l < length (store c))%nat) (qubit_patch_slices c) ->
  last (qubit_patch_slices c) = Some l ->
  store c !! l = Some lattice ->
  last (getSlices c) = Some lattice.
Proof.
  intros Hall Hlast Hl. rewrite last_lookup in Hlast. rewrite last_lookup.
  rewrite (getSlices_length c Hall).
  eapply getSlices_lookup_Some; [exact Hall|exact Hlast|exact Hl].
Qed.

(** ** The invariant of the composer *)

Lemma wf_init (lattice : Lattice) : wf (init lattice).
Proof. split; [done|]. repeat constructor. Qed.

Lemma wf_initQubit (c : Composer) : wf c -> wf (fst (initQubit c)).
Proof.
  intros Hwf. destruct (wf_last_slice c Hwf) as (l & lattice & H1 & H2 & H3).
  unfold initQubit. rewrite H1. destruct Hwf as [Hne Hall]. split; simpl.
  - by destruct (qubit_patch_slices c).
  - apply Forall_app. split; [exact Hall|]. constructor; [|constructor].
    by eapply lookup_lt_Some.
Qed.

Lemma wf_newTimeSlice (c : Composer) : wf c -> wf (fst (newTimeSlice c)).
Proof.
  intros Hwf. destruct (wf_last_slice c Hwf) as (l & lattice & H1 & H2 & H3).
  unfold newTimeSlice. rewrite H1, H3. destruct Hwf as [Hne Hall]. split; simpl.
  - by destruct (qubit_patch_slices c).
  - rewrite length_app. simpl. apply Forall_app. split.
    + eapply Forall_impl; [exact Hall|]. simpl. intros. lia.
    + constructor; [lia|constructor].
Qed.

Lemma wf_on_last_slice (f : Lattice -> outcome) (c : Composer) :
  wf c -> wf (fst (on_last_slice f c)).
Proof.
  intros Hwf. destruct (on_last_slice_wf f c Hwf) as (l & lattice & _ & _ & ->).
  destruct Hwf as [Hne Hall]. split; simpl; [exact Hne|].
  by rewrite length_insert.
Qed.

Lemma wf_apply_mutation (search : path_search) (c : Composer) (mu : mutation) :
  wf c -> wf (fst (apply_mutation search c mu)).
Proof. rewrite apply_mutation_on_last_slice. apply wf_on_last_slice. Qed.

(** Every composer a program can build satisfies the invariant. *)
Lemma reachable_wf (search : path_search) (c : Composer) :
  reachable search c -> wf c.
Proof.
  induction 1 as [lattice|c _ IH|c _ IH|c mu _ IH].
  - apply wf_init.
  - by apply wf_initQubit.
  - by apply wf_newTimeSlice.
  - by apply wf_apply_mutation.
Qed.

(** ** Snapshot isolation *)

(** C5: on a composer with a non-empty history, [newTimeSlice] appends a
    copy of the last snapshot held in a fresh lattice object, referenced by no
    earlier slice; whatever sequence of [measureMultiPatch], [clearAncilla]
    and [clearLattice] follows, the earlier snapshots, the former last one
    included, read exactly as before. *)
Theorem newTimeSlice_snapshot_isolation (search : path_search) (c : Composer)
    (mus : list mutation) :
  wf c ->
  exists last_snapshot,
    last (getSlices c) = Some last_snapshot
    ∧ snd (newTimeSlice c) = None
    ∧ getSlices (fst (newTimeSlice c)) = getSlices c ++ [last_snapshot]
    ∧ last (qubit_patch_slices (fst (newTimeSlice c))) = Some (length (store c))
    ∧ (length (store c) ∉ qubit_patch_slices c)
    ∧ take (length (getSlices c))
        (getSlices (apply_mutations search (fst (newTimeSlice c)) mus))
      = getSlices c.
Proof.
  intros Hwf. destruct (wf_last_slice c Hwf) as (l & lattice & H1 & H2 & H3).
  destruct Hwf as [Hne Hall]. destruct c as [st ls]. simpl in *.
  exists lattice. unfold newTimeSlice. rewrite H1. simpl store. rewrite H3.
  simpl fst. simpl snd. repeat split.
  - by eapply getSlices_last.
  - by apply getSlices_extend.
  - simpl. by rewrite last_snoc.
  - intros Hin. rewrite Forall_forall in Hall. specialize (Hall _ Hin). lia.
  - destruct (apply_mutations_fresh search st ls mus lattice) as [lattice' ->].
    rewrite getSlices_extend by exact Hall. by rewrite take_app_length.
Qed.

Lemma newTimeSlice_snapshot_isolation_witness :
  exists last_snapshot,
    last (getSlices (init scenario_A_lattice)) = Some last_snapshot
    ∧ snd (newTimeSlice (init scenario_A_lattice)) = None
    ∧ getSlices (fst (newTimeSlice (init scenario_A_lattice)))
      = getSlices (init scenario_A_lattice) ++ [last_snapshot]
    ∧ last (qubit_patch_slices (fst (newTimeSlice (init scenario_A_lattice))))
      = Some (length (store (init scenario_A_lattice)))
    ∧ (length (store (init scenario_A_lattice))
       ∉ qubit_patch_slices (init scenario_A_lattice))
    ∧ take (length (getSlices (init scenario_A_lattice)))
        (getSlices (apply_mutations igraph.get_shortest_paths
                      (fst (newTimeSlice (init scenario_A_lattice)))
                      [MeasureMultiPatch scenario_A_request; ClearAncilla; ClearLattice]))
      = getSlices (init scenario_A_lattice).
Proof.
  apply (newTimeSlice_snapshot_isolation igraph.get_shortest_paths
           (init scenario_A_lattice)
           [MeasureMultiPatch scenario_A_request; ClearAncilla; ClearLattice]).
  split; [discriminate|]. repeat constructor.
Defined.

(** C10: [initQubit] appends the reference to the last lattice object, not a
    copy: the last two slices are one object, and after any mutation of the
    latest slice the previous slice shows the mutated lattice as well. *)
Theorem initQubit_shares_last_slice (search : path_search) (c : Composer)
    (mu : mutation) :
  wf c ->
  exists l lattice,
    last (qubit_patch_slices c) = Some l
    ∧ store c !! l = Some lattice
    ∧ initQubit c =
        ({| store := store c; qubit_patch_slices := qubit_patch_slices c ++ [l] |}, None)
    ∧ getSlices (fst (initQubit c)) = getSlices c ++ [lattice]
    ∧ let c' := fst (apply_mutation search (fst (initQubit c)) mu) in
      let n := length (qubit_patch_slices c) in
      getSlices c' !! Nat.pred n = Some (lattice_of (effect search mu lattice))
      ∧ getSlices c' !! n = Some (lattice_of (effect search mu lattice)).
Proof.
  intros Hwf. destruct (wf_last_slice c Hwf) as (l & lattice & H1 & H2 & H3).
  destruct Hwf as [Hne Hall]. destruct c as [st ls]. simpl in *.
  exists l, lattice. unfold initQubit. rewrite H1. simpl.
  assert (Hlt : (l < length st)%nat) by (by eapply lookup_lt_Some).
  split; [exact H2|]. split; [exact H3|]. split; [reflexivity|]. split.
  { unfold getSlices. simpl. rewrite omap_app. simpl. by rewrite H3. }
  rewrite apply_mutation_on_last_slice. unfold on_last_slice, last_slice.
  rewrite py_index_last. simpl qubit_patch_slices. rewrite last_snoc.
  simpl store. rewrite H3. simpl fst.
  assert (Hall' : Forall (fun l0 => (l0 < length (<[l := lattice_of (effect search mu lattice)]> st))%nat)
                   (ls ++ [l])).
  { rewrite length_insert. apply Forall_app. split; [exact Hall|]. by constructor. }
  split.
  - eapply getSlices_lookup_Some; simpl; [exact Hall'| |].
    + rewrite lookup_app_l by (destruct ls; [done|simpl; lia]).
      by rewrite <- last_lookup.
    + by apply list_lookup_insert_eq.
  - eapply getSlices_lookup_Some; simpl; [exact Hall'| |].
    + rewrite lookup_app_r by lia. by rewrite Nat.sub_diag.
    + by apply list_lookup_insert_eq.
Qed.

Lemma initQubit_shares_last_slice_witness :
  exists l lattice,
    last (qubit_patch_slices (init pair_lattice)) = Some l
    ∧ store (init pair_lattice) !! l = Some lattice
    ∧ initQubit (init pair_lattice) =
        ({| store := store (init pair_lattice);
            qubit_patch_slices := qubit_patch_slices (init pair_lattice) ++ [l] |}, None)
    ∧ getSlices (fst (initQubit (init pair_lattice)))
      = getSlices (init pair_lattice) ++ [lattice]
    ∧ let c' := fst (apply_mutation igraph.get_shortest_paths
                       (fst (initQubit (init pair_lattice))) ClearLattice) in
      let n := length (qubit_patch_slices (init pair_lattice)) in
      getSlices c' !! Nat.pred n
      = Some (lattice_of (effect igraph.get_shortest_paths ClearLattice lattice))
      ∧ getSlices c' !! n
        = Some (lattice_of (effect igraph.get_shortest_paths ClearLattice lattice)).
Proof.
  apply (initQubit_shares_last_slice igraph.get_shortest_paths
           (init pair_lattice) ClearLattice).
  split; [discriminate|]. repeat constructor.
Defined.

(** After [initQubit], clearing the latest slice empties the slice before it
    too. *)
Example initQubit_no_isolation :
  getSlices (fst (initQubit (init pair_lattice))) = [pair_lattice; pair_lattice]
  ∧ getSlices (fst (clearLattice (fst (initQubit (init pair_lattice)))))
    = [clear pair_lattice; clear pair_lattice]
  ∧ clear pair_lattice ≠ pair_lattice.
Proof. split; [reflexivity|]. split; [reflexivity|]. discriminate. Qed.

(** ** Clearing the ancilla *)

Lemma clear_ancilla_idemp (lattice : Lattice) :
  clear_ancilla (clear_ancilla lattice) = clear_ancilla lattice.
Proof.
  unfold clear_ancilla, set_patches; simpl. f_equal.
  induction (patches lattice) as [|p ps IH]; [reflexivity|].
  simpl map. rewrite filter_cons. destruct (decide _) as [Hp|Hp].
  - simpl map. rewrite filter_cons, unstitch_patch_idemp.
    rewrite decide_True by exact Hp. by rewrite IH.
  - exact IH.
Qed.

Lemma clear_ancilla_complete (lattice : Lattice) :
  Forall (fun p => patch_type p ≠ Ancilla
                   ∧ Forall (fun e => isStiched e = false) (edges p))
    (patches (clear_ancilla lattice)).
Proof.
  apply Forall_forall. intros p Hp. simpl in Hp.
  apply list_elem_of_filter in Hp as [Hty Hp].
  apply list_elem_of_fmap in Hp as (q & -> & _).
  split; [exact Hty|]. simpl.
  apply Forall_forall. intros e He.
  apply list_elem_of_fmap in He as (e' & -> & _).
  apply unstitch_not_stitched.
Qed.

(** C8: on a composer with a non-empty history a second [clearAncilla]
    changes nothing, and after one call the last snapshot has no patch of kind
    Ancilla and no border of a stitched type. *)
Theorem clearAncilla_idempotent_complete (c : Composer) :
  wf c ->
  fst (clearAncilla (fst (clearAncilla c))) = fst (clearAncilla c)
  ∧ snd (clearAncilla c) = None
  ∧ exists lattice,
      last (getSlices (fst (clearAncilla c))) = Some lattice
      ∧ Forall (fun p => patch_type p ≠ Ancilla
                         ∧ Forall (fun e => border_type e ≠ SolidStiched
                                            ∧ border_type e ≠ DashedStiched) (edges p))
          (patches lattice).
Proof.
  intros Hwf. destruct (wf_last_slice c Hwf) as (l & lattice & H1 & H2 & H3).
  destruct Hwf as [Hne Hall]. destruct c as [st ls]. simpl in *.
  assert (Hlt : (l < length st)%nat) by (by eapply lookup_lt_Some).
  unfold clearAncilla, on_last_slice. rewrite H1. simpl store. rewrite H3.
  simpl fst. simpl snd. unfold last_slice in *. simpl qubit_patch_slices in *.
  rewrite H1. simpl store. rewrite list_lookup_insert_eq by exact Hlt.
  simpl. split; [|split; [reflexivity|]].
  - by rewrite list_insert_insert_eq, clear_ancilla_idemp.
  - exists (clear_ancilla lattice). split.
    + eapply getSlices_last; simpl.
      * by rewrite length_insert.
      * exact H2.
      * by apply list_lookup_insert_eq.
    + eapply Forall_impl; [apply clear_ancilla_complete|].
      intros p [Hty Hes]. split; [exact Hty|].
      eapply Forall_impl; [exact Hes|]. intros [[] ? ?]; simpl; done.
Qed.

Lemma clearAncilla_idempotent_complete_witness :
  fst (clearAncilla (fst (clearAncilla (init stitched_lattice))))
  = fst (clearAncilla (init stitched_lattice))
  ∧ snd (clearAncilla (init stitched_lattice)) = None
  ∧ exists lattice,
      last (getSlices (fst (clearAncilla (init stitched_lattice)))) = Some lattice
      ∧ Forall (fun p => patch_type p ≠ Ancilla
                         ∧ Forall (fun e => border_type e ≠ SolidStiched
                                            ∧ border_type e ≠ DashedStiched) (edges p))
          (patches lattice).
Proof.
  apply (clearAncilla_idempotent_complete (init stitched_lattice)).
  split; [discriminate|]. repeat constructor.
Defined.

(** ** The path search: every path returned is a walk *)

Lemma mapM_Ok {A B} (f : A -> result B) (l : list A) (l' : list B) :
  mapM f l = Ok l' -> Forall2 (fun a b => f a = Ok b) l l'.
Proof.
  revert l'. induction l as [|a l IH]; intros l' H; simpl in H.
  - injection H as <-. constructor.
  - destruct (f a) as [b|] eqn:Hb; [|discriminate]. simpl in H.
    destruct (mapM f l) as [bs|]; [|discriminate]. simpl in H.
    injection H as <-. constructor; [exact Hb|by apply IH].
Qed.

Lemma neighbors_all_adjacent (g : igraph.Graph) (act nb : nat) :
  nb ∈ igraph.neighbors_all g act -> adjacent g act nb.
Proof.
  unfold igraph.neighbors_all, adjacent. intros H.
  apply elem_of_app in H as [H|H]; apply list_elem_of_filter in H as [H _]; auto.
Qed.

Lemma visit_parents_adjacent (g : igraph.Graph) (from act nb : nat)
    (q : list nat) (parent : list (option nat)) :
  adjacent g act nb ->
  parents_adjacent g from parent ->
  parents_adjacent g from (snd (igraph.visit act (q, parent) nb)).
Proof.
  intros Hadj Hinv. unfold igraph.visit.
  destruct (parent !! nb) as [[p|]|] eqn:Hnb; simpl; try exact Hinv.
  intros v p Hv. destruct (decide (v = nb)) as [->|Hne].
  - rewrite list_lookup_insert_eq in Hv by (by eapply lookup_lt_Some).
    injection Hv as <-. by right.
  - rewrite list_lookup_insert_ne in Hv by done. by apply Hinv.
Qed.

Lemma fold_visit_parents_adjacent (g : igraph.Graph) (from act : nat)
    (nbs : list nat) (st : list nat * list (option nat)) :
  Forall (adjacent g act) nbs ->
  parents_adjacent g from (snd st) ->
  parents_adjacent g from (snd (fold_left (igraph.visit act) nbs st)).
Proof.
  intros Hall. revert st. induction Hall as [|nb nbs Hnb _ IH]; intros st Hinv.
  - exact Hinv.
  - simpl. apply IH. destruct st as [q parent].
    by apply visit_parents_adjacent.
Qed.

Lemma bfs_parents_adjacent (g : igraph.Graph) (from fuel : nat) (q : list nat)
    (parent : list (option nat)) :
  parents_adjacent g from parent ->
  parents_adjacent g from (igraph.bfs fuel g q parent).
Proof.
  revert q parent. induction fuel as [|fuel IH]; intros q parent Hinv.
  - by destruct q.
  - destruct q as [|act q']; [exact Hinv|]. simpl.
    pose proof (fold_visit_parents_adjacent g from act (igraph.neighbors_all g act)
                  (q', parent)) as H.
    destruct (fold_left (igraph.visit act) (igraph.neighbors_all g act) (q', parent))
      as [q'' parent'].
    apply IH, H; [|exact Hinv].
    apply Forall_forall. intros nb. apply neighbors_all_adjacent.
Qed.

Lemma initial_parents_adjacent (g : igraph.Graph) (from n : nat) :
  parents_adjacent g from (<[from := Some from]> (replicate n None)).
Proof.
  intros v p Hv. destruct (decide (v = from)) as [->|Hne]; [by left|].
  rewrite list_lookup_insert_ne in Hv by done.
  apply lookup_replicate in Hv as [Hv _]. discriminate.
Qed.

Lemma walk_snoc (g : igraph.Graph) (chain : list nat) (u v : nat) :
  walk g chain -> last chain = Some u -> adjacent g u v -> walk g (chain ++ [v]).
Proof.
  induction chain as [|a chain IH]; intros Hw Hl Hadj; [discriminate|].
  destruct chain as [|b chain].
  - simpl in Hl. injection Hl as ->. simpl. auto.
  - destruct Hw as [Hab Hw]. split; [exact Hab|]. apply IH; auto.
Qed.

Lemma path_back_walk (g : igraph.Graph) (parent : list (option nat)) (from : nat)
    (fuel v : nat) (acc p : list nat) :
  parents_adjacent g from parent ->
  igraph.path_back fuel parent from v acc = p ->
  p ≠ [] ->
  exists chain,
    p = chain ++ acc ∧ head chain = Some from ∧ last chain = Some v ∧ walk g chain.
Proof.
  intros Hinv. revert v acc p. induction fuel as [|fuel IH]; intros v acc p Hp Hne.
  - simpl in Hp. congruence.
  - simpl in Hp. destruct (decide (v = from)) as [->|Hv].
    + exists [from]. subst p. by repeat split.
    + destruct (parent !! v) as [[u|]|] eqn:Hu; try congruence.
      destruct (IH u (v :: acc) p Hp Hne) as (chain & -> & Hh & Hl & Hw).
      exists (chain ++ [v]). rewrite <- app_assoc. split; [reflexivity|].
      split; [by destruct chain|]. split; [by rewrite last_snoc|].
      destruct (Hinv v u Hu) as [?|Hadj]; [done|].
      by eapply walk_snoc.
Qed.

Lemma searched_path_walk (g : igraph.Graph) (from t : nat) (p : list nat) :
  igraph.path_back (S (igraph.vcount g))
    (igraph.bfs (igraph.vcount g) g [from]
       (<[from := Some from]> (replicate (igraph.vcount g) None))) from t [] = p ->
  p ≠ [] ->
  head p = Some from ∧ last p = Some t ∧ walk g p.
Proof.
  intros Hp Hne.
  destruct (path_back_walk g _ from _ t [] p
              (bfs_parents_adjacent g from _ _ _ (initial_parents_adjacent g from _))
              Hp Hne) as (chain & Hc & Hh & Hl & Hw).
  rewrite app_nil_r in Hc. by subst chain.
Qed.

(** Every non-empty path the search returns starts at the source, ends at its
    target and follows edges of the graph, in either direction. *)
Lemma get_shortest_paths_sound (g : igraph.Graph) (v : string) (to : list string)
    (paths : list (list nat)) :
  igraph.get_shortest_paths g v to = Ok paths ->
  exists from,
    igraph.vertex_id g v = Ok from
    ∧ Forall2 (fun name path =>
                 path ≠ [] ->
                 exists t, igraph.vertex_id g name = Ok t
                           ∧ head path = Some from ∧ last path = Some t
                           ∧ walk g path) to paths.
Proof.
  unfold igraph.get_shortest_paths. intros H.
  destruct (igraph.vertex_id g v) as [from|]; [|discriminate].
  unfold mbind, result_bind in H.
  destruct (mapM (igraph.vertex_id g) to) as [targets|] eqn:Ht; [|discriminate].
  inversion H as [Hpaths]. clear H Hpaths. exists from. split; [reflexivity|].
  apply mapM_Ok in Ht. apply Forall2_fmap_r.
  eapply Forall2_impl; [exact Ht|]. intros name t Hname Hne.
  exists t. split; [exact Hname|]. by apply searched_path_walk.
Qed.

(** ** The path search: whatever a walk reaches is reached *)

Lemma search_inv_lt (g : igraph.Graph) (from : nat) (order : list nat)
    (parent : list (option nat)) (v : nat) :
  search_inv g from order parent -> v ∈ order -> (v < igraph.vcount g)%nat.
Proof.
  intros Hinv Hv. apply (inv_discovered _ _ _ _ Hinv) in Hv as [p Hp].
  rewrite <- (inv_length _ _ _ _ Hinv). by eapply lookup_lt_Some.
Qed.

Lemma neighbors_all_complete (g : igraph.Graph) (u v : nat) :
  adjacent g u v -> (v < igraph.vcount g)%nat -> v ∈ igraph.neighbors_all g u.
Proof.
  intros Hadj Hv. unfold igraph.neighbors_all. apply elem_of_app.
  destruct Hadj as [H|H]; [left|right]; apply list_elem_of_filter;
    (split; [exact H|]); apply elem_of_seq; lia.
Qed.

Lemma neighbors_all_lt (g : igraph.Graph) (u v : nat) :
  v ∈ igraph.neighbors_all g u -> (v < igraph.vcount g)%nat.
Proof.
  unfold igraph.neighbors_all. intros H.
  apply elem_of_app in H as [H|H]; apply list_elem_of_filter in H as [_ H];
    apply elem_of_seq in H; lia.
Qed.

Lemma visit_inv (g : igraph.Graph) (from act nb : nat) (order q : list nat)
    (parent : list (option nat)) :
  search_inv g from order parent ->
  act ∈ order ->
  (nb < igraph.vcount g)%nat ->
  exists new,
    fst (igraph.visit act (q, parent) nb) = q ++ new
    ∧ search_inv g from (order ++ new) (snd (igraph.visit act (q, parent) nb))
    ∧ nb ∈ order ++ new.
Proof.
  intros Hinv Hact Hnb. unfold igraph.visit.
  destruct (parent !! nb) as [[p|]|] eqn:Hp; simpl.
  - exists []. rewrite !app_nil_r. split; [reflexivity|]. split; [exact Hinv|].
    apply (inv_discovered _ _ _ _ Hinv). by exists p.
  - exists [nb]. split; [reflexivity|].
    assert (Hfresh : nb ∉ order).
    { intros Hin. apply (inv_discovered _ _ _ _ Hinv) in Hin as [p' Hp']. congruence. }
    split; [|apply elem_of_app; right; apply list_elem_of_here].
    constructor.
    + rewrite length_insert. apply (inv_length _ _ _ _ Hinv).
    + apply NoDup_app. split; [apply (inv_nodup _ _ _ _ Hinv)|].
      split; [|apply NoDup_singleton].
      intros x Hx Hx'. apply list_elem_of_singleton in Hx'. by subst x.
    + intros v. rewrite elem_of_app, list_elem_of_singleton. unfold discovered.
      destruct (decide (v = nb)) as [->|Hne].
      * rewrite list_lookup_insert_eq by (by eapply lookup_lt_Some).
        split; [by exists act|by right].
      * rewrite list_lookup_insert_ne by done.
        rewrite (inv_discovered _ _ _ _ Hinv v). unfold discovered.
        split; [by intros [?|?]|by left].
    + pose proof (inv_head _ _ _ _ Hinv) as Hh. by destruct order.
    + intros v p Hv. destruct (decide (v = nb)) as [->|Hne].
      * rewrite list_lookup_insert_eq in Hv by (by eapply lookup_lt_Some).
        injection Hv as <-. right.
        apply list_elem_of_lookup in Hact as [i Hi].
        exists i, (length order). split; [by apply lookup_app_l_Some|].
        split; [|by eapply lookup_lt_Some].
        rewrite lookup_app_r by lia. by rewrite Nat.sub_diag.
      * rewrite list_lookup_insert_ne in Hv by done.
        destruct (inv_earlier _ _ _ _ Hinv v p Hv) as [?|(i & j & Hi & Hj & Hij)];
          [by left|right].
        exists i, j. split; [by apply lookup_app_l_Some|].
        split; [by apply lookup_app_l_Some|done].
  - apply lookup_ge_None in Hp. rewrite (inv_length _ _ _ _ Hinv) in Hp. lia.
Qed.

Lemma fold_visit_inv (g : igraph.Graph) (from act : nat) (nbs : list nat)
    (order q : list nat) (parent : list (option nat)) :
  search_inv g from order parent ->
  act ∈ order ->
  Forall (fun nb => (nb < igraph.vcount g)%nat) nbs ->
  exists new,
    fst (fold_left (igraph.visit act) nbs (q, parent)) = q ++ new
    ∧ search_inv g from (order ++ new)
        (snd (fold_left (igraph.visit act) nbs (q, parent)))
    ∧ forall nb, nb ∈ nbs -> nb ∈ order ++ new.
Proof.
  intros Hinv Hact Hall. revert order q parent Hinv Hact.
  induction Hall as [|nb nbs Hnb _ IH]; intros order q parent Hinv Hact.
  - exists []. rewrite !app_nil_r. split; [reflexivity|]. split; [exact Hinv|].
    intros nb Hnb. by apply elem_of_nil in Hnb.
  - cbn [fold_left].
    destruct (visit_inv g from act nb order q parent Hinv Hact Hnb)
      as (new1 & Hq1 & Hinv1 & Hnb1).
    destruct (igraph.visit act (q, parent) nb) as [q1 parent1]. simpl in *. subst q1.
    destruct (IH (order ++ new1) (q ++ new1) parent1 Hinv1) as (new2 & Hq2 & Hinv2 & Hnbs2).
    { apply elem_of_app. by left. }
    exists (new1 ++ new2). split; [rewrite Hq2; by rewrite app_assoc|].
    split; [by rewrite app_assoc|]. intros x Hx. rewrite app_assoc.
    apply elem_of_cons in Hx as [->|Hx].
    + apply elem_of_app. by left.
    + by apply Hnbs2.
Qed.

Lemma nodup_lt_length (l : list nat) (n : nat) :
  NoDup l -> Forall (fun x => (x < n)%nat) l -> (length l <= n)%nat.
Proof.
  intros Hnd Hall. replace n with (length (seq 0 n)) by apply length_seq.
  apply submseteq_length.
  apply NoDup_submseteq; [exact Hnd|]. intros x Hx.
  rewrite Forall_forall in Hall. apply elem_of_seq. specialize (Hall x Hx). lia.
Qed.

Lemma bfs_inv (g : igraph.Graph) (from fuel : nat) (done q : list nat)
    (parent : list (option nat)) :
  search_inv g from (done ++ q) parent ->
  closed g done (done ++ q) ->
  (length done + fuel = igraph.vcount g)%nat ->
  exists done',
    search_inv g from done' (igraph.bfs fuel g q parent) ∧ closed g done' done'.
Proof.
  revert done q parent. induction fuel as [|fuel IH]; intros done q parent Hinv Hcl Hlen.
  - assert (q = []) as ->.
    { assert (length (done ++ q) <= igraph.vcount g)%nat as Hle.
      { apply nodup_lt_length; [apply (inv_nodup _ _ _ _ Hinv)|].
        apply Forall_forall. intros x Hx. by eapply search_inv_lt. }
      rewrite length_app in Hle. destruct q; [done|simpl in Hle; lia]. }
    rewrite app_nil_r in *. by exists done.
  - destruct q as [|act q'].
    { rewrite app_nil_r in *. by exists done. }
    simpl igraph.bfs.
    assert (Hact : act ∈ done ++ act :: q').
    { apply elem_of_app. right. apply list_elem_of_here. }
    destruct (fold_visit_inv g from act (igraph.neighbors_all g act)
                (done ++ act :: q') q' parent Hinv Hact)
      as (new & Hq & Hinv' & Hnbs).
    { apply Forall_forall. intros nb. apply neighbors_all_lt. }
    destruct (fold_left (igraph.visit act) (igraph.neighbors_all g act) (q', parent))
      as [q'' parent'']. simpl in *. subst q''.
    apply (IH (done ++ [act]) (q' ++ new) parent'').
    + by rewrite <- !app_assoc in *.
    + replace ((done ++ [act]) ++ q' ++ new) with ((done ++ act :: q') ++ new)
        by (by rewrite <- !app_assoc).
      intros u v Hu Hadj Hv. apply elem_of_app in Hu as [Hu|Hu].
      * apply elem_of_app. left. by eapply Hcl.
      * apply list_elem_of_singleton in Hu as ->.
        by apply Hnbs, neighbors_all_complete.
    + rewrite length_app. simpl. lia.
Qed.

Lemma initial_search_inv (g : igraph.Graph) (from : nat) :
  (from < igraph.vcount g)%nat ->
  search_inv g from [from] (<[from := Some from]> (replicate (igraph.vcount g) None)).
Proof.
  intros Hlt. constructor.
  - by rewrite length_insert, length_replicate.
  - apply NoDup_singleton.
  - intros v. rewrite list_elem_of_singleton. unfold discovered.
    destruct (decide (v = from)) as [->|Hne].
    + rewrite list_lookup_insert_eq by (by rewrite length_replicate). naive_solver.
    + rewrite list_lookup_insert_ne by done. split; [done|].
      intros [p Hp]. apply lookup_replicate in Hp as [Hp _]. discriminate.
  - reflexivity.
  - intros v p Hv. destruct (decide (v = from)) as [->|Hne]; [by left|].
    rewrite list_lookup_insert_ne in Hv by done.
    apply lookup_replicate in Hv as [Hv _]. discriminate.
Qed.

Lemma walk_discovered (g : igraph.Graph) (done : list nat) (p : list nat) (u : nat) :
  closed g done done ->
  walk g p ->
  Forall (fun v => (v < igraph.vcount g)%nat) p ->
  head p = Some u ->
  u ∈ done ->
  Forall (fun v => v ∈ done) p.
Proof.
  intros Hcl. revert u. induction p as [|a p IH]; intros u Hw Hlt Hh Hu; [constructor|].
  simpl in Hh. injection Hh as ->. constructor; [exact Hu|].
  destruct p as [|b p]; [constructor|]. destruct Hw as [Hab Hw].
  apply Forall_cons in Hlt as [_ Hlt].
  apply (IH b); [exact Hw|exact Hlt|reflexivity|].
  apply Forall_cons in Hlt as [Hb _]. by eapply Hcl.
Qed.

Lemma path_back_nonempty (g : igraph.Graph) (from : nat) (order : list nat)
    (parent : list (option nat)) :
  search_inv g from order parent ->
  forall j v fuel acc,
    order !! j = Some v -> (j < fuel)%nat ->
    igraph.path_back fuel parent from v acc ≠ [].
Proof.
  intros Hinv j. induction j as [j IH] using lt_wf_ind.
  intros v fuel acc Hj Hfuel. destruct fuel as [|fuel]; [lia|]. simpl.
  destruct (decide (v = from)) as [->|Hne]; [done|].
  assert (Hv : v ∈ order) by (by eapply list_elem_of_lookup_2).
  apply (inv_discovered _ _ _ _ Hinv) in Hv as [p Hp]. rewrite Hp.
  destruct (inv_earlier _ _ _ _ Hinv v p Hp) as [?|(i & j' & Hi & Hj' & Hij)]; [done|].
  assert (j' = j) as -> by (eapply NoDup_lookup; [apply (inv_nodup _ _ _ _ Hinv)|exact Hj'|exact Hj]).
  apply (IH i Hij p fuel (v :: acc) Hi). lia.
Qed.

Lemma vertex_id_lt (g : igraph.Graph) (name : string) (v : nat) :
  igraph.vertex_id g name = Ok v -> (v < igraph.vcount g)%nat.
Proof.
  unfold igraph.vertex_id. destruct (list_find _ _) as [[i x]|] eqn:Hf; [|discriminate].
  intros [= <-]. apply list_find_Some in Hf as (Hi & _). by eapply lookup_lt_Some.
Qed.

Lemma searched_path_nonempty (g : igraph.Graph) (from t : nat) (p : list nat) :
  (from < igraph.vcount g)%nat ->
  walk g p ->
  Forall (fun v => (v < igraph.vcount g)%nat) p ->
  head p = Some from ->
  last p = Some t ->
  igraph.path_back (S (igraph.vcount g))
    (igraph.bfs (igraph.vcount g) g [from]
       (<[from := Some from]> (replicate (igraph.vcount g) None))) from t [] ≠ [].
Proof.
  intros Hfrom Hw Hlt Hh Hl.
  destruct (bfs_inv g from (igraph.vcount g) [] [from] _ (initial_search_inv g from Hfrom))
    as (done & Hinv & Hcl).
  { intros u v Hu. by apply elem_of_nil in Hu. }
  { reflexivity. }
  assert (Hfd : from ∈ done).
  { pose proof (inv_head _ _ _ _ Hinv) as H. destruct done; [discriminate|].
    injection H as ->. apply list_elem_of_here. }
  pose proof (walk_discovered g done p from Hcl Hw Hlt Hh Hfd) as Hall.
  assert (Ht : t ∈ done).
  { rewrite Forall_forall in Hall. apply Hall. rewrite last_lookup in Hl.
    by eapply list_elem_of_lookup_2. }
  apply list_elem_of_lookup in Ht as [j Hj].
  eapply path_back_nonempty; [exact Hinv|exact Hj|].
  assert (length done <= igraph.vcount g)%nat; [|apply lookup_lt_Some in Hj; lia].
  apply nodup_lt_length; [apply (inv_nodup _ _ _ _ Hinv)|].
  apply Forall_forall. intros x Hx. by eapply search_inv_lt.
Qed.

(** A target that some walk from the source reaches gets a non-empty path:
    the search and the reading of the path never run out of fuel. *)
Lemma get_shortest_paths_complete (g : igraph.Graph) (v : string) (to : list string)
    (paths : list (list nat)) :
  igraph.get_shortest_paths g v to = Ok paths ->
  exists from,
    igraph.vertex_id g v = Ok from
    ∧ Forall2 (fun name path =>
                 forall t p,
                   igraph.vertex_id g name = Ok t ->
                   walk g p ->
                   Forall (fun u => (u < igraph.vcount g)%nat) p ->
                   head p = Some from -> last p = Some t ->
                   path ≠ []) to paths.
Proof.
  unfold igraph.get_shortest_paths. intros H.
  destruct (igraph.vertex_id g v) as [from|] eqn:Hv; [|discriminate].
  unfold mbind, result_bind in H.
  destruct (mapM (igraph.vertex_id g) to) as [targets|] eqn:Ht; [|discriminate].
  inversion H as [Hpaths]. clear H Hpaths. exists from. split; [reflexivity|].
  apply mapM_Ok in Ht. apply Forall2_fmap_r.
  eapply Forall2_impl; [exact Ht|]. intros name t Hname t' p Hname' Hw Hlt Hh Hl.
  assert (t' = t) as -> by congruence.
  apply (searched_path_nonempty g from t p); try done. by eapply vertex_id_lt.
Qed.

(** A walk between two different vertices enters its end over an edge. *)
Lemma walk_enters (g : igraph.Graph) (p : list nat) (s t : nat) :
  walk g p -> head p = Some s -> last p = Some t -> s ≠ t ->
  exists u, adjacent g u t.
Proof.
  revert s. induction p as [|a p IH]; intros s Hw Hh Hl Hne; [discriminate|].
  simpl in Hh. injection Hh as ->.
  destruct p as [|b p]; [simpl in Hl; congruence|].
  destruct Hw as [Hab Hw]. destruct (decide (b = t)) as [->|Hbt].
  - by exists s.
  - by apply (IH b).
Qed.

(** ** The path search: what any search may answer

    The paths that a search may return are enumerated, so that a statement
    about a layout can be checked for every one of them. *)

Lemma compute_ancilla_cells_finish (search : path_search) (lattice : Lattice)
    (m : OperatorMap) (g : igraph.Graph) (source : string) (targets : list string)
    (raw : list (list nat)) :
  search_graph lattice m = Ok (g, source, targets) ->
  search g source targets = Ok raw ->
  compute_ancilla_cells search lattice m = finish g lattice raw.
Proof.
  intros Hg Hraw. unfold compute_ancilla_cells, route, finish.
  rewrite Hg. unfold mbind at 1. unfold result_bind at 1. rewrite Hraw.
  reflexivity.
Qed.

Lemma simple_walk_loop (g : igraph.Graph) (u : nat) (p : list nat) :
  NoDup p -> head p = Some u -> last p = Some u -> p = [u].
Proof.
  intros Hnd Hh Hl. destruct p as [|a rest]; [discriminate|].
  simpl in Hh. injection Hh as ->. destruct rest as [|b rest]; [reflexivity|].
  exfalso. apply NoDup_cons in Hnd as [Hnotin _]. apply Hnotin.
  rewrite last_lookup in Hl. simpl in Hl. by eapply list_elem_of_lookup_2.
Qed.

Lemma simple_paths_complete (g : igraph.Graph) (t : nat) (fuel : nat) :
  forall visited u p,
    walk g p -> NoDup p ->
    Forall (fun v => (v < igraph.vcount g)%nat) p ->
    head p = Some u -> last p = Some t ->
    (forall x, x ∈ p -> x ∉ visited) ->
    (length p <= fuel)%nat ->
    p ∈ simple_paths fuel g visited u t.
Proof.
  induction fuel as [|fuel IH]; intros visited u p Hw Hnd Hlt Hh Hl Hdis Hlen.
  - destruct p; [discriminate|simpl in Hlen; lia].
  - simpl. destruct (decide (u = t)) as [->|Hut].
    + rewrite (simple_walk_loop g t p Hnd Hh Hl). apply list_elem_of_here.
    + destruct p as [|a rest]; [discriminate|]. simpl in Hh. injection Hh as ->.
      destruct rest as [|v rest]; [simpl in Hl; congruence|].
      destruct Hw as [Huv Hw]. apply NoDup_cons in Hnd as [Hu Hnd].
      apply Forall_cons in Hlt as [_ Hlt].
      apply list_elem_of_In, in_flat_map. exists v. split.
      * apply list_elem_of_In, elem_of_remove_dups.
        apply neighbors_all_complete; [exact Huv|].
        by apply Forall_cons in Hlt as [Hv _].
      * apply list_elem_of_In. rewrite decide_False.
        -- apply list_elem_of_fmap_2. apply IH; try done.
           ++ intros x Hx Hx'. apply elem_of_cons in Hx' as [->|Hx']; [done|].
              eapply Hdis; [|exact Hx']. by apply list_elem_of_further.
           ++ simpl in Hlen |- *. lia.
        -- intros Hv. apply elem_of_cons in Hv as [->|Hv].
           ++ apply Hu, list_elem_of_here.
           ++ eapply Hdis; [|exact Hv]. apply list_elem_of_further, list_elem_of_here.
Qed.

Lemma simple_paths_sound (g : igraph.Graph) (t : nat) (fuel : nat) :
  forall visited u p,
    (u < igraph.vcount g)%nat ->
    u ∉ visited ->
    p ∈ simple_paths fuel g visited u t ->
    walk g p ∧ NoDup p ∧ Forall (fun v => (v < igraph.vcount g)%nat) p
    ∧ head p = Some u ∧ last p = Some t ∧ forall x, x ∈ p -> x ∉ visited.
Proof.
  induction fuel as [|fuel IH]; intros visited u p Hu Hvis Hp.
  - by apply elem_of_nil in Hp.
  - simpl in Hp. destruct (decide (u = t)) as [->|Hut].
    + apply list_elem_of_singleton in Hp as ->. repeat split; try done.
      * apply NoDup_singleton.
      * by constructor.
      * intros x Hx. by apply list_elem_of_singleton in Hx as ->.
    + apply list_elem_of_In, in_flat_map in Hp as (v & Hv & Hp).
      apply list_elem_of_In in Hv, Hp. rewrite elem_of_remove_dups in Hv.
      destruct (decide (v ∈ u :: visited)) as [|Hnv]; [by apply elem_of_nil in Hp|].
      apply list_elem_of_fmap in Hp as (rest & -> & Hrest).
      destruct (IH (u :: visited) v rest (neighbors_all_lt g u v Hv) Hnv Hrest)
        as (Hw & Hnd & Hlt & Hh & Hl & Hdis).
      destruct rest as [|v' rest]; [discriminate|]. simpl in Hh. injection Hh as ->.
      split; [split; [by apply neighbors_all_adjacent|exact Hw]|].
      split.
      { apply NoDup_cons. split; [|exact Hnd]. intros Hin.
        apply (Hdis u Hin), list_elem_of_here. }
      split; [by constructor|]. split; [reflexivity|]. split; [exact Hl|].
      intros x Hx Hx'. apply elem_of_cons in Hx as [->|Hx]; [done|].
      apply (Hdis x Hx). by apply list_elem_of_further.
Qed.

Lemma acceptable_path_answers_for (g : igraph.Graph) (s t : nat) (p : list nat) :
  (s < igraph.vcount g)%nat ->
  acceptable_path g s t p -> p ∈ answers_for g s t.
Proof.
  intros Hs [(Hw & Hnd & Hlt & Hh & Hl)|[-> Hnone]]; unfold answers_for.
  - assert (Hin : p ∈ simple_paths (igraph.vcount g) g [] s t).
    { apply simple_paths_complete; try done.
      - intros x _ Hx. by apply elem_of_nil in Hx.
      - by apply nodup_lt_length. }
    destruct (simple_paths _ g [] s t); [by apply elem_of_nil in Hin|exact Hin].
  - destruct (simple_paths _ g [] s t) as [|q qs] eqn:Hq; [apply list_elem_of_here|].
    exfalso. apply (Hnone q).
    destruct (simple_paths_sound g t (igraph.vcount g) [] s q Hs)
      as (Hw & Hnd & Hlt & Hh & Hl & _).
    + intros Hx. by apply elem_of_nil in Hx.
    + rewrite Hq. apply list_elem_of_here.
    + by repeat split.
Qed.

Lemma acceptable_paths_all_answers (g : igraph.Graph) (s : nat) (ts : list nat)
    (raw : list (list nat)) :
  (s < igraph.vcount g)%nat ->
  Forall2 (acceptable_path g s) ts raw -> raw ∈ all_answers g s ts.
Proof.
  intros Hs Hacc. induction Hacc as [|t p ts raw Hp _ IH]; [apply list_elem_of_here|].
  simpl. apply list_elem_of_In, in_flat_map. exists p. split.
  - by apply list_elem_of_In, acceptable_path_answers_for.
  - by apply list_elem_of_In, list_elem_of_fmap_2.
Qed.

Lemma acceptable_answer_named (g : igraph.Graph) (source : string)
    (targets : list string) (raw : list (list nat)) :
  acceptable_answer g source targets raw -> raw ∈ named_answers g source targets.
Proof.
  intros (s & ts & Hs & Hts & Hall). unfold named_answers. rewrite Hs, Hts.
  apply acceptable_paths_all_answers; [by eapply vertex_id_lt|exact Hall].
Qed.

(** Whatever holds of the outcome for every acceptable answer holds of the
    call, whichever search function is used. *)
Lemma any_acceptable_search (P : outcome -> Prop) (search : path_search)
    (lattice : Lattice) (m : OperatorMap) (g : igraph.Graph) (source : string)
    (targets : list string) (raw : list (list nat)) :
  search_graph lattice m = Ok (g, source, targets) ->
  search g source targets = Ok raw ->
  acceptable_answer g source targets raw ->
  Forall (fun raw => P (finish g lattice raw)) (named_answers g source targets) ->
  P (compute_ancilla_cells search lattice m).
Proof.
  intros Hg Hraw Hacc Hall.
  rewrite (compute_ancilla_cells_finish search lattice m g source targets raw Hg Hraw).
  rewrite Forall_forall in Hall. by apply Hall, acceptable_answer_named.
Qed.

(** ** The breadth-first search is an acceptable search *)

Lemma path_back_chain (g : igraph.Graph) (from : nat) (order : list nat)
    (parent : list (option nat)) :
  search_inv g from order parent ->
  forall fuel v j acc p,
    order !! j = Some v ->
    igraph.path_back fuel parent from v acc = p ->
    p ≠ [] ->
    exists chain,
      p = chain ++ acc ∧ NoDup chain
      ∧ Forall (fun x => exists i, order !! i = Some x ∧ (i <= j)%nat) chain.
Proof.
  intros Hinv. induction fuel as [|fuel IH]; intros v j acc p Hj Hp Hne.
  - simpl in Hp. congruence.
  - simpl in Hp. destruct (decide (v = from)) as [->|Hv].
    + exists [from]. subst p. split; [reflexivity|]. split; [apply NoDup_singleton|].
      constructor; [|constructor]. by exists j.
    + destruct (parent !! v) as [[u|]|] eqn:Hu; try congruence.
      destruct (inv_earlier _ _ _ _ Hinv v u Hu) as [?|(i & j' & Hi & Hj' & Hij)];
        [done|].
      assert (j' = j) as ->.
      { eapply NoDup_lookup; [apply (inv_nodup _ _ _ _ Hinv)|exact Hj'|exact Hj]. }
      destruct (IH u i (v :: acc) p Hi Hp Hne) as (chain & -> & Hnd & Hall).
      exists (chain ++ [v]). rewrite <- app_assoc. split; [reflexivity|]. split.
      * apply NoDup_app. split; [exact Hnd|]. split; [|apply NoDup_singleton].
        intros x Hx Hx'. apply list_elem_of_singleton in Hx' as ->.
        rewrite Forall_forall in Hall. destruct (Hall v Hx) as (k & Hk & Hki).
        assert (k = j); [|lia].
        eapply NoDup_lookup; [apply (inv_nodup _ _ _ _ Hinv)|exact Hk|exact Hj].
      * apply Forall_app. split.
        -- eapply Forall_impl; [exact Hall|]. intros x (k & Hk & Hki).
           exists k. split; [exact Hk|lia].
        -- constructor; [|constructor]. by exists j.
Qed.

Lemma searched_path_simple (g : igraph.Graph) (from t : nat) (p : list nat) :
  (from < igraph.vcount g)%nat ->
  igraph.path_back (S (igraph.vcount g))
    (igraph.bfs (igraph.vcount g) g [from]
       (<[from := Some from]> (replicate (igraph.vcount g) None))) from t [] = p ->
  p ≠ [] ->
  simple_walk g from t p.
Proof.
  intros Hfrom Hp Hne.
  destruct (searched_path_walk g from t p Hp Hne) as (Hh & Hl & Hw).
  destruct (bfs_inv g from (igraph.vcount g) [] [from] _ (initial_search_inv g from Hfrom))
    as (done & Hinv & Hcl).
  { intros u v Hu. by apply elem_of_nil in Hu. }
  { reflexivity. }
  assert (Ht : t ∈ done).
  { apply (inv_discovered _ _ _ _ Hinv). simpl in Hp.
    destruct (decide (t = from)) as [->|Htf].
    - apply (inv_discovered _ _ _ _ Hinv).
      pose proof (inv_head _ _ _ _ Hinv) as H. destruct done; [discriminate|].
      injection H as ->. apply list_elem_of_here.
    - destruct (_ !! t) as [[u|]|] eqn:Hu; try congruence. by exists u. }
  apply list_elem_of_lookup in Ht as [j Hj].
  destruct (path_back_chain g from done _ Hinv _ t j [] p Hj Hp Hne)
    as (chain & Hc & Hnd & Hall).
  rewrite app_nil_r in Hc. subst chain. repeat split; try done.
  eapply Forall_impl; [exact Hall|]. intros x (i & Hi & _).
  eapply search_inv_lt; [exact Hinv|]. by eapply list_elem_of_lookup_2.
Qed.

(** The search of module [igraph] answers with walks that repeat no vertex,
    and with the empty path only for a target that no walk reaches. *)
Lemma get_shortest_paths_acceptable (g : igraph.Graph) (v : string)
    (to : list string) (raw : list (list nat)) :
  igraph.get_shortest_paths g v to = Ok raw -> acceptable_answer g v to raw.
Proof.
  unfold igraph.get_shortest_paths. intros H.
  destruct (igraph.vertex_id g v) as [from|] eqn:Hv; [|discriminate].
  unfold mbind, result_bind in H.
  destruct (mapM (igraph.vertex_id g) to) as [targets|] eqn:Ht; [|discriminate].
  inversion H as [Hraw]. clear H Hraw. exists from, targets.
  split; [exact Hv|]. split; [exact Ht|].
  apply Forall2_fmap_r, Forall_Forall2_diag, Forall_forall. intros t _.
  pose proof (vertex_id_lt g v from Hv) as Hfrom.
  change (acceptable_path g from t
            (igraph.path_back (S (igraph.vcount g))
               (igraph.bfs (igraph.vcount g) g [from]
                  (<[from := Some from]> (replicate (igraph.vcount g) None)))
               from t [])).
  destruct (igraph.path_back (S (igraph.vcount g))
              (igraph.bfs (igraph.vcount g) g [from]
                 (<[from := Some from]> (replicate (igraph.vcount g) None)))
              from t []) as [|a p] eqn:Hp.
  - right. split; [reflexivity|]. intros q (Hw & Hnd & Hlt & Hh & Hl).
    by apply (searched_path_nonempty g from t q Hfrom Hw Hlt Hh Hl).
  - left. by apply searched_path_simple.
Qed.

(** ** Activation edges *)

(** The direction test of [add_directed_edges] never holds: every activation
    edge runs from the neighbouring vertex to the patch vertex, also for the
    source patch. *)
Lemma add_directed_edges_of_patch_inward (source_patch_vertex : string)
    (representative : Cell) (requested_edge_type : EdgeType) (g : igraph.Graph)
    (edge : Edge) :
  add_directed_edges_of_patch source_patch_vertex representative
    requested_edge_type g edge
  = if bool_decide (border_type edge = requested_edge_type)
       && bool_decide (str (getNeighbouringCell edge) ∈ igraph.vs_name g)
    then igraph.add_edge g (str (getNeighbouringCell edge)) (str representative)
    else Ok g.
Proof. reflexivity. Qed.

(** C1, where the code departs from it: whatever the source, an edge that
    [add_directed_edges] adds for a border runs from the vertex of the
    neighbouring cell to the vertex of the patch, never outward.  At the pair
    layout with request X, X, where (0, 0) is the source, the search graph has
    the vertices "(1, 0)", "(0, 0)", "(2, 0)" in this order and the two
    activation edges 0 -> 1 and 0 -> 2: the edge of the source patch runs from
    the free cell (1, 0) into the source (0, 0), where C1 has it run
    outward. *)
Theorem source_edge_is_inward :
  (forall source_patch_vertex representative requested_edge_type g edge g',
     add_directed_edges_of_patch source_patch_vertex representative
       requested_edge_type g edge = Ok g' ->
     g' = g
     ∨ exists neighbour_id patch_id,
         igraph.vertex_id g (str (getNeighbouringCell edge)) = Ok neighbour_id
         ∧ igraph.vertex_id g (str representative) = Ok patch_id
         ∧ igraph.vs_name g' = igraph.vs_name g
         ∧ igraph.es g' = igraph.es g ++ [(neighbour_id, patch_id)])
  ∧ search_graph pair_lattice pair_request
    = Ok ({| igraph.vs_name := ["(1, 0)"; "(0, 0)"; "(2, 0)"]%string;
             igraph.es := [(0, 1); (0, 2)]%nat |},
          "(0, 0)"%string, ["(2, 0)"%string]).
Proof.
  split; [|vm_compute; reflexivity].
  intros source rep req g edge g' H.
  rewrite add_directed_edges_of_patch_inward in H.
  destruct (_ && _); [|injection H as <-; by left].
  right. unfold igraph.add_edge in H.
  destruct (igraph.vertex_id g (str (getNeighbouringCell edge))) as [s|];
    [|discriminate].
  destruct (igraph.vertex_id g (str rep)) as [t|]; [|discriminate].
  injection H as <-. by exists s, t.
Qed.

(** ** The precondition on the keys *)

Lemma route_non_representative_key (search : path_search) (lattice : Lattice)
    (m : OperatorMap) (k : Cell) :
  k ∈ keys m ->
  getPatchRepresentative lattice k ≠ k ->
  route search lattice m = Raise AssertionError.
Proof.
  intros Hk Hrep. unfold route, search_graph.
  assert (keys_are_representatives lattice m = false) as ->; [|reflexivity].
  unfold keys_are_representatives. apply not_true_is_false. intros Hall.
  rewrite forallb_forall in Hall. apply list_elem_of_In in Hk.
  specialize (Hall k Hk). by apply bool_decide_eq_true in Hall.
Qed.

(** C6: when some key of the request is not the representative of its patch,
    [compute_ancilla_cells] raises the assertion's error before it builds the
    graph, and the lattice is as it was. *)
Theorem non_representative_key_rejected (search : path_search) (lattice : Lattice)
    (m : OperatorMap) (k : Cell) :
  k ∈ keys m ->
  getPatchRepresentative lattice k ≠ k ->
  route search lattice m = Raise AssertionError
  ∧ compute_ancilla_cells search lattice m = Raised AssertionError lattice.
Proof.
  intros Hk Hrep.
  pose proof (route_non_representative_key search lattice m k Hk Hrep) as Hr.
  split; [exact Hr|]. unfold compute_ancilla_cells. by rewrite Hr.
Qed.

Lemma non_representative_key_rejected_witness :
  route igraph.get_shortest_paths tall_lattice tall_request = Raise AssertionError
  ∧ compute_ancilla_cells igraph.get_shortest_paths tall_lattice tall_request
    = Raised AssertionError tall_lattice.
Proof.
  apply (non_representative_key_rejected igraph.get_shortest_paths
           tall_lattice tall_request (0, 1)).
  - apply list_elem_of_here.
  - vm_compute. discriminate.
Defined.

(** The same through the composer: the store is left as it was. *)
Lemma measureMultiPatch_non_representative_key (search : path_search) (c : Composer)
    (m : OperatorMap) (k : Cell) (lattice : Lattice) :
  wf c ->
  last (getSlices c) = Some lattice ->
  k ∈ keys m ->
  getPatchRepresentative lattice k ≠ k ->
  measureMultiPatch search c m = (c, Some AssertionError).
Proof.
  intros Hwf Hlast Hk Hrep.
  destruct (wf_last_slice c Hwf) as (l & lattice' & H1 & H2 & H3).
  destruct Hwf as [Hne Hall].
  rewrite (getSlices_last c l lattice' Hall H2 H3) in Hlast.
  injection Hlast as ->.
  unfold measureMultiPatch, on_last_slice. rewrite H1, H3.
  unfold compute_ancilla_cells.
  rewrite (route_non_representative_key search lattice m k Hk Hrep).
  simpl. rewrite list_insert_id by exact H3. by destruct c.
Qed.

(** ** What the stitching loop can change *)

Lemma stitched_or_same_refl (e : Edge) : stitched_or_same e e.
Proof. by left. Qed.

Lemma stitched_or_same_trans (e1 e2 e3 : Edge) :
  stitched_or_same e1 e2 -> stitched_or_same e2 e3 -> stitched_or_same e1 e3.
Proof.
  unfold stitched_or_same. intros [->| ->] [->| ->]; auto.
  right. apply stitch_idemp.
Qed.

Lemma set_edges_id (p : Patch) : set_edges p (edges p) = p.
Proof. by destruct p. Qed.

Lemma set_patches_id (lattice : Lattice) : set_patches lattice (patches lattice) = lattice.
Proof. by destruct lattice. Qed.

Lemma patch_stitched_or_same_refl (p : Patch) : patch_stitched_or_same p p.
Proof.
  exists (edges p). split; [by rewrite set_edges_id|].
  apply Forall_Forall2_diag, Forall_forall. intros e _. apply stitched_or_same_refl.
Qed.

Lemma patch_stitched_or_same_trans (p1 p2 p3 : Patch) :
  patch_stitched_or_same p1 p2 -> patch_stitched_or_same p2 p3 ->
  patch_stitched_or_same p1 p3.
Proof.
  intros (es2 & -> & H12) (es3 & -> & H23). simpl in H23.
  exists es3. split; [reflexivity|].
  eapply Forall2_trans; [|exact H12|exact H23]. apply stitched_or_same_trans.
Qed.

Lemma only_stitched_refl (lattice : Lattice) : only_stitched lattice lattice.
Proof.
  exists (patches lattice). split; [by rewrite set_patches_id|].
  apply Forall_Forall2_diag, Forall_forall. intros p _.
  apply patch_stitched_or_same_refl.
Qed.

Lemma only_stitched_trans (l1 l2 l3 : Lattice) :
  only_stitched l1 l2 -> only_stitched l2 l3 -> only_stitched l1 l3.
Proof.
  intros (ps2 & -> & H12) (ps3 & -> & H23). simpl in H23.
  exists ps3. split; [reflexivity|].
  eapply Forall2_trans; [|exact H12|exact H23]. apply patch_stitched_or_same_trans.
Qed.

Lemma stitch_facing_stitched_or_same (facing : result Cell) (es es' : list Edge) :
  stitch_facing facing es = Ok es' -> Forall2 stitched_or_same es es'.
Proof.
  revert es'. induction es as [|e es IH]; intros es' H; simpl in H.
  - injection H as <-. constructor.
  - destruct facing as [c|]; [|discriminate]. simpl in H.
    destruct (stitch_facing (Ok c) es) as [rest'|]; [|discriminate].
    simpl in H. injection H as <-. constructor; [|by apply IH].
    case_bool_decide; [by right|by left].
Qed.

Lemma stitch_patch_of_cell_only_stitched (lattice : Lattice) (c : Cell)
    (facing : result Cell) :
  only_stitched lattice (lattice_of (stitch_patch_of_cell lattice c facing)).
Proof.
  unfold stitch_patch_of_cell.
  destruct (findPatchOfCell lattice c) as [[j patch]|] eqn:Hfind;
    [|apply only_stitched_refl].
  destruct (stitch_facing facing (edges patch)) as [es'|] eqn:Hes;
    [|apply only_stitched_refl].
  simpl. eexists. split; [reflexivity|].
  apply list_find_Some in Hfind as (Hj & _ & _).
  rewrite <- (list_insert_id _ _ _ Hj) at 1.
  apply Forall2_insert.
  - apply Forall_Forall2_diag, Forall_forall. intros p _.
    apply patch_stitched_or_same_refl.
  - exists es'. split; [reflexivity|].
    by apply (stitch_facing_stitched_or_same facing).
Qed.

Lemma stitch_path_only_stitched (lattice : Lattice) (path : list Cell) :
  only_stitched lattice (lattice_of (stitch_path lattice path)).
Proof.
  unfold stitch_path. destruct (py_index path 0) as [first|];
    [|apply only_stitched_refl].
  pose proof (stitch_patch_of_cell_only_stitched lattice first (py_index path 1)) as H1.
  destruct (stitch_patch_of_cell lattice first (py_index path 1)) as [l|e l];
    simpl in H1; [|exact H1].
  destruct (py_index path (-1)) as [last|]; [|exact H1].
  eapply only_stitched_trans; [exact H1|].
  apply stitch_patch_of_cell_only_stitched.
Qed.

Lemma stitch_paths_only_stitched (paths : list (list Cell)) (lattice : Lattice)
    (acc : list Cell) :
  only_stitched lattice (lattice_of (fst (stitch_paths lattice acc paths))).
Proof.
  revert lattice acc. induction paths as [|path rest IH]; intros lattice acc; simpl.
  - apply only_stitched_refl.
  - pose proof (stitch_path_only_stitched lattice path) as H1.
    destruct (stitch_path lattice path) as [l|e l]; simpl in H1; [|exact H1].
    eapply only_stitched_trans; [exact H1|apply IH].
Qed.

Lemma stitch_path_nil (lattice : Lattice) :
  stitch_path lattice [] = Raised IndexError lattice.
Proof. reflexivity. Qed.

(** The loop raises if it meets an empty path. *)
Lemma stitch_paths_empty_path (paths : list (list Cell)) (lattice : Lattice)
    (acc : list Cell) :
  [] ∈ paths ->
  exists e lattice' acc', stitch_paths lattice acc paths = (Raised e lattice', acc').
Proof.
  revert lattice acc. induction paths as [|path rest IH]; intros lattice acc Hin.
  - by apply elem_of_nil in Hin.
  - simpl. destruct (stitch_path lattice path) as [l|e l] eqn:Hp.
    + apply elem_of_cons in Hin as [<-|Hin]; [by rewrite stitch_path_nil in Hp|].
      by apply IH.
    + by exists e, l, acc.
Qed.

(** The frame of a call: borders are stitched, and on return one Ancilla
    patch without borders is appended; after an exception nothing is. *)
Lemma compute_ancilla_cells_frame (search : path_search) (lattice : Lattice)
    (m : OperatorMap) :
  match compute_ancilla_cells search lattice m with
  | Raised _ lattice' => only_stitched lattice lattice'
  | Returned lattice' =>
      exists lattice1 ancilla_cells,
        only_stitched lattice lattice1
        ∧ lattice' = set_patches lattice1
                       (patches lattice1 ++ [mkPatch Ancilla None ancilla_cells [] None])
  end.
Proof.
  unfold compute_ancilla_cells.
  destruct (route search lattice m) as [paths|e]; [|apply only_stitched_refl].
  unfold add_ancilla_to_lattice_from_paths.
  pose proof (stitch_paths_only_stitched paths lattice []) as H.
  destruct (stitch_paths lattice [] paths) as [[l|e l] acc]; simpl in H.
  - by exists l, acc.
  - exact H.
Qed.

Lemma add_ancilla_empty_path (lattice : Lattice) (paths : list (list Cell)) :
  [] ∈ paths ->
  exists e lattice',
    add_ancilla_to_lattice_from_paths lattice paths = Raised e lattice'
    ∧ only_stitched lattice lattice'
    ∧ (head paths = Some [] -> e = IndexError ∧ lattice' = lattice).
Proof.
  intros Hin. unfold add_ancilla_to_lattice_from_paths.
  destruct (stitch_paths_empty_path paths lattice [] Hin) as (e & l' & acc' & Hs).
  pose proof (stitch_paths_only_stitched paths lattice []) as Hfr.
  rewrite Hs in *. simpl in Hfr. exists e, l'. split; [reflexivity|].
  split; [exact Hfr|]. intros Hhd.
  destruct paths as [|path rest]; [discriminate|]. simpl in Hhd.
  injection Hhd as ->. simpl in Hs. by injection Hs as <- <- _.
Qed.

(** ** A target that is not reached *)

(** C2, as the code has it: when the search returns an empty path for some
    target, the call ends with an exception, no patch is appended, and the
    lattice differs from the one before the call at most by stitched borders;
    when the empty path is the first one, the exception is the [IndexError] of
    [path[0]] and the lattice is as it was. *)
Theorem empty_path_raises (search : path_search) (lattice : Lattice)
    (m : OperatorMap) (paths : list (list Cell)) :
  route search lattice m = Ok paths ->
  [] ∈ paths ->
  exists e lattice',
    compute_ancilla_cells search lattice m = Raised e lattice'
    ∧ only_stitched lattice lattice'
    ∧ (head paths = Some [] -> e = IndexError ∧ lattice' = lattice).
Proof.
  intros Hroute Hin. unfold compute_ancilla_cells. rewrite Hroute.
  by apply add_ancilla_empty_path.
Qed.

Lemma empty_path_raises_witness :
  exists e lattice',
    compute_ancilla_cells igraph.get_shortest_paths row_lattice row_request_XXZ
    = Raised e lattice'
    ∧ only_stitched row_lattice lattice'
    ∧ (head [[(0, 0); (1, 0); (2, 0)]; []] = Some [] -> e = IndexError ∧ lattice' = row_lattice).
Proof.
  apply (empty_path_raises igraph.get_shortest_paths row_lattice row_request_XXZ
           [[(0, 0); (1, 0); (2, 0)]; []]).
  - vm_compute. reflexivity.
  - apply list_elem_of_further, list_elem_of_here.
Defined.

Lemma path_cells_nil (g : igraph.Graph) : path_cells g [] = Ok [].
Proof. reflexivity. Qed.

(** With the breadth-first search: when the search graph has no walk from
    the source to some target, the call ends with an exception and the lattice
    differs at most by stitched borders. *)
Lemma no_walk_raises (lattice : Lattice) (m : OperatorMap) (g : igraph.Graph)
    (source : string) (targets : list string) (target : string) (s t : nat) :
  search_graph lattice m = Ok (g, source, targets) ->
  igraph.vertex_id g source = Ok s ->
  target ∈ targets ->
  igraph.vertex_id g target = Ok t ->
  (forall p, walk g p -> head p = Some s -> last p = Some t -> False) ->
  exists e lattice',
    compute_ancilla_cells igraph.get_shortest_paths lattice m = Raised e lattice'
    ∧ only_stitched lattice lattice'.
Proof.
  intros Hsg Hs Hin Ht Hnowalk. unfold compute_ancilla_cells, route.
  rewrite Hsg. unfold mbind at 1. unfold result_bind at 1.
  destruct (igraph.get_shortest_paths g source targets) as [raw|e] eqn:Hraw;
    [|exists e, lattice; split; [reflexivity|apply only_stitched_refl]].
  unfold mbind, result_bind.
  destruct (mapM (path_cells g) raw) as [paths|e] eqn:Hpaths;
    [|exists e, lattice; split; [reflexivity|apply only_stitched_refl]].
  destruct (get_shortest_paths_sound g source targets raw Hraw) as (s' & Hs' & Hall).
  assert (s' = s) as -> by congruence.
  apply list_elem_of_lookup in Hin as [i Hi].
  destruct (Forall2_lookup_l _ _ _ _ _ Hall Hi) as (path & Hpath & Hsound).
  assert (path = []) as ->.
  { destruct path as [|v path]; [reflexivity|]. exfalso.
    destruct Hsound as (t' & Ht' & Hh & Hl & Hw); [discriminate|].
    assert (t' = t) as -> by congruence. by eapply Hnowalk. }
  apply mapM_Ok in Hpaths.
  destruct (Forall2_lookup_l _ _ _ _ _ Hpaths Hpath) as (cs & Hcs & Hpc).
  rewrite path_cells_nil in Hpc. injection Hpc as <-.
  apply list_elem_of_lookup_2 in Hcs.
  destruct (add_ancilla_empty_path lattice paths Hcs) as (e & l' & H1 & H2 & _).
  by exists e, l'.
Qed.

Example no_walk_raises_row :
  exists e lattice',
    compute_ancilla_cells igraph.get_shortest_paths row_lattice row_request_XXZ
    = Raised e lattice'
    ∧ only_stitched row_lattice lattice'.
Proof.
  eapply (no_walk_raises row_lattice row_request_XXZ _ _ _ "(4, 0)"%string 2%nat 4%nat).
  - vm_compute. reflexivity.
  - reflexivity.
  - apply list_elem_of_further, list_elem_of_here.
  - reflexivity.
  - intros p Hw Hh Hl.
    destruct (walk_enters _ p 2%nat 4%nat Hw Hh Hl) as [u [Hu|Hu]]; [lia| |];
      simpl in Hu; repeat (apply elem_of_cons in Hu as [Hu|Hu]; [discriminate|]);
      by apply elem_of_nil in Hu.
Qed.

(** C2 as stated fails on the one-row layout with request X, X, Z: no edge
    of the search graph touches the vertex of the target (4, 0), the search
    returns the empty path for it, and the [IndexError] comes after the
    borders on the path to (2, 0) have been stitched. *)
Lemma unreachable_target_not_atomic :
  search_graph row_lattice row_request_XXZ
  = Ok ({| igraph.vs_name := ["(1, 0)"; "(3, 0)"; "(0, 0)"; "(2, 0)"; "(4, 0)"]%string;
           igraph.es := [(0, 2); (0, 3); (1, 3)]%nat |},
        "(0, 0)"%string, ["(2, 0)"; "(4, 0)"]%string)
  ∧ route igraph.get_shortest_paths row_lattice row_request_XXZ
    = Ok [[(0, 0); (1, 0); (2, 0)]; []]
  ∧ exists lattice',
      compute_ancilla_cells igraph.get_shortest_paths row_lattice row_request_XXZ
      = Raised IndexError lattice'
      ∧ lattice' ≠ row_lattice
      ∧ map (fun p => map border_type (edges p)) (patches lattice')
        = [ [Solid; Solid; Dashed; DashedStiched];
            [Solid; Solid; DashedStiched; Dashed];
            [Solid; Solid; Dashed; Dashed] ].
Proof.
  split; [vm_compute; reflexivity|]. split; [vm_compute; reflexivity|].
  eexists. split; [vm_compute; reflexivity|]. split; [discriminate|reflexivity].
Qed.

(** ** Routing on concrete layouts *)

(** C3 on the one-row layout with request X, X, X: the search graph is the
    chain (0, 0) - (1, 0) - (2, 0) - (3, 0) - (4, 0), the only way from (0, 0)
    to (4, 0) leads through the vertex of the target (2, 0), and the new
    ancilla patch takes the cell (2, 0), which belongs to a qubit patch. *)
Theorem ancilla_takes_cell_of_target_patch :
  search_graph row_lattice row_request_XXX
  = Ok ({| igraph.vs_name := ["(1, 0)"; "(3, 0)"; "(0, 0)"; "(2, 0)"; "(4, 0)"]%string;
           igraph.es := [(0, 2); (0, 3); (1, 3); (1, 4)]%nat |},
        "(0, 0)"%string, ["(2, 0)"; "(4, 0)"]%string)
  ∧ route igraph.get_shortest_paths row_lattice row_request_XXX
    = Ok [[(0, 0); (1, 0); (2, 0)]; [(0, 0); (1, 0); (2, 0); (3, 0); (4, 0)]]
  ∧ exists lattice' ancilla,
      compute_ancilla_cells igraph.get_shortest_paths row_lattice row_request_XXX
      = Returned lattice'
      ∧ last (patches lattice') = Some ancilla
      ∧ patch_type ancilla = Ancilla
      ∧ cells ancilla = [(1, 0); (2, 0); (3, 0)]
      ∧ cellIsFree row_lattice (2, 0) = false
      ∧ getPatchOfCell row_lattice (2, 0) = Some (square (2, 0)).
Proof.
  split; [vm_compute; reflexivity|]. split; [vm_compute; reflexivity|].
  eexists. eexists. split; [vm_compute; reflexivity|].
  repeat split.
Qed.

(** C4 on two patches side by side: the path has no interior cell, and an
    Ancilla patch with an empty cell list is appended all the same; it has no
    representative, so the next request on this lattice stops with an
    [IndexError] while the activation edges are added. *)
Theorem empty_ancilla_patch_appended :
  route igraph.get_shortest_paths adjacent_lattice adjacent_request
  = Ok [[(0, 0); (1, 0)]]
  ∧ exists lattice',
      compute_ancilla_cells igraph.get_shortest_paths adjacent_lattice adjacent_request
      = Returned lattice'
      ∧ length (patches lattice') = S (length (patches adjacent_lattice))
      ∧ last (patches lattice') = Some (mkPatch Ancilla None [] [] None)
      ∧ getRepresentative (mkPatch Ancilla None [] [] None) = Raise IndexError
      ∧ route igraph.get_shortest_paths lattice' adjacent_request = Raise IndexError.
Proof.
  split; [vm_compute; reflexivity|].
  eexists. split; [vm_compute; reflexivity|].
  repeat split.
Qed.

(** [P] holds of the outcome of a call on a given layout, for any search
    function: the search graph is computed, and [P] is decided on the outcome
    of every acceptable answer. *)
Ltac check_all_answers P Hg Hraw Hacc :=
  apply (any_acceptable_search P _ _ _ _ _ _ _ Hg Hraw Hacc);
  vm_compute in Hg; injection Hg as <- <- <-;
  apply (bool_decide_unpack _); vm_compute; exact Logic.I.

(** On the layouts above every acceptable answer of the search is the one
    of the breadth-first search, so the outcomes do not depend on the search
    function. *)
Lemma row_XXX_any_search (search : path_search) (g : igraph.Graph)
    (source : string) (targets : list string) (raw : list (list nat)) :
  search_graph row_lattice row_request_XXX = Ok (g, source, targets) ->
  search g source targets = Ok raw ->
  acceptable_answer g source targets raw ->
  compute_ancilla_cells search row_lattice row_request_XXX
  = compute_ancilla_cells igraph.get_shortest_paths row_lattice row_request_XXX.
Proof.
  intros Hg Hraw Hacc.
  check_all_answers
    (fun o => o = compute_ancilla_cells igraph.get_shortest_paths row_lattice row_request_XXX)
    Hg Hraw Hacc.
Qed.

Lemma row_XXZ_any_search (search : path_search) (g : igraph.Graph)
    (source : string) (targets : list string) (raw : list (list nat)) :
  search_graph row_lattice row_request_XXZ = Ok (g, source, targets) ->
  search g source targets = Ok raw ->
  acceptable_answer g source targets raw ->
  compute_ancilla_cells search row_lattice row_request_XXZ
  = compute_ancilla_cells igraph.get_shortest_paths row_lattice row_request_XXZ.
Proof.
  intros Hg Hraw Hacc.
  check_all_answers
    (fun o => o = compute_ancilla_cells igraph.get_shortest_paths row_lattice row_request_XXZ)
    Hg Hraw Hacc.
Qed.

Lemma adjacent_any_search (search : path_search) (g : igraph.Graph)
    (source : string) (targets : list string) (raw : list (list nat)) :
  search_graph adjacent_lattice adjacent_request = Ok (g, source, targets) ->
  search g source targets = Ok raw ->
  acceptable_answer g source targets raw ->
  compute_ancilla_cells search adjacent_lattice adjacent_request
  = compute_ancilla_cells igraph.get_shortest_paths adjacent_lattice adjacent_request.
Proof.
  intros Hg Hraw Hacc.
  check_all_answers
    (fun o => o = compute_ancilla_cells igraph.get_shortest_paths adjacent_lattice adjacent_request)
    Hg Hraw Hacc.
Qed.

(** The search graph of scenario A: the free cells of rows 0 and 1 with
    their grid edges, then the vertices 11, 12, 13 of (0, 0), (4, 0), (6, 0)
    and one activation edge each, from (1, 0), from (4, 1) and from (5, 0). *)
Example scenario_A_search_graph :
  exists g,
    search_graph scenario_A_lattice scenario_A_request
    = Ok (g, "(0, 0)"%string, ["(4, 0)"; "(6, 0)"]%string)
    ∧ igraph.vs_name g
      = ["(1, 0)"; "(2, 0)"; "(3, 0)"; "(5, 0)"; "(0, 1)"; "(1, 1)"; "(2, 1)";
         "(3, 1)"; "(4, 1)"; "(5, 1)"; "(6, 1)"; "(0, 0)"; "(4, 0)"; "(6, 0)"]%string
    ∧ filter (fun e => (11 <= fst e)%nat ∨ (11 <= snd e)%nat) (igraph.es g)
      = [(0, 11); (8, 12); (3, 13)]%nat.
Proof.
  eexists. split; [vm_compute; reflexivity|]. split; reflexivity.
Qed.

(** C7 as stated fails: in scenario A the Left and Right borders of (4, 0)
    stay Dashed, it is the Bottom border that is stitched, and the ancilla
    patch has the cell (4, 1) of row 1. *)
Lemma scenario_A_enters_from_row_1 :
  exists lattice' middle ancilla,
    compute_ancilla_cells igraph.get_shortest_paths scenario_A_lattice scenario_A_request
    = Returned lattice'
    ∧ getPatchOfCell lattice' (4, 0) = Some middle
    ∧ edges middle = [ mkEdge Solid (4, 0) Top; mkEdge SolidStiched (4, 0) Bottom;
                       mkEdge Dashed (4, 0) Left; mkEdge Dashed (4, 0) Right ]
    ∧ last (patches lattice') = Some ancilla
    ∧ patch_type ancilla = Ancilla
    ∧ (4, 1) ∈ cells ancilla.
Proof.
  eexists. eexists. eexists. split; [vm_compute; reflexivity|].
  split; [vm_compute; reflexivity|]. split; [reflexivity|].
  split; [reflexivity|]. split; [reflexivity|].
  apply (bool_decide_unpack _). vm_compute. exact Logic.I.
Qed.

(** C7, as the code has it: in scenario A the request X, Z, X succeeds for
    every search that answers with walks that repeat no vertex (as shortest
    paths do), and it appends one Ancilla patch without borders; its cells
    were free, lie in columns 1 to 5 of rows 0 and 1, and include (1, 0),
    (4, 1) and (5, 0), the cells through which the paths leave (0, 0) and
    enter (4, 0) and (6, 0); the Right border of (0, 0), the Bottom border of
    (4, 0) and the Left border of (6, 0) become stitched and every other
    border keeps its type. *)
Theorem scenario_A_routing (search : path_search) (g : igraph.Graph)
    (source : string) (targets : list string) (raw : list (list nat)) :
  search_graph scenario_A_lattice scenario_A_request = Ok (g, source, targets) ->
  search g source targets = Ok raw ->
  acceptable_answer g source targets raw ->
  exists ancilla_cells,
    compute_ancilla_cells search scenario_A_lattice scenario_A_request
    = Returned
        (mkLattice
           [ mkPatch Qubit (Some Zero) [(0, 0)]
               [ mkEdge Solid (0, 0) Top; mkEdge Solid (0, 0) Bottom;
                 mkEdge Dashed (0, 0) Left; mkEdge DashedStiched (0, 0) Right ] None;
             mkPatch Qubit (Some Zero) [(4, 0)]
               [ mkEdge Solid (4, 0) Top; mkEdge SolidStiched (4, 0) Bottom;
                 mkEdge Dashed (4, 0) Left; mkEdge Dashed (4, 0) Right ] None;
             mkPatch Qubit (Some Zero) [(6, 0)]
               [ mkEdge Solid (6, 0) Top; mkEdge Solid (6, 0) Bottom;
                 mkEdge DashedStiched (6, 0) Left; mkEdge Dashed (6, 0) Right ] None;
             mkPatch Ancilla None ancilla_cells [] None ]
           2 0)
    ∧ Forall (fun c => cellIsFree scenario_A_lattice c = true
                       ∧ 1 <= fst c <= 5 ∧ 0 <= snd c <= 1) ancilla_cells
    ∧ (1, 0) ∈ ancilla_cells ∧ (4, 1) ∈ ancilla_cells ∧ (5, 0) ∈ ancilla_cells
    ∧ NoDup ancilla_cells.
Proof.
  intros Hg Hraw Hacc.
  assert (H : scenario_A_expected
                (compute_ancilla_cells search scenario_A_lattice scenario_A_request)).
  { check_all_answers scenario_A_expected Hg Hraw Hacc. }
  destruct (compute_ancilla_cells search scenario_A_lattice scenario_A_request)
    as [lattice'|]; [|destruct H].
  simpl in H. destruct (last (patches lattice')) as [ancilla|]; [|destruct H].
  destruct H as (-> & Hcells). exists (cells ancilla).
  split; [reflexivity|exact Hcells].
Qed.

(** The breadth-first search is one such search. *)
Lemma scenario_A_routing_witness :
  exists ancilla_cells,
    compute_ancilla_cells igraph.get_shortest_paths scenario_A_lattice scenario_A_request
    = Returned
        (mkLattice
           [ mkPatch Qubit (Some Zero) [(0, 0)]
               [ mkEdge Solid (0, 0) Top; mkEdge Solid (0, 0) Bottom;
                 mkEdge Dashed (0, 0) Left; mkEdge DashedStiched (0, 0) Right ] None;
             mkPatch Qubit (Some Zero) [(4, 0)]
               [ mkEdge Solid (4, 0) Top; mkEdge SolidStiched (4, 0) Bottom;
                 mkEdge Dashed (4, 0) Left; mkEdge Dashed (4, 0) Right ] None;
             mkPatch Qubit (Some Zero) [(6, 0)]
               [ mkEdge Solid (6, 0) Top; mkEdge Solid (6, 0) Bottom;
                 mkEdge DashedStiched (6, 0) Left; mkEdge Dashed (6, 0) Right ] None;
             mkPatch Ancilla None ancilla_cells [] None ]
           2 0)
    ∧ Forall (fun c => cellIsFree scenario_A_lattice c = true
                       ∧ 1 <= fst c <= 5 ∧ 0 <= snd c <= 1) ancilla_cells
    ∧ (1, 0) ∈ ancilla_cells ∧ (4, 1) ∈ ancilla_cells ∧ (5, 0) ∈ ancilla_cells
    ∧ NoDup ancilla_cells.
Proof.
  eapply (scenario_A_routing igraph.get_shortest_paths).
  - vm_compute. reflexivity.
  - vm_compute. reflexivity.
  - apply get_shortest_paths_acceptable. vm_compute. reflexivity.
Defined.

(** * Further properties of the sources *)

(** ** Measuring and clearing *)

Lemma unstitch_stitch (e : Edge) : unstitch (stitch e) = unstitch e.
Proof. destruct e as [[] ? ?]; reflexivity. Qed.

Lemma stitched_or_same_unstitch (es es' : list Edge) :
  Forall2 stitched_or_same es es' -> map unstitch es' = map unstitch es.
Proof.
  induction 1 as [|e e' es es' [->| ->] _ IH]; simpl; [reflexivity| |];
    by rewrite ?unstitch_stitch, IH.
Qed.

Lemma patch_stitched_or_same_unstitch (p p' : Patch) :
  patch_stitched_or_same p p' -> unstitch_patch p' = unstitch_patch p.
Proof.
  intros (es' & -> & H). unfold unstitch_patch, set_edges. simpl.
  by rewrite (stitched_or_same_unstitch _ _ H).
Qed.

Lemma only_stitched_clear_ancilla (lattice lattice' : Lattice) :
  only_stitched lattice lattice' -> clear_ancilla lattice' = clear_ancilla lattice.
Proof.
  intros (ps' & -> & H). unfold clear_ancilla, set_patches. simpl. f_equal. f_equal.
  induction H as [|p p' ps ps' Hp _ IH]; [reflexivity|].
  simpl. by rewrite (patch_stitched_or_same_unstitch _ _ Hp), IH.
Qed.

Lemma clear_ancilla_snoc_ancilla (lattice : Lattice) (p : Patch) :
  patch_type p = Ancilla ->
  clear_ancilla (set_patches lattice (patches lattice ++ [p])) = clear_ancilla lattice.
Proof.
  intros Hp. unfold clear_ancilla, set_patches. simpl. f_equal.
  rewrite map_app, filter_app. simpl. rewrite filter_cons_False, filter_nil.
  - by rewrite app_nil_r.
  - simpl. rewrite Hp. by intros H.
Qed.

Lemma clear_ancilla_after_compute (search : path_search) (lattice : Lattice)
    (m : OperatorMap) :
  clear_ancilla (lattice_of (compute_ancilla_cells search lattice m))
  = clear_ancilla lattice.
Proof.
  pose proof (compute_ancilla_cells_frame search lattice m) as H.
  destruct (compute_ancilla_cells search lattice m) as [lattice'|e lattice']; simpl.
  - destruct H as (lattice1 & ancilla_cells & H1 & ->).
    rewrite clear_ancilla_snoc_ancilla by reflexivity.
    by apply only_stitched_clear_ancilla.
  - by apply only_stitched_clear_ancilla.
Qed.

Lemma unstitch_id (e : Edge) : isStiched e = false <-> unstitch e = e.
Proof. destruct e as [[] ? ?]; split; (reflexivity || discriminate). Qed.

Lemma unstitch_patch_id (p : Patch) :
  Forall (fun e => isStiched e = false) (edges p) <-> unstitch_patch p = p.
Proof.
  destruct p as [ty st cs es u]. unfold unstitch_patch, set_edges. simpl. split.
  - intros H. f_equal. induction H as [|e es' He _ IH]; [reflexivity|].
    simpl. apply unstitch_id in He. by rewrite He, IH.
  - intros [= H]. induction es as [|e es' IH]; [constructor|].
    simpl in H. injection H as He H. constructor; [by apply unstitch_id|by apply IH].
Qed.

Lemma clean_clear_ancilla (lattice : Lattice) :
  clean lattice -> clear_ancilla lattice = lattice.
Proof.
  intros H. destruct lattice as [ps r c]. unfold clear_ancilla, set_patches, clean in *.
  simpl in *. f_equal. induction H as [|p ps' [Hty Hes] _ IH]; [reflexivity|].
  simpl. apply unstitch_patch_id in Hes. rewrite Hes.
  rewrite filter_cons_True by exact Hty. by rewrite IH.
Qed.

(** X1: [clearAncilla] leaves the last snapshot as it is exactly when that
    lattice has no Ancilla patch and no stitched border. *)
Theorem clear_ancilla_fixpoint (lattice : Lattice) :
  clear_ancilla lattice = lattice <-> clean lattice.
Proof.
  split.
  - intros <-. apply clear_ancilla_complete.
  - apply clean_clear_ancilla.
Qed.

(** X2: whatever [measureMultiPatch] did to the last snapshot, returning or
    raising, a [clearAncilla] after it gives the composer that [clearAncilla]
    alone gives; when the last snapshot had no Ancilla patch and no stitched
    border, the two calls give the composer back as it was. *)
Theorem measure_then_clearAncilla (search : path_search) (c : Composer)
    (m : OperatorMap) :
  wf c ->
  fst (clearAncilla (fst (measureMultiPatch search c m))) = fst (clearAncilla c)
  ∧ (forall lattice,
       last (getSlices c) = Some lattice -> clean lattice ->
       fst (clearAncilla (fst (measureMultiPatch search c m))) = c).
Proof.
  intros Hwf. destruct (wf_last_slice c Hwf) as (l & lattice & H1 & H2 & H3).
  destruct Hwf as [Hne Hall]. destruct c as [st ls]. simpl in *.
  assert (Hlt : (l < length st)%nat) by (by eapply lookup_lt_Some).
  assert (Heq : fst (clearAncilla (fst (measureMultiPatch search
                  {| store := st; qubit_patch_slices := ls |} m)))
                = {| store := <[l := clear_ancilla lattice]> st;
                     qubit_patch_slices := ls |}).
  { unfold clearAncilla, measureMultiPatch, on_last_slice, last_slice in *.
    simpl in *. rewrite H1. simpl. rewrite H3. simpl. rewrite H1. simpl.
    rewrite list_lookup_insert_eq by exact Hlt. simpl.
    by rewrite list_insert_insert_eq, clear_ancilla_after_compute. }
  split.
  - rewrite Heq. unfold clearAncilla, on_last_slice, last_slice in *. simpl in *.
    by rewrite H1, H3.
  - intros lattice' Hlast Hclean. rewrite Heq.
    rewrite (getSlices_last {| store := st; qubit_patch_slices := ls |}
               l lattice Hall H2 H3) in Hlast.
    injection Hlast as <-.
    rewrite clean_clear_ancilla by exact Hclean. by rewrite list_insert_id.
Qed.

Lemma measure_then_clearAncilla_witness :
  fst (clearAncilla (fst (measureMultiPatch igraph.get_shortest_paths
                            (init scenario_A_lattice) scenario_A_request)))
  = fst (clearAncilla (init scenario_A_lattice))
  ∧ fst (clearAncilla (fst (measureMultiPatch igraph.get_shortest_paths
                              (init scenario_A_lattice) scenario_A_request)))
    = init scenario_A_lattice.
Proof.
  destruct (measure_then_clearAncilla igraph.get_shortest_paths
              (init scenario_A_lattice) scenario_A_request) as [H1 H2].
  - split; [discriminate|]. repeat constructor.
  - split; [exact H1|]. apply (H2 scenario_A_lattice); [reflexivity|].
    repeat constructor; discriminate.
Defined.

(** ** What a request leaves in place *)

Lemma set_union_spec (s cs : list Cell) :
  NoDup s ->
  NoDup (set_union s cs) ∧ forall c, c ∈ set_union s cs <-> c ∈ s ∨ c ∈ cs.
Proof.
  unfold set_union. revert s. induction cs as [|a cs IH]; intros s Hnd; simpl.
  - split; [exact Hnd|]. intros c. rewrite elem_of_nil. tauto.
  - case_bool_decide as Ha.
    + destruct (IH s Hnd) as [H1 H2]. split; [exact H1|]. intros c.
      rewrite H2, elem_of_cons. intuition congruence.
    + destruct (IH (s ++ [a])) as [H1 H2].
      { apply NoDup_app. split; [exact Hnd|]. split; [|apply NoDup_singleton].
        intros x Hx Hx'. apply list_elem_of_singleton in Hx'. by subst. }
      split; [exact H1|]. intros c.
      rewrite H2, elem_of_app, list_elem_of_singleton, elem_of_cons. tauto.
Qed.

Lemma stitch_paths_cells (paths : list (list Cell)) (lattice : Lattice) (acc : list Cell) :
  NoDup acc ->
  NoDup (snd (stitch_paths lattice acc paths))
  ∧ forall c, c ∈ snd (stitch_paths lattice acc paths) ->
              c ∈ acc ∨ exists path, path ∈ paths ∧ c ∈ interior path.
Proof.
  revert lattice acc. induction paths as [|path rest IH]; intros lattice acc Hnd; simpl.
  - split; [exact Hnd|]. by left.
  - destruct (stitch_path lattice path) as [l|e l]; simpl.
    + destruct (set_union_spec acc (interior path) Hnd) as [Hnd' Hin].
      destruct (IH l _ Hnd') as [H1 H2]. split; [exact H1|].
      intros c Hc. destruct (H2 c Hc) as [Hc'|(p & Hp & Hcp)].
      * apply Hin in Hc' as [?|?]; [by left|].
        right. exists path. split; [apply list_elem_of_here|done].
      * right. exists p. split; [by apply list_elem_of_further|done].
    + split; [exact Hnd|]. by left.
Qed.

(** X3: whether it returns or raises, [compute_ancilla_cells] changes the
    lattice in two ways only: borders of existing patches go from their plain
    to their stitched type, and, when it returns, one Ancilla patch without
    borders and without repeated cells is appended.  No patch is removed,
    reordered or given other cells, state or identifier. *)
Theorem compute_ancilla_cells_only_stitches_and_appends (search : path_search)
    (lattice : Lattice) (m : OperatorMap) :
  exists ps',
    Forall2 patch_stitched_or_same (patches lattice) ps'
    ∧ ((exists e,
          compute_ancilla_cells search lattice m = Raised e (set_patches lattice ps'))
       ∨ (exists ancilla_cells,
            compute_ancilla_cells search lattice m
            = Returned (set_patches lattice
                          (ps' ++ [mkPatch Ancilla None ancilla_cells [] None]))
            ∧ NoDup ancilla_cells)).
Proof.
  unfold compute_ancilla_cells.
  destruct (route search lattice m) as [paths|e].
  - unfold add_ancilla_to_lattice_from_paths.
    pose proof (stitch_paths_only_stitched paths lattice []) as H.
    destruct (stitch_paths_cells paths lattice [] NoDup_nil_2) as [Hnd _].
    destruct (stitch_paths lattice [] paths) as [[l|e l] acc]; simpl in *.
    + destruct H as (ps' & -> & H). exists ps'. split; [exact H|]. right.
      by exists acc.
    + destruct H as (ps' & -> & H). exists ps'. split; [exact H|]. left. by exists e.
  - exists (patches lattice). split.
    + apply Forall_Forall2_diag, Forall_forall. intros p _.
      apply patch_stitched_or_same_refl.
    + left. exists e. by rewrite set_patches_id.
Qed.

Lemma findPatchOfCell_related (c : Cell) (ps ps' extra : list Patch) (i : nat)
    (p : Patch) :
  Forall2 patch_stitched_or_same ps ps' ->
  list_find (fun patch => c ∈ cells patch) ps = Some (i, p) ->
  exists p', list_find (fun patch => c ∈ cells patch) (ps' ++ extra) = Some (i, p')
             ∧ patch_stitched_or_same p p'.
Proof.
  intros H. revert i. induction H as [|q q' ps ps' Hq _ IH]; intros i Hf; [discriminate|].
  assert (Hc : cells q' = cells q) by (by destruct Hq as (es' & -> & _)).
  simpl in *. rewrite Hc. destruct (decide (c ∈ cells q)) as [Hin|Hin].
  - injection Hf as <- <-. by exists q'.
  - destruct (list_find _ ps) as [[j r]|] eqn:Hr; [|discriminate].
    simpl in Hf. injection Hf as <- <-.
    destruct (IH j eq_refl) as (p' & Hp' & Hpp). exists p'.
    rewrite Hp'. by simpl.
Qed.

(** X4: a cell that belongs to a patch before [compute_ancilla_cells]
    belongs afterwards, returned or raised, to a patch of the same type,
    cells, state and identifier, and has the same representative. *)
Theorem occupied_cells_keep_their_patch (search : path_search) (lattice : Lattice)
    (m : OperatorMap) (c : Cell) (p : Patch) :
  getPatchOfCell lattice c = Some p ->
  exists p',
    getPatchOfCell (lattice_of (compute_ancilla_cells search lattice m)) c = Some p'
    ∧ patch_type p' = patch_type p ∧ cells p' = cells p
    ∧ state p' = state p ∧ patch_uuid p' = patch_uuid p
    ∧ getPatchRepresentative (lattice_of (compute_ancilla_cells search lattice m)) c
      = getPatchRepresentative lattice c.
Proof.
  intros Hp. unfold getPatchRepresentative. rewrite Hp.
  unfold getPatchOfCell, findPatchOfCell in *.
  destruct (list_find _ (patches lattice)) as [[i q]|] eqn:Hf; [|discriminate].
  simpl in Hp. injection Hp as ->.
  pose proof (compute_ancilla_cells_frame search lattice m) as H.
  assert (exists ps' extra,
            patches (lattice_of (compute_ancilla_cells search lattice m)) = ps' ++ extra
            ∧ Forall2 patch_stitched_or_same (patches lattice) ps')
    as (ps' & extra & -> & Hps).
  { destruct (compute_ancilla_cells search lattice m) as [l|e l]; simpl.
    - destruct H as (l1 & cs & (ps' & -> & Hps) & ->). simpl. by eexists ps', [_].
    - destruct H as (ps' & -> & Hps). simpl. exists ps', []. by rewrite app_nil_r. }
  destruct (findPatchOfCell_related c _ ps' extra i p Hps Hf) as (p' & -> & Hpp).
  exists p'. simpl. destruct Hpp as (es' & -> & _). by repeat split.
Qed.

Lemma occupied_cells_keep_their_patch_witness :
  exists p',
    getPatchOfCell
      (lattice_of (compute_ancilla_cells igraph.get_shortest_paths
                     scenario_A_lattice scenario_A_request)) (4, 0) = Some p'
    ∧ patch_type p' = patch_type (square (4, 0)) ∧ cells p' = cells (square (4, 0))
    ∧ state p' = state (square (4, 0)) ∧ patch_uuid p' = patch_uuid (square (4, 0))
    ∧ getPatchRepresentative
        (lattice_of (compute_ancilla_cells igraph.get_shortest_paths
                       scenario_A_lattice scenario_A_request)) (4, 0)
      = getPatchRepresentative scenario_A_lattice (4, 0).
Proof.
  apply (occupied_cells_keep_their_patch igraph.get_shortest_paths
           scenario_A_lattice scenario_A_request (4, 0) (square (4, 0))).
  reflexivity.
Defined.

(** ** The grid and its cells *)

Lemma all_coords_nil (lattice : Lattice) (coord_type : CoordType) :
  all_coords lattice coord_type = []
  <-> Forall (fun p => cells p = []) (patches lattice).
Proof.
  unfold all_coords, getCoordList.
  induction (patches lattice) as [|p ps IH]; simpl.
  - split; [constructor|reflexivity].
  - split.
    + intros H. apply app_eq_nil in H as [Hp Hps].
      constructor; [by apply fmap_nil_inv in Hp|by apply IH].
    + intros H. apply Forall_cons in H as [-> Hps]. simpl. by apply IH.
Qed.

Lemma all_coords_elem (lattice : Lattice) (coord_type : CoordType) (p : Patch)
    (c : Cell) :
  p ∈ patches lattice -> c ∈ cells p -> coord coord_type c ∈ all_coords lattice coord_type.
Proof.
  intros Hp Hc. unfold all_coords, getCoordList.
  apply list_elem_of_In, in_concat. exists (map (coord coord_type) (cells p)). split.
  - apply (in_map (fun q => map (coord coord_type) (cells q))). by apply list_elem_of_In.
  - apply in_map. by apply list_elem_of_In.
Qed.

Lemma getMaxCoord_empty (lattice : Lattice) (coord_type : CoordType) :
  all_coords lattice coord_type = [] ->
  getMaxCoord lattice coord_type = Raise ValueError.
Proof.
  intros H. unfold getMaxCoord. fold (all_coords lattice coord_type). by rewrite H.
Qed.

Lemma getMaxCoord_cases (lattice : Lattice) (coord_type : CoordType) :
  (Forall (fun p => cells p = []) (patches lattice)
   ∧ getMaxCoord lattice coord_type = Raise ValueError)
  ∨ (exists m,
       is_max m (all_coords lattice coord_type)
       ∧ getMaxCoord lattice coord_type =
           Ok (Z.max (1 + m)
                 (if decide (coord_type = Row) then min_rows lattice
                  else min_cols lattice))).
Proof.
  destruct (decide (all_coords lattice coord_type = [])) as [H|H].
  - left. split; [by apply (all_coords_nil lattice coord_type)|by apply getMaxCoord_empty].
  - right. by apply getMaxCoord_nonempty.
Qed.

(** X5: [getRows] and [getCols] raise exactly when no patch of the
    lattice has a cell, both together, and the exception is [ValueError]. *)
Theorem getRows_getCols_raise (lattice : Lattice) :
  (getRows lattice = Raise ValueError
   <-> Forall (fun p => cells p = []) (patches lattice))
  ∧ (getCols lattice = Raise ValueError
     <-> Forall (fun p => cells p = []) (patches lattice))
  ∧ (forall e, getRows lattice = Raise e ∨ getCols lattice = Raise e -> e = ValueError).
Proof.
  unfold getRows, getCols.
  destruct (getMaxCoord_cases lattice Row) as [[Hr ->]|(mr & [Hinr _] & ->)];
    destruct (getMaxCoord_cases lattice Col) as [[Hc ->]|(mc & [Hinc _] & ->)].
  - repeat split; try done. intros e [[= <-]|[= <-]]; reflexivity.
  - apply (all_coords_nil lattice Col) in Hr. rewrite Hr in Hinc.
    by apply elem_of_nil in Hinc.
  - apply (all_coords_nil lattice Row) in Hc. rewrite Hc in Hinr.
    by apply elem_of_nil in Hinr.
  - assert (Hne : ¬ Forall (fun p => cells p = []) (patches lattice)).
    { intros H. apply (all_coords_nil lattice Row) in H. rewrite H in Hinr.
      by apply elem_of_nil in Hinr. }
    repeat split; try done. intros e [H|H]; discriminate.
Qed.

(** X6: when [getRows] and [getCols] return, the grid they describe is
    at least [min_rows] by [min_cols] and every cell of every patch lies below
    both bounds. *)
Theorem grid_holds_every_cell (lattice : Lattice) (rows cols : Z) :
  getRows lattice = Ok rows ->
  getCols lattice = Ok cols ->
  min_rows lattice <= rows
  ∧ min_cols lattice <= cols
  ∧ forall p c, p ∈ patches lattice -> c ∈ cells p -> fst c < cols ∧ snd c < rows.
Proof.
  unfold getRows, getCols. intros Hr Hc.
  destruct (getMaxCoord_cases lattice Row) as [[_ H]|(mr & [_ Hmr] & H)];
    rewrite H in Hr; [discriminate|]. injection Hr as <-.
  destruct (getMaxCoord_cases lattice Col) as [[_ H']|(mc & [_ Hmc] & H')];
    rewrite H' in Hc; [discriminate|]. injection Hc as <-.
  simpl. split; [lia|]. split; [lia|]. intros p c Hp Hcp.
  rewrite Forall_forall in Hmr, Hmc.
  pose proof (Hmr _ (all_coords_elem lattice Row p c Hp Hcp)) as H1.
  pose proof (Hmc _ (all_coords_elem lattice Col p c Hp Hcp)) as H2.
  simpl in H1, H2. lia.
Qed.

Lemma grid_holds_every_cell_witness :
  min_rows scenario_A_lattice <= 2
  ∧ min_cols scenario_A_lattice <= 7
  ∧ forall p c, p ∈ patches scenario_A_lattice -> c ∈ cells p -> fst c < 7 ∧ snd c < 2.
Proof.
  apply (grid_holds_every_cell scenario_A_lattice 2 7); reflexivity.
Defined.

(** ** The history of the composer *)

Lemma getSlices_insert_lookup (st : list Lattice) (ls : list nat) (l i li : nat)
    (lattice : Lattice) :
  Forall (fun l => (l < length st)%nat) ls ->
  (l < length st)%nat ->
  ls !! i = Some li ->
  getSlices {| store := <[l := lattice]> st; qubit_patch_slices := ls |} !! i
  = if decide (li = l) then Some lattice
    else getSlices {| store := st; qubit_patch_slices := ls |} !! i.
Proof.
  intros Hall Hl Hi.
  assert (Hli : (li < length st)%nat).
  { rewrite Forall_forall in Hall. apply Hall. by eapply list_elem_of_lookup_2. }
  assert (Hall' : Forall (fun k => (k < length (<[l := lattice]> st))%nat) ls)
    by (by rewrite length_insert).
  destruct (decide (li = l)) as [->|Hne].
  - apply (getSlices_lookup_Some {| store := <[l := lattice]> st;
                                    qubit_patch_slices := ls |} i l);
      [exact Hall'|exact Hi|]. simpl. by apply list_lookup_insert_eq.
  - destruct (lookup_lt_is_Some_2 st li Hli) as [x Hx].
    rewrite (getSlices_lookup_Some {| store := st; qubit_patch_slices := ls |}
               i li x Hall Hi Hx).
    apply (getSlices_lookup_Some {| store := <[l := lattice]> st;
                                    qubit_patch_slices := ls |} i li);
      [exact Hall'|exact Hi|]. simpl. by rewrite list_lookup_insert_ne.
Qed.

(** X7: a mutation of the last slice shows in exactly those slices
    of the history that refer to the lattice object of the last slice; every
    other slice reads as before. *)
Theorem mutation_reaches_exactly_the_aliases (search : path_search) (c : Composer)
    (mu : mutation) (l i li : nat) (lattice : Lattice) :
  wf c ->
  last (qubit_patch_slices c) = Some l ->
  store c !! l = Some lattice ->
  qubit_patch_slices c !! i = Some li ->
  getSlices (fst (apply_mutation search c mu)) !! i
  = if decide (li = l) then Some (lattice_of (effect search mu lattice))
    else getSlices c !! i.
Proof.
  intros Hwf Hlast Hl Hi. rewrite apply_mutation_on_last_slice.
  destruct (on_last_slice_wf (effect search mu) c Hwf) as (l' & lattice' & H1 & H2 & ->).
  rewrite Hlast in H1. injection H1 as <-. rewrite Hl in H2. injection H2 as <-.
  destruct Hwf as [_ Hall]. destruct c as [st ls]. simpl in *.
  apply getSlices_insert_lookup; [exact Hall| |exact Hi]. by eapply lookup_lt_Some.
Qed.

Lemma mutation_reaches_exactly_the_aliases_witness :
  let c := fst (initQubit (fst (newTimeSlice (init scenario_A_lattice)))) in
  getSlices (fst (apply_mutation igraph.get_shortest_paths c ClearLattice)) !! 0%nat
  = (if decide (0%nat = 1%nat)
     then Some (lattice_of (effect igraph.get_shortest_paths ClearLattice
                              scenario_A_lattice))
     else getSlices c !! 0%nat)
  ∧ getSlices (fst (apply_mutation igraph.get_shortest_paths c ClearLattice)) !! 1%nat
    = (if decide (1%nat = 1%nat)
       then Some (lattice_of (effect igraph.get_shortest_paths ClearLattice
                                scenario_A_lattice))
       else getSlices c !! 1%nat).
Proof.
  intros c. split.
  - apply (mutation_reaches_exactly_the_aliases igraph.get_shortest_paths c
             ClearLattice 1 0 0 scenario_A_lattice); try reflexivity.
    split; [discriminate|]. repeat constructor.
  - apply (mutation_reaches_exactly_the_aliases igraph.get_shortest_paths c
             ClearLattice 1 1 1 scenario_A_lattice); try reflexivity.
    split; [discriminate|]. repeat constructor.
Defined.

(** X8: on every composer a program can build, the history is not
    empty and every slice resolves to a lattice; [initQubit], [newTimeSlice],
    [clearAncilla] and [clearLattice] do not raise; [initQubit] and
    [newTimeSlice] give the same list of snapshots, one longer than before;
    the three mutations keep the length of the history. *)
Theorem reachable_history (search : path_search) (c : Composer) :
  reachable search c ->
  getSlices c ≠ []
  ∧ length (getSlices c) = length (qubit_patch_slices c)
  ∧ snd (initQubit c) = None
  ∧ snd (newTimeSlice c) = None
  ∧ snd (clearAncilla c) = None
  ∧ snd (clearLattice c) = None
  ∧ getSlices (fst (initQubit c)) = getSlices (fst (newTimeSlice c))
  ∧ length (getSlices (fst (newTimeSlice c))) = S (length (getSlices c))
  ∧ forall mu, length (getSlices (fst (apply_mutation search c mu)))
               = length (getSlices c).
Proof.
  intros Hr. pose proof (reachable_wf search c Hr) as Hwf.
  destruct (wf_last_slice c Hwf) as (l & lattice & H1 & H2 & H3).
  pose proof Hwf as [Hne Hall].
  pose proof (getSlices_length c Hall) as Hlen.
  assert (Hinit : getSlices (fst (initQubit c)) = getSlices c ++ [lattice]).
  { unfold initQubit. rewrite H1. unfold getSlices. simpl.
    rewrite omap_app. simpl. by rewrite H3. }
  assert (Hnew : getSlices (fst (newTimeSlice c)) = getSlices c ++ [lattice]).
  { unfold newTimeSlice. rewrite H1, H3. simpl. destruct c as [st ls].
    by apply getSlices_extend. }
  split; [|split; [exact Hlen|]].
  { intros H. rewrite H in Hlen. simpl in Hlen.
    by destruct (qubit_patch_slices c). }
  split; [unfold initQubit; by rewrite H1|].
  split; [unfold newTimeSlice; by rewrite H1, H3|].
  split; [unfold clearAncilla, on_last_slice; by rewrite H1, H3|].
  split; [unfold clearLattice, on_last_slice; by rewrite H1, H3|].
  split; [by rewrite Hinit, Hnew|].
  split; [rewrite Hnew, length_app; simpl; lia|].
  intros mu. rewrite getSlices_length.
  - rewrite Hlen, apply_mutation_on_last_slice.
    by destruct (on_last_slice_wf (effect search mu) c Hwf) as (? & ? & _ & _ & ->).
  - by apply wf_apply_mutation.
Qed.

Lemma reachable_history_witness :
  let c := init scenario_A_lattice in
  getSlices c ≠ []
  ∧ length (getSlices c) = length (qubit_patch_slices c)
  ∧ snd (initQubit c) = None
  ∧ snd (newTimeSlice c) = None
  ∧ snd (clearAncilla c) = None
  ∧ snd (clearLattice c) = None
  ∧ getSlices (fst (initQubit c)) = getSlices (fst (newTimeSlice c))
  ∧ length (getSlices (fst (newTimeSlice c))) = S (length (getSlices c))
  ∧ forall mu, length (getSlices (fst (apply_mutation igraph.get_shortest_paths c mu)))
               = length (getSlices c).
Proof.
  apply (reachable_history igraph.get_shortest_paths (init scenario_A_lattice)).
  apply reachable_init.
Defined.

(** ** A lattice without cells *)

Lemma getPatchOfCell_no_cells (lattice : Lattice) (c : Cell) :
  Forall (fun p => cells p = []) (patches lattice) -> getPatchOfCell lattice c = None.
Proof.
  intros H. unfold getPatchOfCell, findPatchOfCell.
  replace (list_find _ (patches lattice)) with (@None (nat * Patch)); [reflexivity|].
  symmetry. apply list_find_None. eapply Forall_impl; [exact H|].
  simpl. intros p -> Hc. by apply elem_of_nil in Hc.
Qed.

Lemma compute_ancilla_cells_no_cells (search : path_search) (lattice : Lattice)
    (m : OperatorMap) :
  Forall (fun p => cells p = []) (patches lattice) ->
  compute_ancilla_cells search lattice m = Raised ValueError lattice.
Proof.
  intros H. unfold compute_ancilla_cells, route, search_graph.
  assert (Hk : keys_are_representatives lattice m = true).
  { unfold keys_are_representatives. apply forallb_forall. intros c _.
    apply bool_decide_eq_true. unfold getPatchRepresentative.
    by rewrite getPatchOfCell_no_cells. }
  rewrite Hk. simpl. unfold make_graph_of_free_cells, getRows.
  rewrite getMaxCoord_empty; [reflexivity|]. by apply all_coords_nil.
Qed.

(** X9: [clearLattice] empties the last snapshot, so that every
    cell is free; a [measureMultiPatch] that follows raises [ValueError] for
    any request and leaves the composer as [clearLattice] left it. *)
Theorem measure_after_clearLattice (search : path_search) (c : Composer)
    (m : OperatorMap) :
  wf c ->
  exists lattice,
    last (getSlices c) = Some lattice
    ∧ last (getSlices (fst (clearLattice c))) = Some (clear lattice)
    ∧ (forall cell, cellIsFree (clear lattice) cell = true)
    ∧ measureMultiPatch search (fst (clearLattice c)) m
      = (fst (clearLattice c), Some ValueError).
Proof.
  intros Hwf. destruct (on_last_slice_wf (fun l => Returned (clear l)) c Hwf)
    as (l & lattice & H1 & H2 & Hc).
  pose proof (wf_on_last_slice (fun l => Returned (clear l)) c Hwf) as Hwf'.
  unfold clearLattice. rewrite Hc in *. simpl in *.
  pose proof Hwf as [_ Hall]. pose proof Hwf' as [_ Hall'].
  assert (Hlt : (l < length (store c))%nat) by (by eapply lookup_lt_Some).
  exists lattice. split; [by apply (getSlices_last c l)|].
  assert (H2' : <[l := clear lattice]> (store c) !! l = Some (clear lattice))
    by (by apply list_lookup_insert_eq).
  split.
  { by apply (getSlices_last {| store := <[l := clear lattice]> (store c);
                                qubit_patch_slices := qubit_patch_slices c |} l). }
  split; [reflexivity|].
  unfold measureMultiPatch.
  destruct (on_last_slice_wf (fun l => compute_ancilla_cells search l m) _ Hwf')
    as (l' & lattice' & H1' & H2'' & ->). simpl in *.
  rewrite H1 in H1'. injection H1' as <-. rewrite H2' in H2''. injection H2'' as <-.
  rewrite compute_ancilla_cells_no_cells by constructor. simpl.
  by rewrite list_insert_insert_eq.
Qed.

Lemma measure_after_clearLattice_witness :
  exists lattice,
    last (getSlices (init scenario_A_lattice)) = Some lattice
    ∧ last (getSlices (fst (clearLattice (init scenario_A_lattice)))) = Some (clear lattice)
    ∧ (forall cell, cellIsFree (clear lattice) cell = true)
    ∧ measureMultiPatch igraph.get_shortest_paths
        (fst (clearLattice (init scenario_A_lattice))) scenario_A_request
      = (fst (clearLattice (init scenario_A_lattice)), Some ValueError).
Proof.
  apply (measure_after_clearLattice igraph.get_shortest_paths
           (init scenario_A_lattice) scenario_A_request).
  split; [discriminate|]. repeat constructor.
Defined.

(** ** Cells and their patches *)

Lemma getPatchOfCell_Some (lattice : Lattice) (c : Cell) (p : Patch) :
  getPatchOfCell lattice c = Some p -> p ∈ patches lattice ∧ c ∈ cells p.
Proof.
  unfold getPatchOfCell, findPatchOfCell.
  destruct (list_find _ (patches lattice)) as [[i q]|] eqn:Hf; [|discriminate].
  intros [= <-]. apply list_find_Some in Hf as (Hi & Hc & _).
  split; [by eapply list_elem_of_lookup_2|exact Hc].
Qed.

Lemma disjoint_cells_owner (lattice : Lattice) (p : Patch) (c : Cell) :
  disjoint_cells lattice -> p ∈ patches lattice -> c ∈ cells p ->
  getPatchOfCell lattice c = Some p.
Proof.
  unfold disjoint_cells, getPatchOfCell, findPatchOfCell.
  induction (patches lattice) as [|q ps IH]; intros Hnd Hp Hc.
  - by apply elem_of_nil in Hp.
  - simpl in Hnd. apply NoDup_app in Hnd as (_ & Hdis & Hnd).
    simpl. destruct (decide (c ∈ cells q)) as [Hq|Hq].
    + apply elem_of_cons in Hp as [->|Hp]; [reflexivity|].
      exfalso. apply (Hdis c Hq). apply list_elem_of_In, in_concat.
      exists (cells p). split; [|by apply list_elem_of_In].
      apply in_map. by apply list_elem_of_In.
    + apply elem_of_cons in Hp as [->|Hp]; [done|].
      specialize (IH Hnd Hp Hc).
      destruct (list_find _ ps) as [[i r]|]; [|discriminate].
      simpl in *. by injection IH as ->.
Qed.

(** X10: on a lattice where no cell belongs to two patches,
    every cell of a patch is owned by that patch, has the first cell of the
    patch as its representative, the representative is its own
    representative, and the cells of the patch are exactly the occupied cells
    with that representative. *)
Theorem representative_of_disjoint_lattice (lattice : Lattice) (p : Patch) (c : Cell) :
  disjoint_cells lattice ->
  p ∈ patches lattice ->
  c ∈ cells p ->
  getPatchOfCell lattice c = Some p
  ∧ patchTypeOfCell lattice c = Some (patch_type p)
  ∧ getRepresentative p = Ok (getPatchRepresentative lattice c)
  ∧ getPatchRepresentative lattice (getPatchRepresentative lattice c)
    = getPatchRepresentative lattice c
  ∧ forall d, d ∈ cells p
              <-> cellIsFree lattice d = false
                  ∧ getPatchRepresentative lattice d = getPatchRepresentative lattice c.
Proof.
  intros Hnd Hp Hc.
  assert (Hown : forall d, d ∈ cells p -> getPatchOfCell lattice d = Some p)
    by (intros d Hd; by apply disjoint_cells_owner).
  assert (exists h cs, cells p = h :: cs) as (h & cs & Hcells).
  { destruct (cells p) as [|h cs]; [by apply elem_of_nil in Hc|by exists h, cs]. }
  assert (Hrep : forall d, d ∈ cells p -> getPatchRepresentative lattice d = h).
  { intros d Hd. unfold getPatchRepresentative. by rewrite (Hown d Hd), Hcells. }
  assert (Hh : h ∈ cells p) by (rewrite Hcells; apply list_elem_of_here).
  unfold patchTypeOfCell, getRepresentative. rewrite (Hown c Hc), Hcells.
  rewrite (Hrep c Hc), (Hrep h Hh).
  split; [reflexivity|]. split; [reflexivity|]. split; [reflexivity|].
  split; [reflexivity|]. intros d. rewrite <- Hcells. split.
  - intros Hd. split; [|by apply Hrep].
    unfold cellIsFree. by rewrite (Hown d Hd).
  - intros [Hfree Hd]. unfold cellIsFree, getPatchRepresentative in *.
    destruct (getPatchOfCell lattice d) as [q|] eqn:Hq; [|discriminate].
    apply getPatchOfCell_Some in Hq as [Hq Hdq].
    assert (Hhq : h ∈ cells q).
    { destruct (cells q) as [|h' cs']; [by apply elem_of_nil in Hdq|].
      simpl in Hd. subst h'. apply list_elem_of_here. }
    pose proof (disjoint_cells_owner lattice q h Hnd Hq Hhq) as H1.
    rewrite (Hown h Hh) in H1. by injection H1 as ->.
Qed.

Lemma representative_of_disjoint_lattice_witness :
  getPatchOfCell tall_lattice (0, 1) = Some tall_patch
  ∧ patchTypeOfCell tall_lattice (0, 1) = Some (patch_type tall_patch)
  ∧ getRepresentative tall_patch = Ok (getPatchRepresentative tall_lattice (0, 1))
  ∧ getPatchRepresentative tall_lattice (getPatchRepresentative tall_lattice (0, 1))
    = getPatchRepresentative tall_lattice (0, 1)
  ∧ forall d, d ∈ cells tall_patch
              <-> cellIsFree tall_lattice d = false
                  ∧ getPatchRepresentative tall_lattice d
                    = getPatchRepresentative tall_lattice (0, 1).
Proof.
  apply (representative_of_disjoint_lattice tall_lattice tall_patch (0, 1)).
  - apply (bool_decide_unpack _). vm_compute. exact Logic.I.
  - apply list_elem_of_here.
  - apply list_elem_of_further, list_elem_of_here.
Defined.

(** X11: [cellIsFree], [getPatchOfCell] and [patchTypeOfCell]
    agree on which cells are free, a free cell is its own representative, and
    the patch that [getPatchOfCell] returns is the first one of the list that
    has the cell. *)
Theorem cell_queries_agree (lattice : Lattice) (c : Cell) :
  (cellIsFree lattice c = true
   <-> Forall (fun p => c ∉ cells p) (patches lattice))
  ∧ (cellIsFree lattice c = true <-> getPatchOfCell lattice c = None)
  ∧ (cellIsFree lattice c = true <-> patchTypeOfCell lattice c = None)
  ∧ (cellIsFree lattice c = true -> getPatchRepresentative lattice c = c)
  ∧ forall p,
      getPatchOfCell lattice c = Some p ->
      exists before after,
        patches lattice = before ++ p :: after
        ∧ Forall (fun q => c ∉ cells q) before
        ∧ c ∈ cells p.
Proof.
  unfold cellIsFree, patchTypeOfCell, getPatchRepresentative, getPatchOfCell,
    findPatchOfCell.
  destruct (list_find _ (patches lattice)) as [[i q]|] eqn:Hf; simpl.
  - apply list_find_Some in Hf as (Hi & Hc & Hbefore).
    split; [split; [discriminate|]|].
    { intros H. rewrite Forall_forall in H. exfalso.
      apply (H q); [by eapply list_elem_of_lookup_2|exact Hc]. }
    split; [split; discriminate|]. split; [split; discriminate|].
    split; [discriminate|]. intros p [= <-].
    exists (take i (patches lattice)), (drop (S i) (patches lattice)).
    split; [|split; [|exact Hc]].
    + by rewrite <- (take_drop_middle _ _ _ Hi) at 1.
    + apply Forall_forall. intros r Hr.
      apply list_elem_of_lookup in Hr as [j Hj].
      pose proof (lookup_lt_Some _ _ _ Hj) as Hlt.
      rewrite lookup_take_lt in Hj by (rewrite length_take in Hlt; lia).
      apply (Hbefore j r Hj). rewrite length_take in Hlt. lia.
  - apply list_find_None in Hf.
    split; [split; [intros _; exact Hf|reflexivity]|].
    split; [done|]. split; [done|]. split; [done|]. discriminate.
Qed.

(** ** Patch identifiers *)

(** X12: [getPatchByUuid] finds nothing for the identifier [None]; for
    any other identifier it returns a patch of the lattice that carries it, and
    returns [None] only when no patch carries it. *)
Theorem getPatchByUuid_finds_the_identifier (lattice : Lattice) :
  getPatchByUuid lattice None = None
  ∧ forall u,
      match getPatchByUuid lattice (Some u) with
      | Some p => p ∈ patches lattice ∧ patch_uuid p = Some u
      | None => Forall (fun p => patch_uuid p ≠ Some u) (patches lattice)
      end.
Proof.
  unfold getPatchByUuid. split.
  - replace (list_find _ (patches lattice)) with (@None (nat * Patch)); [reflexivity|].
    symmetry. apply list_find_None, Forall_forall. intros p _ [H1 H2]. by apply H1.
  - intros u. destruct (list_find _ (patches lattice)) as [[i q]|] eqn:Hf; simpl.
    + apply list_find_Some in Hf as (Hi & [_ Hu] & _).
      split; [by eapply list_elem_of_lookup_2|exact Hu].
    + apply list_find_None in Hf. eapply Forall_impl; [exact Hf|].
      simpl. intros p Hp Hu. apply Hp. split; [by rewrite Hu|exact Hu].
Qed.

Lemma findPatchOfCell_same_cells (c : Cell) (ps ps' : list Patch) :
  Forall2 (fun p p' => cells p' = cells p) ps ps' ->
  match list_find (fun patch => c ∈ cells patch) ps,
        list_find (fun patch => c ∈ cells patch) ps' with
  | Some (i, p), Some (i', p') => i' = i ∧ cells p' = cells p
  | None, None => True
  | _, _ => False
  end.
Proof.
  induction 1 as [|q q' ps ps' Hq _ IH]; [exact Logic.I|].
  simpl. rewrite Hq. destruct (decide (c ∈ cells q)); [done|].
  destruct (list_find _ ps) as [[i p]|], (list_find _ ps') as [[i' p']|]; simpl;
    try done. destruct IH as [-> IH]. done.
Qed.

(** X13: once [set_uuid] has given a patch of the lattice an
    identifier that no patch carried, [getPatchByUuid] finds that patch by it;
    which cells are free and the representatives are as before. *)
Theorem set_uuid_then_getPatchByUuid (lattice : Lattice) (i : nat) (p : Patch) (u : N) :
  patches lattice !! i = Some p ->
  Forall (fun q => patch_uuid q ≠ Some u) (patches lattice) ->
  let lattice' :=
    set_patches lattice (<[i := set_uuid p (Some u)]> (patches lattice)) in
  getPatchByUuid lattice' (Some u) = Some (set_uuid p (Some u))
  ∧ forall c,
      cellIsFree lattice' c = cellIsFree lattice c
      ∧ getPatchRepresentative lattice' c = getPatchRepresentative lattice c.
Proof.
  intros Hi Hall lattice'. subst lattice'. split.
  - unfold getPatchByUuid. simpl.
    assert (Hlt : (i < length (patches lattice))%nat) by (by eapply lookup_lt_Some).
    replace (list_find _ (<[i := set_uuid p (Some u)]> (patches lattice)))
      with (Some (i, set_uuid p (Some u))); [reflexivity|].
    symmetry. apply list_find_Some. split; [by apply list_lookup_insert_eq|].
    split; [by split|]. intros j q Hj Hji [_ Hq].
    rewrite list_lookup_insert_ne in Hj by lia.
    rewrite Forall_forall in Hall. apply (Hall q); [|exact Hq].
    by eapply list_elem_of_lookup_2.
  - intros c.
    assert (H : Forall2 (fun p p' => cells p' = cells p) (patches lattice)
                  (<[i := set_uuid p (Some u)]> (patches lattice))).
    { apply Forall2_same_length_lookup. split; [by rewrite length_insert|].
      intros j q q' Hq Hq'. destruct (decide (j = i)) as [->|Hne].
      - rewrite list_lookup_insert_eq in Hq' by (by eapply lookup_lt_Some).
        injection Hq' as <-. rewrite Hi in Hq. by injection Hq as <-.
      - rewrite list_lookup_insert_ne in Hq' by done. congruence. }
    pose proof (findPatchOfCell_same_cells c _ _ H) as Hf.
    unfold cellIsFree, getPatchRepresentative, getPatchOfCell, findPatchOfCell. simpl.
    destruct (list_find _ (patches lattice)) as [[j q]|],
      (list_find _ (<[i := set_uuid p (Some u)]> (patches lattice))) as [[j' q']|];
      simpl; try done. destruct Hf as [_ ->]. done.
Qed.

Lemma set_uuid_then_getPatchByUuid_witness :
  let lattice' :=
    set_patches scenario_A_lattice
      (<[1%nat := set_uuid (square (4, 0)) (Some 7%N)]> (patches scenario_A_lattice)) in
  getPatchByUuid lattice' (Some 7%N) = Some (set_uuid (square (4, 0)) (Some 7%N))
  ∧ forall c,
      cellIsFree lattice' c = cellIsFree scenario_A_lattice c
      ∧ getPatchRepresentative lattice' c = getPatchRepresentative scenario_A_lattice c.
Proof.
  apply (set_uuid_then_getPatchByUuid scenario_A_lattice 1 (square (4, 0)) 7%N).
  - reflexivity.
  - repeat constructor; discriminate.
Defined.

(** ** Borders and orientations *)

(** X14: [unstitched_type] undoes [stitched_type] on the plain
    types and on [AncillaJoin], [stitched_type] undoes [unstitched_type] on
    the stitched ones and on [AncillaJoin]; a border of an unstitched type is
    never stitched, and a border of a stitched type is stitched unless it is an
    [AncillaJoin]. *)
Theorem stitched_unstitched_round_trip (t : EdgeType) :
  unstitched_type (stitched_type t) = unstitched_type t
  ∧ stitched_type (unstitched_type t) = stitched_type t
  ∧ (unstitched_type (stitched_type t) = t <-> t ≠ SolidStiched ∧ t ≠ DashedStiched)
  ∧ (stitched_type (unstitched_type t) = t <-> t ≠ Solid ∧ t ≠ Dashed)
  ∧ forall c o,
      isStiched (mkEdge (unstitched_type t) c o) = false
      ∧ (isStiched (mkEdge (stitched_type t) c o) = true <-> t ≠ AncillaJoin).
Proof.
  destruct t; simpl; repeat split; try done; try (intros []; done).
Qed.

Lemma get_border_orientation_Ok (subject neighbour : Cell) (o : Orientation) :
  get_border_orientation subject neighbour = Ok o
  <-> getNeighbouringCell (mkEdge Solid subject o) = neighbour.
Proof.
  destruct subject as [col row], neighbour as [col' row'].
  unfold get_border_orientation, getNeighbouringCell. simpl.
  repeat (destruct (decide _) as [[= ? ?]|?]);
    destruct o; split; intros Heq; try discriminate Heq; try reflexivity;
    try (f_equal; lia);
    injection Heq as ? ?; try lia;
    exfalso; match goal with Hn : _ ≠ _ |- _ => apply Hn; f_equal; lia end.
Qed.

(** X15: [get_border_orientation] inverts [getNeighbouringCell]:
    it returns the orientation of exactly those borders of the subject that
    face the neighbour; [get_graph_edge] pairs the cell of a border with the
    cell it faces; the only exception is [KeyError], raised exactly when the
    second cell is not one of the four neighbours of the first. *)
Theorem get_border_orientation_of_neighbour (subject neighbour : Cell) :
  (forall t o,
     getNeighbouringCell (mkEdge t subject o) = neighbour
     <-> get_border_orientation subject neighbour = Ok o)
  ∧ (forall e,
       get_border_orientation (cell e) (getNeighbouringCell e) = Ok (orientation e)
       ∧ get_graph_edge e = (cell e, getNeighbouringCell e))
  ∧ (get_border_orientation subject neighbour = Raise KeyError
     <-> neighbour ∉ neighbours4 (fst subject) (snd subject))
  ∧ forall ex, get_border_orientation subject neighbour = Raise ex -> ex = KeyError.
Proof.
  split; [|split; [|split]].
  - intros t o. by rewrite get_border_orientation_Ok.
  - intros [t c o]. simpl. split.
    + by apply get_border_orientation_Ok.
    + unfold get_graph_edge, getNeighbouringCell. simpl. by destruct c, o.
  - destruct subject as [col row], neighbour as [col' row'].
    unfold get_border_orientation, neighbours4. simpl.
    rewrite !not_elem_of_cons.
    repeat (destruct (decide _) as [[= ? ?]|?]); split; try discriminate;
      try (intros (H1 & H2 & H3 & H4 & _); exfalso;
           first [apply H1; f_equal; lia | apply H2; f_equal; lia
                 | apply H3; f_equal; lia | apply H4; f_equal; lia]).
    + intros _. repeat split;
        try (intros [= ? ?];
             match goal with H : _ ≠ _ |- _ => apply H; f_equal; lia end).
      apply not_elem_of_nil.
    + reflexivity.
  - intros ex. unfold get_border_orientation.
    repeat (destruct (decide _)); try discriminate. by intros [= <-].
Qed.

Lemma neighbours4_spec (a b : Cell) :
  b ∈ neighbours4 (fst a) (snd a)
  <-> Z.abs (fst b - fst a) + Z.abs (snd b - snd a) = 1.
Proof.
  destruct a as [col row], b as [col' row']. unfold neighbours4. simpl.
  rewrite !elem_of_cons, elem_of_nil. split.
  - intros [[= -> ->]|[[= -> ->]|[[= -> ->]|[[= -> ->]|[]]]]]; lia.
  - intros H.
    destruct (decide (col' = col)) as [->|?].
    + destruct (decide (row' = row + 1)) as [->|?]; [by left|].
      right. left. f_equal. lia.
    + right. right. destruct (decide (col' = col + 1)) as [->|?].
      * left. f_equal. lia.
      * right. left. f_equal; lia.
Qed.

Lemma get_border_orientation_neighbour (subject neighbour : Cell) :
  neighbour ∈ neighbours4 (fst subject) (snd subject) ->
  exists o, get_border_orientation subject neighbour = Ok o.
Proof.
  destruct subject as [col row]. unfold neighbours4. simpl.
  rewrite !elem_of_cons, elem_of_nil.
  intros [->|[->|[->|[->|[]]]]];
    [exists Bottom|exists Top|exists Right|exists Left];
    by apply get_border_orientation_Ok.
Qed.

Lemma get_border_orientation_cases (subject neighbour : Cell) :
  (exists o, get_border_orientation subject neighbour = Ok o
             ∧ neighbour ∈ neighbours4 (fst subject) (snd subject))
  ∨ (get_border_orientation subject neighbour = Raise KeyError
     ∧ neighbour ∉ neighbours4 (fst subject) (snd subject)).
Proof.
  destruct (get_border_orientation subject neighbour) as [o|ex] eqn:H.
  - left. exists o. split; [reflexivity|].
    apply get_border_orientation_Ok in H. rewrite <- H.
    destruct subject as [col row]. unfold getNeighbouringCell, neighbours4. simpl.
    destruct o; rewrite !elem_of_cons; auto.
  - right. assert (ex = KeyError) as ->.
    { revert H. unfold get_border_orientation.
      repeat (destruct (decide _)); try discriminate. by intros [= <-]. }
    split; [reflexivity|]. intros Hn.
    destruct (get_border_orientation_neighbour _ _ Hn) as [o Ho]. congruence.
Qed.

Lemma borders_inner_Ok (from_cell to_cell : Cell) (o : Orientation) (es acc : list Edge) :
  get_border_orientation from_cell to_cell = Ok o ->
  foldM (fun edges_between edge =>
      if bool_decide (cell edge = from_cell)
      then
        o ← get_border_orientation from_cell to_cell;
        Ok (if bool_decide (orientation edge = o)
            then edges_between ++ [edge]
            else edges_between)
      else Ok edges_between) es acc
  = Ok (acc ++ filter (fun e => cell e = from_cell ∧ getNeighbouringCell e = to_cell) es).
Proof.
  intros Ho. rewrite Ho. unfold mbind, result_bind. cbv beta iota.
  revert acc. induction es as [|e es IH]; intros acc.
  - simpl. by rewrite app_nil_r.
  - cbn [foldM]. unfold mbind, result_bind.
    destruct (decide (cell e = from_cell)) as [Hc|Hc];
      [rewrite (bool_decide_eq_true_2 _ Hc)|rewrite (bool_decide_eq_false_2 _ Hc)].
    + case_bool_decide as Hor.
      * rewrite IH. rewrite filter_cons_True.
        -- by rewrite <- app_assoc.
        -- split; [exact Hc|]. apply get_border_orientation_Ok in Ho.
           rewrite <- Ho, <- Hc, <- Hor. by destruct e.
      * rewrite IH. rewrite filter_cons_False; [reflexivity|].
        intros [_ Hn]. apply Hor.
        assert (H : get_border_orientation (cell e) to_cell = Ok (orientation e)).
        { apply get_border_orientation_Ok. rewrite <- Hn. by destruct e. }
        rewrite Hc in H. congruence.
    + rewrite IH. rewrite filter_cons_False; [reflexivity|]. by intros [? _].
Qed.

Lemma borders_inner_Raise (from_cell to_cell : Cell) (es acc : list Edge) :
  get_border_orientation from_cell to_cell = Raise KeyError ->
  foldM (fun edges_between edge =>
      if bool_decide (cell edge = from_cell)
      then
        o ← get_border_orientation from_cell to_cell;
        Ok (if bool_decide (orientation edge = o)
            then edges_between ++ [edge]
            else edges_between)
      else Ok edges_between) es acc
  = if bool_decide (Exists (fun e => cell e = from_cell) es)
    then Raise KeyError else Ok acc.
Proof.
  intros Ho. rewrite Ho. unfold mbind, result_bind. cbv beta iota.
  induction es as [|e es IH].
  - cbn [foldM]. rewrite bool_decide_eq_false_2; [reflexivity|]. by intros H%Exists_nil.
  - cbn [foldM]. unfold mbind, result_bind.
    destruct (decide (cell e = from_cell)) as [Hc|Hc];
      [rewrite (bool_decide_eq_true_2 _ Hc)|rewrite (bool_decide_eq_false_2 _ Hc)].
    + rewrite bool_decide_eq_true_2; [reflexivity|]. by left.
    + rewrite IH.
      destruct (decide (Exists (fun e => cell e = from_cell) es)) as [H|H].
      * rewrite !bool_decide_eq_true_2; [reflexivity|by right|exact H].
      * rewrite !bool_decide_eq_false_2; [reflexivity| |exact H].
        intros H'. apply Exists_cons in H' as [?|?]; done.
Qed.

Lemma borders_loop (p : Patch) (to_cell : Cell) (from_cells : list Cell)
    (acc : list Edge) :
  foldM (fun edges_between from_cell =>
    foldM (fun edges_between edge =>
      if bool_decide (cell edge = from_cell)
      then
        o ← get_border_orientation from_cell to_cell;
        Ok (if bool_decide (orientation edge = o)
            then edges_between ++ [edge]
            else edges_between)
      else Ok edges_between) (edges p) edges_between) from_cells acc
  = if bool_decide (borders_defined p to_cell from_cells)
    then Ok (acc ++ edges_between p to_cell from_cells)
    else Raise KeyError.
Proof.
  unfold borders_defined, edges_between. revert acc.
  induction from_cells as [|from_cell rest IH]; intros acc.
  - simpl. rewrite bool_decide_eq_true_2; [by rewrite app_nil_r|].
    apply Forall_forall. intros e _ H. by apply elem_of_nil in H.
  - cbn [foldM flat_map].
    destruct (get_border_orientation_cases from_cell to_cell)
      as [(o & Ho & Hn)|[Ho Hn]].
    + rewrite (borders_inner_Ok _ _ o _ _ Ho). unfold mbind at 1, result_bind.
      rewrite IH. rewrite <- app_assoc.
      apply (f_equal (fun b : bool => if b then _ else _)).
      apply bool_decide_ext. rewrite !Forall_forall. split.
      * intros H e He Hc. apply elem_of_cons in Hc as [->|Hc]; [exact Hn|by apply H].
      * intros H e He Hc. apply H; [exact He|by right].
    + rewrite (borders_inner_Raise _ _ _ _ Ho).
      destruct (decide (Exists (fun e => cell e = from_cell) (edges p))) as [Hex|Hex];
        [rewrite (bool_decide_eq_true_2 _ Hex)|rewrite (bool_decide_eq_false_2 _ Hex)].
      * unfold mbind at 1, result_bind.
        rewrite bool_decide_eq_false_2; [reflexivity|].
        intros H. apply Exists_exists in Hex as (e & He & Hc).
        rewrite Forall_forall in H. apply Hn. rewrite <- Hc. apply (H e He).
        rewrite Hc. by left.
      * unfold mbind at 1, result_bind. rewrite IH.
        assert (Hnone : Forall (fun e => cell e ≠ from_cell) (edges p)).
        { apply Forall_forall. intros e He Hc. apply Hex, Exists_exists. by exists e. }
        assert (Hnil : filter (fun e => cell e = from_cell
                                        ∧ getNeighbouringCell e = to_cell) (edges p) = []).
        { clear -Hnone. induction Hnone as [|e es He _ IH]; [reflexivity|].
          rewrite filter_cons_False; [exact IH|]. by intros [? _]. }
        rewrite Hnil. simpl.
        apply (f_equal (fun b : bool => if b then _ else _)).
        apply bool_decide_ext. rewrite !Forall_forall in *. split.
        -- intros H e He Hc. apply elem_of_cons in Hc as [Hc|Hc]; [|by apply H].
           by destruct (Hnone e He).
        -- intros H e He Hc. apply H; [exact He|by right].
Qed.

(** X16: [Patch.borders] returns, cell by cell of the patch, the
    borders on that cell that face [to_cell], provided every border that sits
    on a cell of the patch sits on a neighbour of [to_cell]; otherwise it
    raises [KeyError]. *)
Theorem borders_between_patch_and_cell (p : Patch) (to_cell : Cell) :
  borders p to_cell
  = if bool_decide (borders_defined p to_cell (cells p))
    then Ok (edges_between p to_cell (cells p))
    else Raise KeyError.
Proof. unfold borders. by rewrite borders_loop. Qed.

(** X17: on a patch that has borders on two neighbouring cells
    of its own, such as the two-cell patches of the distillery,
    [Patch.borders] raises [KeyError] for every [to_cell]. *)
Theorem borders_raises_on_adjacent_cells (p : Patch) (e1 e2 : Edge) (to_cell : Cell) :
  e1 ∈ edges p -> e2 ∈ edges p ->
  cell e1 ∈ cells p -> cell e2 ∈ cells p ->
  cell e2 ∈ neighbours4 (fst (cell e1)) (snd (cell e1)) ->
  borders p to_cell = Raise KeyError.
Proof.
  intros He1 He2 Hc1 Hc2 Hadj. unfold borders. rewrite borders_loop.
  rewrite bool_decide_eq_false_2; [reflexivity|]. unfold borders_defined.
  rewrite Forall_forall. intros H.
  pose proof (H e1 He1 Hc1) as H1. pose proof (H e2 He2 Hc2) as H2.
  apply neighbours4_spec in H1, H2, Hadj. lia.
Qed.

Lemma borders_raises_on_adjacent_cells_witness :
  borders tall_patch (1, 0) = Raise KeyError.
Proof.
  apply (borders_raises_on_adjacent_cells tall_patch
           (mkEdge Solid (0, 0) Top) (mkEdge Dashed (0, 1) Left) (1, 0)).
  - apply list_elem_of_here.
  - do 3 apply list_elem_of_further. apply list_elem_of_here.
  - apply list_elem_of_here.
  - apply list_elem_of_further, list_elem_of_here.
  - apply list_elem_of_here.
Defined.

(** ** The graph of free cells *)

Lemma elem_of_range (x n : Z) : x ∈ range n <-> 0 <= x < n.
Proof.
  unfold range. rewrite list_elem_of_fmap. split.
  - intros (y & -> & Hy). apply elem_of_seq in Hy. lia.
  - intros H. exists (Z.to_nat x). split; [lia|]. apply elem_of_seq. lia.
Qed.

Lemma NoDup_range (n : Z) : NoDup (range n).
Proof. unfold range. apply NoDup_fmap_2; [apply Nat2Z.inj'|apply NoDup_seq]. Qed.

Lemma elem_of_grid (c : Cell) (rows cols : Z) :
  c ∈ grid rows cols <-> 0 <= fst c < cols ∧ 0 <= snd c < rows.
Proof.
  unfold grid. rewrite list_elem_of_In, in_flat_map. split.
  - intros (row & Hrow & Hc). apply list_elem_of_In, elem_of_range in Hrow.
    apply list_elem_of_In, list_elem_of_fmap in Hc as (col & -> & Hcol).
    apply elem_of_range in Hcol. simpl. lia.
  - intros [Hcol Hrow]. exists (snd c). split.
    + by apply list_elem_of_In, elem_of_range.
    + apply list_elem_of_In, list_elem_of_fmap. exists (fst c).
      split; [by destruct c|by apply elem_of_range].
Qed.

Lemma NoDup_rows (rs cs : list Z) :
  NoDup rs -> NoDup cs ->
  NoDup (flat_map (fun row => map (fun col => (col, row)) cs) rs).
Proof.
  intros Hrs Hcs. induction Hrs as [|row rs Hrow Hrs IH]; simpl; [constructor|].
  apply NoDup_app. split; [|split; [|exact IH]].
  - apply NoDup_fmap_2; [|exact Hcs]. by intros ? ? [= ->].
  - intros c Hc Hc'. apply list_elem_of_fmap in Hc as (col & -> & _).
    apply list_elem_of_In, in_flat_map in Hc' as (row' & Hrow' & Hc').
    apply list_elem_of_In, list_elem_of_fmap in Hc' as (col' & [= -> ->] & _).
    by apply list_elem_of_In in Hrow'.
Qed.

Lemma NoDup_grid (rows cols : Z) : NoDup (grid rows cols).
Proof. apply NoDup_rows; apply NoDup_range. Qed.

Lemma elem_of_free_cells (lattice : Lattice) (rows cols : Z) (c : Cell) :
  c ∈ free_cells lattice rows cols
  <-> cellIsFree lattice c = true ∧ 0 <= fst c < cols ∧ 0 <= snd c < rows.
Proof. unfold free_cells. by rewrite list_elem_of_filter, elem_of_grid. Qed.

Lemma NoDup_free_names (lattice : Lattice) (rows cols : Z) :
  NoDup (map str (free_cells lattice rows cols)).
Proof.
  apply NoDup_fmap_2; [intros c d; apply str_inj|].
  apply NoDup_filter, NoDup_grid.
Qed.

Lemma vertices_of_row (lattice : Lattice) (row : Z) (cs : list Z) (g : igraph.Graph) :
  fold_left (fun g col =>
      if cellIsFree lattice (col, row)
      then igraph.add_vertex g (str (col, row))
      else g) cs g
  = {| igraph.vs_name :=
         igraph.vs_name g
         ++ map str (filter (fun c => cellIsFree lattice c = true)
                       (map (fun col => (col, row)) cs));
       igraph.es := igraph.es g |}.
Proof.
  revert g. induction cs as [|col cs IH]; intros g.
  - simpl. rewrite app_nil_r. by destruct g.
  - cbn [fold_left map]. rewrite IH.
    destruct (cellIsFree lattice (col, row)) eqn:Hfree.
    + rewrite filter_cons_True by exact Hfree. simpl. by rewrite <- app_assoc.
    + rewrite filter_cons_False; [reflexivity|]. by rewrite Hfree.
Qed.

Lemma vertices_of_rows (lattice : Lattice) (rs cs : list Z) (g : igraph.Graph) :
  fold_left (fun g row =>
      fold_left (fun g col =>
        if cellIsFree lattice (col, row)
        then igraph.add_vertex g (str (col, row))
        else g) cs g) rs g
  = {| igraph.vs_name :=
         igraph.vs_name g
         ++ map str (filter (fun c => cellIsFree lattice c = true)
                       (flat_map (fun row => map (fun col => (col, row)) cs) rs));
       igraph.es := igraph.es g |}.
Proof.
  revert g. induction rs as [|row rs IH]; intros g.
  - simpl. rewrite app_nil_r. by destruct g.
  - cbn [fold_left flat_map]. rewrite vertices_of_row, IH. simpl.
    by rewrite filter_app, map_app, app_assoc.
Qed.

Lemma vertex_id_named (g : igraph.Graph) (name : string) :
  name ∈ igraph.vs_name g ->
  exists u, igraph.vertex_id g name = Ok u ∧ igraph.vs_name g !! u = Some name.
Proof.
  intros Hin. unfold igraph.vertex_id.
  destruct (list_find _ (igraph.vs_name g)) as [[u n]|] eqn:Hf.
  - apply list_find_Some in Hf as (Hu & -> & _). by exists u.
  - apply list_find_None in Hf. rewrite Forall_forall in Hf. by destruct (Hf name Hin).
Qed.

Lemma add_edge_named (g : igraph.Graph) (a b : Cell) :
  str a ∈ igraph.vs_name g -> str b ∈ igraph.vs_name g ->
  exists uv,
    igraph.add_edge g (str a) (str b)
    = Ok {| igraph.vs_name := igraph.vs_name g; igraph.es := igraph.es g ++ [uv] |}
    ∧ joins (igraph.vs_name g) (a, b) uv.
Proof.
  intros Ha Hb. destruct (vertex_id_named g _ Ha) as (u & Hu & Hua).
  destruct (vertex_id_named g _ Hb) as (v & Hv & Hvb).
  exists (u, v). unfold igraph.add_edge. rewrite Hu, Hv. by split.
Qed.

Section edges.

Variables (lattice : Lattice) (rows cols : Z).

Lemma free_cell_named (c : Cell) :
  in_range (fst c) cols && in_range (snd c) rows && cellIsFree lattice c = true ->
  str c ∈ map str (free_cells lattice rows cols).
Proof.
  intros H. apply andb_true_iff in H as [H Hfree].
  apply andb_true_iff in H as [Hc Hr].
  apply bool_decide_eq_true in Hc, Hr.
  apply list_elem_of_fmap_2, elem_of_free_cells. by repeat split; try lia.
Qed.

Lemma edges_of_cell (col row : Z) (nbs : list Cell) (done : list (Cell * Cell))
    (g : igraph.Graph) :
  0 <= col < cols -> 0 <= row < rows ->
  edges_join (map str (free_cells lattice rows cols)) done g ->
  exists g',
    foldM (fun g '(neighbour_col, neighbour_row) =>
        if in_range neighbour_col cols && in_range neighbour_row rows
           && cellIsFree lattice (col, row)
           && cellIsFree lattice (neighbour_col, neighbour_row)
        then igraph.add_edge g (str (col, row)) (str (neighbour_col, neighbour_row))
        else Ok g) nbs g = Ok g'
    ∧ edges_join (map str (free_cells lattice rows cols))
        (done ++ map (pair (col, row))
                   (filter (fun b => in_range (fst b) cols && in_range (snd b) rows
                                     && cellIsFree lattice (col, row)
                                     && cellIsFree lattice b = true) nbs)) g'.
Proof.
  intros Hcol Hrow. revert done g.
  induction nbs as [|[ncol nrow] nbs IH]; intros done g Hg.
  - exists g. split; [reflexivity|]. simpl. by rewrite app_nil_r.
  - cbn [foldM].
    destruct (in_range ncol cols && in_range nrow rows && cellIsFree lattice (col, row)
              && cellIsFree lattice (ncol, nrow)) eqn:Hq.
    + rewrite filter_cons_True by (simpl; exact Hq).
      destruct Hg as [Hnames Hes].
      destruct (add_edge_named g (col, row) (ncol, nrow)) as (uv & -> & Huv).
      { rewrite Hnames. apply free_cell_named. simpl.
        apply andb_true_iff in Hq as [Hq _]. apply andb_true_iff in Hq as [_ ->].
        rewrite andb_true_r. apply andb_true_iff. split; apply bool_decide_eq_true; lia. }
      { rewrite Hnames. apply free_cell_named. simpl.
        apply andb_true_iff in Hq as [Hq ->]. apply andb_true_iff in Hq as [-> _].
        reflexivity. }
      unfold mbind, result_bind.
      destruct (IH (done ++ [((col, row), (ncol, nrow))])
                  {| igraph.vs_name := igraph.vs_name g;
                     igraph.es := igraph.es g ++ [uv] |}) as (g' & Hg' & Hjoin).
      { split; [exact Hnames|]. simpl. apply Forall2_app; [exact Hes|].
        constructor; [|constructor]. by rewrite <- Hnames. }
      exists g'. split; [exact Hg'|]. simpl. by rewrite <- app_assoc in Hjoin.
    + rewrite filter_cons_False by (simpl; by rewrite Hq).
      unfold mbind, result_bind. by apply IH.
Qed.

Lemma edges_of_row (row : Z) (cs : list Z) (done : list (Cell * Cell))
    (g : igraph.Graph) :
  Forall (fun col => 0 <= col < cols) cs -> 0 <= row < rows ->
  edges_join (map str (free_cells lattice rows cols)) done g ->
  exists g',
    foldM (fun g col =>
      foldM (fun g '(neighbour_col, neighbour_row) =>
        if in_range neighbour_col cols && in_range neighbour_row rows
           && cellIsFree lattice (col, row)
           && cellIsFree lattice (neighbour_col, neighbour_row)
        then igraph.add_edge g (str (col, row)) (str (neighbour_col, neighbour_row))
        else Ok g) (neighbours4 col row) g) cs g = Ok g'
    ∧ edges_join (map str (free_cells lattice rows cols))
        (done ++ flat_map (fun a =>
                   map (pair a)
                     (filter (fun b => in_range (fst b) cols && in_range (snd b) rows
                                       && cellIsFree lattice a
                                       && cellIsFree lattice b = true)
                        (neighbours4 (fst a) (snd a))))
                   (map (fun col => (col, row)) cs)) g'.
Proof.
  intros Hcs Hrow. revert done g.
  induction Hcs as [|col cs Hcol _ IH]; intros done g Hg.
  - exists g. split; [reflexivity|]. simpl. by rewrite app_nil_r.
  - cbn [foldM].
    destruct (edges_of_cell col row (neighbours4 col row) done g Hcol Hrow Hg)
      as (g1 & -> & Hg1).
    unfold mbind, result_bind. destruct (IH _ g1 Hg1) as (g' & Hg' & Hjoin).
    exists g'. split; [exact Hg'|]. cbn [map flat_map]. by rewrite app_assoc.
Qed.

Lemma edges_of_rows (rs : list Z) (done : list (Cell * Cell)) (g : igraph.Graph) :
  Forall (fun row => 0 <= row < rows) rs ->
  edges_join (map str (free_cells lattice rows cols)) done g ->
  exists g',
    foldM (fun g row =>
      foldM (fun g col =>
        foldM (fun g '(neighbour_col, neighbour_row) =>
          if in_range neighbour_col cols && in_range neighbour_row rows
             && cellIsFree lattice (col, row)
             && cellIsFree lattice (neighbour_col, neighbour_row)
          then igraph.add_edge g (str (col, row)) (str (neighbour_col, neighbour_row))
          else Ok g) (neighbours4 col row) g) (range cols) g) rs g = Ok g'
    ∧ edges_join (map str (free_cells lattice rows cols))
        (done ++ flat_map (fun a =>
                   map (pair a)
                     (filter (fun b => in_range (fst b) cols && in_range (snd b) rows
                                       && cellIsFree lattice a
                                       && cellIsFree lattice b = true)
                        (neighbours4 (fst a) (snd a))))
                   (flat_map (fun row => map (fun col => (col, row)) (range cols)) rs)) g'.
Proof.
  intros Hrs. revert done g.
  induction Hrs as [|row rs Hrow _ IH]; intros done g Hg.
  - exists g. split; [reflexivity|]. simpl. by rewrite app_nil_r.
  - cbn [foldM].
    destruct (edges_of_row row (range cols) done g) as (g1 & -> & Hg1);
      [|exact Hrow|exact Hg|].
    { apply Forall_forall. intros col. apply elem_of_range. }
    unfold mbind, result_bind. destruct (IH _ g1 Hg1) as (g' & Hg' & Hjoin).
    exists g'. split; [exact Hg'|]. cbn [flat_map].
    by rewrite flat_map_app, app_assoc.
Qed.

End edges.

Lemma elem_of_free_neighbours (lattice : Lattice) (rows cols : Z) (a b : Cell) :
  (a, b) ∈ free_neighbours lattice rows cols
  <-> a ∈ free_cells lattice rows cols ∧ b ∈ free_cells lattice rows cols
      ∧ b ∈ neighbours4 (fst a) (snd a).
Proof.
  unfold free_neighbours. rewrite list_elem_of_In, in_flat_map. split.
  - intros (a' & Ha' & Hab). apply list_elem_of_In in Ha'.
    apply list_elem_of_In, list_elem_of_fmap in Hab as (b' & [= <- <-] & Hb).
    apply list_elem_of_filter in Hb as [Hq Hb].
    apply andb_true_iff in Hq as [Hq Hfb]. apply andb_true_iff in Hq as [Hq Hfa].
    apply andb_true_iff in Hq as [Hc Hr]. apply bool_decide_eq_true in Hc, Hr.
    split; [|split; [|exact Hb]].
    + apply list_elem_of_filter. by split.
    + apply elem_of_free_cells. by repeat split; try lia.
  - intros (Ha & Hb & Hn). apply list_elem_of_filter in Ha as [Hfa Ha].
    apply elem_of_free_cells in Hb as (Hfb & Hc & Hr).
    exists a. split; [by apply list_elem_of_In|].
    apply list_elem_of_In, list_elem_of_fmap. exists b. split; [reflexivity|].
    apply list_elem_of_filter. split; [|exact Hn].
    rewrite Hfa, Hfb, !andb_true_r. apply andb_true_iff.
    split; by apply bool_decide_eq_true.
Qed.

Lemma make_graph_of_free_cells_Ok (lattice : Lattice) (rows cols : Z) :
  getRows lattice = Ok rows ->
  getCols lattice = Ok cols ->
  exists g,
    make_graph_of_free_cells lattice = Ok g
    ∧ edges_join (map str (free_cells lattice rows cols))
        (free_neighbours lattice rows cols) g.
Proof.
  intros Hr Hc. unfold make_graph_of_free_cells. rewrite Hr, Hc.
  unfold mbind at 1 2, result_bind. cbv zeta.
  rewrite vertices_of_rows.
  destruct (edges_of_rows lattice rows cols (range rows) []
              {| igraph.vs_name :=
                   igraph.vs_name igraph.empty
                   ++ map str (filter (fun c => cellIsFree lattice c = true)
                                 (flat_map (fun row => map (fun col => (col, row))
                                              (range cols)) (range rows)));
                 igraph.es := igraph.es igraph.empty |}) as (g & Hg & Hjoin).
  - apply Forall_forall. intros row. apply elem_of_range.
  - split; [reflexivity|]. constructor.
  - exists g. split; [exact Hg|exact Hjoin].
Qed.

(** X18: when the lattice has a cell, [make_graph_of_free_cells]
    returns a graph whose vertices are, without repetition, the names of the
    free cells of the grid of [getRows] rows and [getCols] columns, and whose
    edges join, one edge per ordered pair, the free cells of the grid that are
    neighbours. *)
Theorem graph_of_free_cells (lattice : Lattice) (rows cols : Z) :
  getRows lattice = Ok rows ->
  getCols lattice = Ok cols ->
  exists g,
    make_graph_of_free_cells lattice = Ok g
    ∧ igraph.vs_name g = map str (free_cells lattice rows cols)
    ∧ NoDup (igraph.vs_name g)
    ∧ (forall c, str c ∈ igraph.vs_name g
                 <-> cellIsFree lattice c = true ∧ 0 <= fst c < cols ∧ 0 <= snd c < rows)
    ∧ Forall2 (joins (igraph.vs_name g)) (free_neighbours lattice rows cols) (igraph.es g)
    ∧ forall a b, (a, b) ∈ free_neighbours lattice rows cols
                  <-> a ∈ free_cells lattice rows cols ∧ b ∈ free_cells lattice rows cols
                      ∧ b ∈ neighbours4 (fst a) (snd a).
Proof.
  intros Hr Hc.
  destruct (make_graph_of_free_cells_Ok lattice rows cols Hr Hc) as (g & Hg & Hn & Hes).
  exists g. rewrite Hn. split; [exact Hg|]. split; [reflexivity|].
  split; [apply NoDup_free_names|]. split; [|split; [exact Hes|]].
  - intros c. rewrite <- elem_of_free_cells. split.
    + intros H. apply list_elem_of_fmap in H as (d & Hd & H).
      apply str_inj in Hd. by subst.
    + apply list_elem_of_fmap_2.
  - apply elem_of_free_neighbours.
Qed.

Lemma graph_of_free_cells_witness :
  exists g,
    make_graph_of_free_cells scenario_A_lattice = Ok g
    ∧ igraph.vs_name g = map str (free_cells scenario_A_lattice 2 7)
    ∧ NoDup (igraph.vs_name g)
    ∧ (forall c, str c ∈ igraph.vs_name g
                 <-> cellIsFree scenario_A_lattice c = true
                     ∧ 0 <= fst c < 7 ∧ 0 <= snd c < 2)
    ∧ Forall2 (joins (igraph.vs_name g)) (free_neighbours scenario_A_lattice 2 7)
        (igraph.es g)
    ∧ forall a b, (a, b) ∈ free_neighbours scenario_A_lattice 2 7
                  <-> a ∈ free_cells scenario_A_lattice 2 7
                      ∧ b ∈ free_cells scenario_A_lattice 2 7
                      ∧ b ∈ neighbours4 (fst a) (snd a).
Proof.
  apply (graph_of_free_cells scenario_A_lattice 2 7); reflexivity.
Defined.

(** ** The search graph of a request *)

Lemma dict_get_keys (m : OperatorMap) (k : Cell) :
  match dict_get m k with
  | Ok op => (k, op) ∈ m ∧ k ∈ keys m
  | Raise e => e = KeyError ∧ k ∉ keys m
  end.
Proof.
  unfold dict_get, keys.
  destruct (list_find _ m) as [[i [k' op]]|] eqn:Hf.
  - apply list_find_Some in Hf as (Hi & Hk & _). simpl in *. subst k'.
    apply list_elem_of_lookup_2 in Hi. split; [exact Hi|].
    by apply (list_elem_of_fmap_2 fst) in Hi.
  - split; [reflexivity|]. apply list_find_None in Hf. rewrite Forall_forall in Hf.
    intros Hin. apply list_elem_of_fmap in Hin as (kv & -> & Hkv). by apply (Hf kv).
Qed.

Lemma activation_edges_of_patch (source : string) (representative : Cell)
    (ty : EdgeType) (names : list string) (es : list Edge)
    (done : list (Cell * Cell)) (g : igraph.Graph) :
  str representative ∈ names ->
  edges_join names done g ->
  exists g',
    foldM (add_directed_edges_of_patch source representative ty) es g = Ok g'
    ∧ edges_join names
        (done ++ map (fun e => (getNeighbouringCell e, representative))
                   (filter (fun e => border_type e = ty
                                     ∧ str (getNeighbouringCell e) ∈ names) es)) g'.
Proof.
  intros Hrep. revert done g. induction es as [|e es IH]; intros done g Hg.
  - exists g. split; [reflexivity|]. simpl. by rewrite app_nil_r.
  - cbn [foldM].
    unfold add_directed_edges_of_patch. cbv zeta.
    destruct Hg as [Hnames Hes]. rewrite Hnames.
    destruct (decide (border_type e = ty
                      ∧ str (getNeighbouringCell e) ∈ names)) as [Hq|Hq].
    + rewrite filter_cons_True by exact Hq. destruct Hq as [Hty Hn].
      rewrite (bool_decide_eq_true_2 _ Hty), (bool_decide_eq_true_2 _ Hn).
      cbn [andb py_eq].
      destruct (add_edge_named g (getNeighbouringCell e) representative)
        as (uv & -> & Huv); [by rewrite Hnames|by rewrite Hnames|].
      unfold mbind, result_bind.
      destruct (IH (done ++ [(getNeighbouringCell e, representative)])
                  {| igraph.vs_name := igraph.vs_name g;
                     igraph.es := igraph.es g ++ [uv] |}) as (g' & Hg' & Hjoin).
      { split; [exact Hnames|]. simpl. apply Forall2_app; [exact Hes|].
        constructor; [|constructor]. by rewrite <- Hnames. }
      exists g'. split; [exact Hg'|]. simpl. by rewrite <- app_assoc in Hjoin.
    + rewrite filter_cons_False by exact Hq.
      assert (bool_decide (border_type e = ty)
              && bool_decide (str (getNeighbouringCell e) ∈ names) = false) as ->.
      { apply not_true_is_false. intros H. apply andb_true_iff in H as [H1 H2].
        apply bool_decide_eq_true in H1, H2. by apply Hq. }
      unfold mbind, result_bind. by apply IH.
Qed.

Lemma add_directed_edges_loop (m : OperatorMap) (names : list string)
    (source : string) (targets : list string) (r c : Z) (ps : list Patch)
    (done : list (Cell * Cell)) (g : igraph.Graph) :
  (forall k, k ∈ keys m <-> str k = source ∨ str k ∈ targets) ->
  (forall k, k ∈ keys m -> str k ∈ names) ->
  edges_join names done g ->
  match activation_error m ps with
  | Some e => add_directed_edges g (mkLattice ps r c) m source targets = Raise e
  | None =>
      exists g',
        add_directed_edges g (mkLattice ps r c) m source targets = Ok g'
        ∧ edges_join names (done ++ activation_edges (mkLattice ps r c) m names) g'
  end.
Proof.
  intros Hactive Hnamed. unfold add_directed_edges, activation_edges. simpl patches.
  revert done g. induction ps as [|p ps IH]; intros done g Hg.
  - simpl. exists g. split; [reflexivity|]. by rewrite app_nil_r.
  - cbn [foldM activation_error flat_map].
    unfold getRepresentative.
    destruct (cells p) as [|representative cs].
    { reflexivity. }
    unfold mbind, result_bind. cbv beta iota zeta.
    pose proof (dict_get_keys m representative) as Hd.
    destruct (dict_get m representative) as [op|e].
    + destruct Hd as [_ Hk].
      assert (bool_decide (str representative ≠ source)
              && bool_decide (str representative ∉ targets) = false) as ->.
      { apply not_true_is_false. intros H. apply andb_true_iff in H as [H1 H2].
        apply bool_decide_eq_true in H1, H2. apply Hactive in Hk as [?|?]; done. }
      destruct (PAULI_OPERATOR_TO_EDGE_MAP op) as [ty|e].
      * destruct (activation_edges_of_patch source representative ty names (edges p)
                    done g (Hnamed _ Hk) Hg) as (g1 & -> & Hg1).
        specialize (IH _ g1 Hg1).
        destruct (activation_error m ps) as [e|].
        -- exact IH.
        -- destruct IH as (g' & Hg' & Hjoin). exists g'. split; [exact Hg'|].
           by rewrite app_assoc.
      * reflexivity.
    + destruct Hd as [-> Hk].
      assert (bool_decide (str representative ≠ source)
              && bool_decide (str representative ∉ targets) = true) as ->.
      { apply andb_true_iff. split; apply bool_decide_eq_true; intros H;
          apply Hk, Hactive; [by left|by right]. }
      specialize (IH done g Hg).
      destruct (activation_error m ps) as [e|].
      * exact IH.
      * destruct IH as (g' & Hg' & Hjoin). exists g'. split; [exact Hg'|].
        exact Hjoin.
Qed.

Lemma joins_app (names more : list string) (ab : Cell * Cell) (uv : nat * nat) :
  joins names ab uv -> joins (names ++ more) ab uv.
Proof. intros [H1 H2]. split; by apply lookup_app_l_Some. Qed.

Lemma search_graph_cases (lattice : Lattice) (rows cols : Z) (k : Cell)
    (op : PauliOperator.t) (rest : OperatorMap) :
  getRows lattice = Ok rows ->
  getCols lattice = Ok cols ->
  keys_are_representatives lattice ((k, op) :: rest) = true ->
  match activation_error ((k, op) :: rest) (patches lattice) with
  | Some e => search_graph lattice ((k, op) :: rest) = Raise e
  | None =>
      exists g,
        search_graph lattice ((k, op) :: rest) = Ok (g, str k, map str (keys rest))
        ∧ edges_join
            (map str (free_cells lattice rows cols) ++ map str (keys ((k, op) :: rest)))
            (free_neighbours lattice rows cols
             ++ activation_edges lattice ((k, op) :: rest)
                  (map str (free_cells lattice rows cols)
                   ++ map str (keys ((k, op) :: rest)))) g
  end.
Proof.
  intros Hr Hc Hkeys. unfold search_graph. rewrite Hkeys. cbn [negb].
  destruct (make_graph_of_free_cells_Ok lattice rows cols Hr Hc) as (g0 & -> & Hn & Hes).
  cbv zeta.
  change (py_index (map str (keys ((k, op) :: rest))) 0) with (@Ok string (str k)).
  change (tail (map str (keys ((k, op) :: rest)))) with (map str (keys rest)).
  unfold mbind, result_bind. cbv beta iota.
  set (m := (k, op) :: rest) in *.
  set (names := map str (free_cells lattice rows cols) ++ map str (keys m)).
  destruct lattice as [ps r c]. simpl patches.
  assert (H : match activation_error m ps with
              | Some e =>
                  add_directed_edges (igraph.add_vertices g0 (map str (keys m)))
                    (mkLattice ps r c) m (str k) (map str (keys rest)) = Raise e
              | None =>
                  exists g',
                    add_directed_edges (igraph.add_vertices g0 (map str (keys m)))
                      (mkLattice ps r c) m (str k) (map str (keys rest)) = Ok g'
                    ∧ edges_join names
                        (free_neighbours (mkLattice ps r c) rows cols
                         ++ activation_edges (mkLattice ps r c) m names) g'
              end).
  { apply add_directed_edges_loop.
    - intros k'. subst m. simpl. rewrite elem_of_cons, list_elem_of_fmap. split.
      + intros [->|Hk']; [by left|right]. by exists k'.
      + intros [Hk'|(k'' & Hk' & Hin)]; apply str_inj in Hk'; subst; [by left|by right].
    - intros k' Hk'. apply elem_of_app. right. by apply list_elem_of_fmap_2.
    - split; [simpl; by rewrite Hn|]. simpl.
      eapply Forall2_impl; [exact Hes|]. intros ab uv. apply joins_app. }
  destruct (activation_error m ps) as [e|].
  - by rewrite H.
  - destruct H as (g' & H & Hjoin). rewrite H. by exists g'.
Qed.

Lemma activation_error_None (m : OperatorMap) (ps : list Patch) :
  Forall (fun p => cells p ≠ []) ps ->
  Forall (fun kv => snd kv = PauliOperator.X ∨ snd kv = PauliOperator.Z) m ->
  activation_error m ps = None.
Proof.
  intros Hps Hm. induction Hps as [|p ps Hp _ IH]; [reflexivity|].
  simpl. destruct (cells p) as [|representative cs]; [done|].
  pose proof (dict_get_keys m representative) as Hd.
  destruct (dict_get m representative) as [op|e]; [|exact IH].
  destruct Hd as [Hin _]. rewrite Forall_forall in Hm.
  destruct (Hm _ Hin) as [Hop|Hop]; simpl in Hop; subst op; exact IH.
Qed.


Lemma activation_error_operator (m : OperatorMap) (ps : list Patch) (p : Patch)
    (k : Cell) (op : PauliOperator.t) :
  Forall (fun p => cells p ≠ []) ps ->
  p ∈ ps ->
  getRepresentative p = Ok k ->
  dict_get m k = Ok op ->
  op = PauliOperator.I ∨ op = PauliOperator.Y ->
  activation_error m ps = Some KeyError.
Proof.
  intros Hps Hp Hk Hd Hop. induction Hps as [|q ps Hq _ IH].
  - by apply elem_of_nil in Hp.
  - simpl. destruct (cells q) as [|representative cs] eqn:Hcq; [done|].
    destruct (dict_get m representative) as [op'|e] eqn:Hd'.
    + destruct op'; simpl; try reflexivity.
      * apply elem_of_cons in Hp as [->|Hp]; [|by apply IH].
        unfold getRepresentative in Hk. rewrite Hcq in Hk. injection Hk as ->.
        rewrite Hd in Hd'. injection Hd' as ->. by destruct Hop.
      * apply elem_of_cons in Hp as [->|Hp]; [|by apply IH].
        unfold getRepresentative in Hk. rewrite Hcq in Hk. injection Hk as ->.
        rewrite Hd in Hd'. injection Hd' as ->. by destruct Hop.
    + apply elem_of_cons in Hp as [->|Hp]; [|by apply IH].
      unfold getRepresentative in Hk. rewrite Hcq in Hk. injection Hk as ->.
      congruence.
Qed.

Lemma elem_of_activation_edges (lattice : Lattice) (m : OperatorMap)
    (names : list string) (a b : Cell) :
  (a, b) ∈ activation_edges lattice m names
  <-> exists p e op,
        p ∈ patches lattice ∧ getRepresentative p = Ok b ∧ e ∈ edges p
        ∧ getNeighbouringCell e = a ∧ str a ∈ names
        ∧ dict_get m b = Ok op
        ∧ PAULI_OPERATOR_TO_EDGE_MAP op = Ok (border_type e).
Proof.
  unfold activation_edges, getRepresentative.
  rewrite list_elem_of_In, in_flat_map. split.
  - intros (p & Hp & H). apply list_elem_of_In in Hp, H.
    destruct (cells p) as [|representative cs] eqn:Hcp; [by apply elem_of_nil in H|].
    destruct (dict_get m representative) as [op|] eqn:Hd; [|by apply elem_of_nil in H].
    destruct (PAULI_OPERATOR_TO_EDGE_MAP op) as [ty|] eqn:Hty;
      [|by apply elem_of_nil in H].
    apply list_elem_of_fmap in H as (e & [= -> ->] & He).
    apply list_elem_of_filter in He as [[Hb Hn] He].
    exists p, e, op. rewrite Hcp, Hb. by repeat split.
  - intros (p & e & op & Hp & Hb & He & Ha & Hn & Hd & Hty).
    exists p. split; [by apply list_elem_of_In|]. apply list_elem_of_In.
    destruct (cells p) as [|representative cs]; [discriminate|].
    injection Hb as ->. rewrite Hd, Hty. apply list_elem_of_fmap.
    exists e. split; [by rewrite Ha|]. apply list_elem_of_filter.
    rewrite Ha. by repeat split.
Qed.

(** X19: for a non-empty request with operators X and Z whose
    keys are representatives, on a lattice whose patches all have cells, the
    first part of [compute_ancilla_cells] returns the graph of free cells
    extended by one vertex per key, the first key as source and the other keys
    as targets; the edges added by [add_directed_edges] all lead from the
    cell that a border of the requested type faces to the representative of
    the patch, for the source as for the targets. *)
Theorem search_graph_of_request (lattice : Lattice) (rows cols : Z) (k : Cell)
    (op : PauliOperator.t) (rest : OperatorMap) :
  let m := (k, op) :: rest in
  getRows lattice = Ok rows ->
  getCols lattice = Ok cols ->
  keys_are_representatives lattice m = true ->
  Forall (fun p => cells p ≠ []) (patches lattice) ->
  Forall (fun kv => snd kv = PauliOperator.X ∨ snd kv = PauliOperator.Z) m ->
  exists g,
    search_graph lattice m = Ok (g, str k, map str (keys rest))
    ∧ igraph.vs_name g = map str (free_cells lattice rows cols) ++ map str (keys m)
    ∧ Forall2 (joins (igraph.vs_name g))
        (free_neighbours lattice rows cols
         ++ activation_edges lattice m (igraph.vs_name g))
        (igraph.es g)
    ∧ forall a b,
        (a, b) ∈ activation_edges lattice m (igraph.vs_name g)
        <-> exists p e operator,
              p ∈ patches lattice ∧ getRepresentative p = Ok b ∧ e ∈ edges p
              ∧ getNeighbouringCell e = a ∧ str a ∈ igraph.vs_name g
              ∧ dict_get m b = Ok operator
              ∧ PAULI_OPERATOR_TO_EDGE_MAP operator = Ok (border_type e).
Proof.
  intros m Hr Hc Hkeys Hps Hm.
  pose proof (search_graph_cases lattice rows cols k op rest Hr Hc Hkeys) as H.
  fold m in H. rewrite (activation_error_None m _ Hps Hm) in H.
  destruct H as (g & Hg & Hn & Hes). exists g. rewrite Hn.
  split; [exact Hg|]. split; [reflexivity|]. split; [exact Hes|].
  intros a b. apply elem_of_activation_edges.
Qed.

Lemma search_graph_of_request_witness :
  exists g,
    search_graph scenario_A_lattice scenario_A_request
    = Ok (g, str (0, 0), map str [(4, 0); (6, 0)])
    ∧ igraph.vs_name g
      = map str (free_cells scenario_A_lattice 2 7) ++ map str (keys scenario_A_request)
    ∧ Forall2 (joins (igraph.vs_name g))
        (free_neighbours scenario_A_lattice 2 7
         ++ activation_edges scenario_A_lattice scenario_A_request (igraph.vs_name g))
        (igraph.es g)
    ∧ forall a b,
        (a, b) ∈ activation_edges scenario_A_lattice scenario_A_request (igraph.vs_name g)
        <-> exists p e operator,
              p ∈ patches scenario_A_lattice ∧ getRepresentative p = Ok b ∧ e ∈ edges p
              ∧ getNeighbouringCell e = a ∧ str a ∈ igraph.vs_name g
              ∧ dict_get scenario_A_request b = Ok operator
              ∧ PAULI_OPERATOR_TO_EDGE_MAP operator = Ok (border_type e).
Proof.
  apply (search_graph_of_request scenario_A_lattice 2 7 (0, 0) PauliOperator.X
           [((4, 0), PauliOperator.Z); ((6, 0), PauliOperator.X)]).
  - reflexivity.
  - reflexivity.
  - reflexivity.
  - repeat constructor; discriminate.
  - apply (bool_decide_unpack _). vm_compute. exact Logic.I.
Defined.

(** ** The exceptions of a request *)

Lemma getRows_getCols_together (lattice : Lattice) (rows : Z) :
  getRows lattice = Ok rows -> exists cols, getCols lattice = Ok cols.
Proof.
  intros Hr. unfold getRows, getCols in *.
  destruct (getMaxCoord_cases lattice Row) as [[Hnone H]|(mr & [Hin _] & _)];
    [rewrite H in Hr; discriminate|].
  destruct (getMaxCoord_cases lattice Col) as [[Hnone H]|(mc & _ & ->)]; [|by eexists].
  apply (all_coords_nil lattice Row) in Hnone. rewrite Hnone in Hin.
  by apply elem_of_nil in Hin.
Qed.

Lemma compute_ancilla_cells_activation_error (search : path_search)
    (lattice : Lattice) (rows : Z) (k : Cell) (op : PauliOperator.t)
    (rest : OperatorMap) (e : exn) :
  getRows lattice = Ok rows ->
  keys_are_representatives lattice ((k, op) :: rest) = true ->
  activation_error ((k, op) :: rest) (patches lattice) = Some e ->
  compute_ancilla_cells search lattice ((k, op) :: rest) = Raised e lattice.
Proof.
  intros Hr Hkeys He. destruct (getRows_getCols_together lattice rows Hr) as [cols Hc].
  pose proof (search_graph_cases lattice rows cols k op rest Hr Hc Hkeys) as H.
  rewrite He in H. unfold compute_ancilla_cells, route. by rewrite H.
Qed.

(** X20: with an empty request [compute_ancilla_cells] raises
    and leaves the lattice as it was: [ValueError] when no patch has a cell,
    [IndexError] otherwise. *)
Theorem empty_request_raises (search : path_search) (lattice : Lattice) :
  compute_ancilla_cells search lattice []
  = Raised (if bool_decide (Forall (fun p => cells p = []) (patches lattice))
            then ValueError else IndexError) lattice.
Proof.
  case_bool_decide as Hcells.
  - by apply compute_ancilla_cells_no_cells.
  - unfold compute_ancilla_cells, route, search_graph.
    change (keys_are_representatives lattice []) with true. cbn [negb].
    destruct (getMaxCoord_cases lattice Row) as [[Hnone _]|(mr & _ & Hr)]; [done|].
    destruct (getRows_getCols_together lattice _ Hr) as [cols Hc].
    destruct (make_graph_of_free_cells_Ok lattice _ cols Hr Hc) as (g & -> & _).
    reflexivity.
Qed.



(** X22: when the request gives the operator I or Y to the
    representative of a patch, on a lattice whose patches all have cells,
    [compute_ancilla_cells] raises [KeyError] and leaves the lattice as it
    was. *)
Theorem unsupported_operator_raises (search : path_search) (lattice : Lattice)
    (rows : Z) (k : Cell) (op : PauliOperator.t) (rest : OperatorMap)
    (p : Patch) (key : Cell) (operator : PauliOperator.t) :
  let m := (k, op) :: rest in
  getRows lattice = Ok rows ->
  keys_are_representatives lattice m = true ->
  Forall (fun p => cells p ≠ []) (patches lattice) ->
  p ∈ patches lattice ->
  getRepresentative p = Ok key ->
  dict_get m key = Ok operator ->
  operator = PauliOperator.I ∨ operator = PauliOperator.Y ->
  compute_ancilla_cells search lattice m = Raised KeyError lattice.
Proof.
  intros m Hr Hkeys Hps Hp Hkey Hd Hop.
  apply (compute_ancilla_cells_activation_error search lattice rows); [done|done|].
  by apply (activation_error_operator m _ p key operator).
Qed.

Lemma unsupported_operator_raises_witness :
  compute_ancilla_cells igraph.get_shortest_paths pair_lattice
    [((0, 0), PauliOperator.X); ((2, 0), PauliOperator.Y)]
  = Raised KeyError pair_lattice.
Proof.
  apply (unsupported_operator_raises igraph.get_shortest_paths pair_lattice 1
           (0, 0) PauliOperator.X [((2, 0), PauliOperator.Y)]
           (square (2, 0)) (2, 0) PauliOperator.Y).
  - reflexivity.
  - reflexivity.
  - repeat constructor; discriminate.
  - apply list_elem_of_further, list_elem_of_here.
  - reflexivity.
  - reflexivity.
  - by right.
Defined.

(** ** The cells of the ancilla patch *)

Lemma search_graph_names (lattice : Lattice) (m : OperatorMap) (g : igraph.Graph)
    (source : string) (targets : list string) :
  search_graph lattice m = Ok (g, source, targets) ->
  exists rows cols,
    getRows lattice = Ok rows ∧ getCols lattice = Ok cols
    ∧ igraph.vs_name g = map str (free_cells lattice rows cols) ++ map str (keys m).
Proof.
  intros H.
  destruct (keys_are_representatives lattice m) eqn:Hkeys;
    [|unfold search_graph in H; rewrite Hkeys in H; discriminate].
  destruct (getMaxCoord_cases lattice Row) as [[_ Hr]|(mr & _ & Hr)].
  { unfold search_graph, make_graph_of_free_cells, getRows in H.
    rewrite Hkeys, Hr in H. discriminate. }
  destruct (getRows_getCols_together lattice _ Hr) as [cols Hc].
  destruct m as [|[k op] rest].
  { unfold search_graph in H. rewrite Hkeys in H. cbn [negb] in H.
    destruct (make_graph_of_free_cells lattice); discriminate. }
  pose proof (search_graph_cases lattice _ cols k op rest Hr Hc Hkeys) as Hcases.
  destruct (activation_error _ _) as [e|].
  - rewrite Hcases in H. discriminate.
  - destruct Hcases as (g' & Hg' & Hn & _). rewrite Hg' in H. injection H as <- _ _.
    by eexists _, cols.
Qed.

Lemma elem_of_interior {A} (x : A) (path : list A) : x ∈ interior path -> x ∈ path.
Proof.
  unfold interior. intros H. destruct path as [|y path]; [exact H|].
  simpl in H. apply list_elem_of_further.
  induction path as [|z path IH]; [exact H|].
  destruct path as [|w path]; [by apply elem_of_nil in H|].
  apply elem_of_cons in H as [->|H]; [apply list_elem_of_here|].
  apply list_elem_of_further. by apply IH.
Qed.

Lemma path_cells_named (g : igraph.Graph) (raw : list nat) (path : list Cell) (c : Cell) :
  (forall n, n ∈ igraph.vs_name g -> exists a, n = str a) ->
  path_cells g raw = Ok path -> c ∈ path -> str c ∈ igraph.vs_name g.
Proof.
  intros Hnames H Hc. apply mapM_Ok in H.
  apply list_elem_of_lookup in Hc as [i Hi].
  destruct (Forall2_lookup_r _ _ _ _ _ H Hi) as (idx & _ & Hname).
  unfold igraph.vs_get_name in Hname.
  destruct (igraph.vs_name g !! idx) as [n|] eqn:Hn; [|discriminate].
  simpl in Hname. apply list_elem_of_lookup_2 in Hn.
  destruct (Hnames n Hn) as [a ->]. rewrite make_tuple_str in Hname.
  by injection Hname as <-.
Qed.

Lemma route_cells (search : path_search) (lattice : Lattice) (m : OperatorMap)
    (paths : list (list Cell)) :
  route search lattice m = Ok paths ->
  exists rows cols,
    getRows lattice = Ok rows ∧ getCols lattice = Ok cols
    ∧ forall path c, path ∈ paths -> c ∈ path ->
                     c ∈ free_cells lattice rows cols ∨ c ∈ keys m.
Proof.
  unfold route. intros H.
  destruct (search_graph lattice m) as [[[g source] targets]|] eqn:Hsg; [|discriminate].
  destruct (search_graph_names _ _ _ _ _ Hsg) as (rows & cols & Hr & Hc & Hn).
  exists rows, cols. split; [exact Hr|]. split; [exact Hc|].
  unfold mbind, result_bind in H.
  destruct (search g source targets) as [raw|]; [|discriminate].
  apply mapM_Ok in H. intros path c Hpath Hcp.
  apply list_elem_of_lookup in Hpath as [i Hi].
  destruct (Forall2_lookup_r _ _ _ _ _ H Hi) as (r & _ & Hcells).
  assert (Hin : str c ∈ igraph.vs_name g).
  { apply (path_cells_named g r path c); [|exact Hcells|exact Hcp].
    intros n. rewrite Hn, elem_of_app, !list_elem_of_fmap.
    intros [(a & -> & _)|(a & -> & _)]; by exists a. }
  rewrite Hn, elem_of_app, !list_elem_of_fmap in Hin.
  destruct Hin as [(a & Ha & Hin)|(a & Ha & Hin)]; apply str_inj in Ha; subst a;
    [by left|by right].
Qed.

(** X23: when [compute_ancilla_cells] returns, whatever paths
    the search gave, the last patch of the lattice is the new Ancilla patch,
    without borders and without repeated cells, and each of its cells is a
    free cell of the grid or a key of the request. *)
Theorem ancilla_cells_free_or_requested (search : path_search) (lattice : Lattice)
    (m : OperatorMap) (lattice' : Lattice) :
  compute_ancilla_cells search lattice m = Returned lattice' ->
  exists rows cols ancilla_cells,
    getRows lattice = Ok rows ∧ getCols lattice = Ok cols
    ∧ last (patches lattice') = Some (mkPatch Ancilla None ancilla_cells [] None)
    ∧ NoDup ancilla_cells
    ∧ Forall (fun c => cellIsFree lattice c = true ∧ 0 <= fst c < cols ∧ 0 <= snd c < rows
                       ∨ c ∈ keys m) ancilla_cells.
Proof.
  unfold compute_ancilla_cells, add_ancilla_to_lattice_from_paths.
  destruct (route search lattice m) as [paths|] eqn:Hroute; [|discriminate].
  destruct (route_cells _ _ _ _ Hroute) as (rows & cols & Hr & Hc & Hcells).
  destruct (stitch_paths_cells paths lattice [] NoDup_nil_2) as [Hnd Hin].
  destruct (stitch_paths lattice [] paths) as [[l|e l] acc]; [|discriminate].
  intros [= <-]. exists rows, cols, acc. split; [exact Hr|]. split; [exact Hc|].
  simpl in *. split; [by rewrite last_snoc|]. split; [exact Hnd|].
  apply Forall_forall. intros c Hacc.
  destruct (Hin c Hacc) as [Hnil|(path & Hpath & Hcp)]; [by apply elem_of_nil in Hnil|].
  apply elem_of_interior in Hcp.
  destruct (Hcells path c Hpath Hcp) as [Hfree|Hkey]; [left|by right].
  by apply elem_of_free_cells.
Qed.

Lemma ancilla_cells_free_or_requested_witness :
  exists rows cols ancilla_cells,
    getRows scenario_A_lattice = Ok rows ∧ getCols scenario_A_lattice = Ok cols
    ∧ last (patches (lattice_of (compute_ancilla_cells igraph.get_shortest_paths
                                   scenario_A_lattice scenario_A_request)))
      = Some (mkPatch Ancilla None ancilla_cells [] None)
    ∧ NoDup ancilla_cells
    ∧ Forall (fun c => cellIsFree scenario_A_lattice c = true
                       ∧ 0 <= fst c < cols ∧ 0 <= snd c < rows
                       ∨ c ∈ keys scenario_A_request) ancilla_cells.
Proof.
  apply (ancilla_cells_free_or_requested igraph.get_shortest_paths
           scenario_A_lattice scenario_A_request).
  vm_compute. reflexivity.
Defined.

(** ** The operator listing *)

(** X24: on a lattice where no cell belongs to two patches, with a
    request whose keys are representatives, [get_pauli_op_listing] never
    raises its own exception: for a free cell it fails with [AttributeError],
    for an occupied cell it returns the representative of the patch when that
    is a key of the request and [None] otherwise. *)
Theorem get_pauli_op_listing_of_representatives (lattice : Lattice) (m : OperatorMap)
    (c : Cell) :
  disjoint_cells lattice ->
  keys_are_representatives lattice m = true ->
  get_pauli_op_listing c lattice m
  = if cellIsFree lattice c then inl (Builtin AttributeError)
    else if bool_decide (getPatchRepresentative lattice c ∈ keys m)
         then inr (Some (getPatchRepresentative lattice c))
         else inr None.
Proof.
  intros Hnd Hkeys. unfold get_pauli_op_listing, cellIsFree.
  destruct (getPatchOfCell lattice c) as [p|] eqn:Hp; [|reflexivity].
  apply getPatchOfCell_Some in Hp as [Hp Hc].
  assert (Hrep : forall d, d ∈ cells p ->
                           getPatchRepresentative lattice d = hd d (cells p)).
  { intros d Hd. unfold getPatchRepresentative.
    by rewrite (disjoint_cells_owner lattice p d Hnd Hp Hd). }
  destruct (filter _ (cells p)) as [|first rest] eqn:Hl.
  - rewrite bool_decide_eq_false_2; [reflexivity|]. intros Hin.
    assert (H : getPatchRepresentative lattice c
                ∈ filter (fun c' => c' ∈ keys m) (cells p)).
    { apply list_elem_of_filter. split; [exact Hin|].
      rewrite (Hrep c Hc). destruct (cells p); [by apply elem_of_nil in Hc|].
      apply list_elem_of_here. }
    rewrite Hl in H. by apply elem_of_nil in H.
  - assert (H : first ∈ filter (fun c' => c' ∈ keys m) (cells p))
      by (rewrite Hl; apply list_elem_of_here).
    apply list_elem_of_filter in H as [Hkey Hfirst].
    assert (Hown : getPatchRepresentative lattice first = first).
    { unfold keys_are_representatives in Hkeys. rewrite forallb_forall in Hkeys.
      apply (bool_decide_eq_true_1 _). apply Hkeys. by apply list_elem_of_In. }
    assert (Heq : first = getPatchRepresentative lattice c).
    { rewrite <- Hown, (Hrep first Hfirst), (Hrep c Hc).
      destruct (cells p); [by apply elem_of_nil in Hc|reflexivity]. }
    rewrite <- Heq. rewrite (bool_decide_eq_false_2 (first ≠ first)) by (by intros H).
    by rewrite (bool_decide_eq_true_2 _ Hkey).
Qed.

Lemma get_pauli_op_listing_of_representatives_witness :
  get_pauli_op_listing (4, 0) scenario_A_lattice scenario_A_request
  = if cellIsFree scenario_A_lattice (4, 0) then inl (Builtin AttributeError)
    else if bool_decide (getPatchRepresentative scenario_A_lattice (4, 0)
                         ∈ keys scenario_A_request)
         then inr (Some (getPatchRepresentative scenario_A_lattice (4, 0)))
         else inr None.
Proof.
  apply (get_pauli_op_listing_of_representatives scenario_A_lattice scenario_A_request
           (4, 0)).
  - apply (bool_decide_unpack _). vm_compute. exact Logic.I.
  - reflexivity.
Defined.

(** ** The layouts *)

Lemma all_coords_elem_inv (lattice : Lattice) (coord_type : CoordType) (x : Z) :
  x ∈ all_coords lattice coord_type ->
  exists p c, p ∈ patches lattice ∧ c ∈ cells p ∧ x = coord coord_type c.
Proof.
  unfold all_coords, getCoordList. intros H.
  apply list_elem_of_In, in_concat in H as (l & Hl & Hx).
  apply in_map_iff in Hl as (p & <- & Hp).
  apply list_elem_of_In, list_elem_of_fmap in Hx as (c & -> & Hc).
  exists p, c. split; [by apply list_elem_of_In|by split].
Qed.

Lemma getMaxCoord_bound (lattice : Lattice) (coord_type : CoordType) (p : Patch)
    (c : Cell) :
  p ∈ patches lattice -> c ∈ cells p ->
  (forall q d, q ∈ patches lattice -> d ∈ cells q ->
               coord coord_type d <= coord coord_type c) ->
  getMaxCoord lattice coord_type
  = Ok (Z.max (1 + coord coord_type c)
          (if decide (coord_type = Row) then min_rows lattice else min_cols lattice)).
Proof.
  intros Hp Hc Hmax.
  pose proof (all_coords_elem lattice coord_type p c Hp Hc) as Hin.
  destruct (getMaxCoord_nonempty lattice coord_type) as (m & [Hm Hall] & ->).
  { intros H. rewrite H in Hin. by apply elem_of_nil in Hin. }
  rewrite Forall_forall in Hall. specialize (Hall _ Hin).
  apply all_coords_elem_inv in Hm as (q & d & Hq & Hd & ->).
  specialize (Hmax q d Hq Hd). do 2 f_equal. lia.
Qed.

Lemma cells_of_squares (js : list Z) :
  concat (map cells (map (fun j => singleSquarePatch (j * 2, 0) Qubit Zero) js))
  = map (fun j => (j * 2, 0)) js.
Proof. induction js as [|j js IH]; [reflexivity|]. simpl. by rewrite IH. Qed.

Lemma simpleLayout_cells (n : Z) (p : Patch) (c : Cell) :
  p ∈ patches (simpleLayout n) -> c ∈ cells p ->
  (exists j, 0 <= j < n ∧ c = (j * 2, 0) ∧ p = singleSquarePatch (j * 2, 0) Qubit Zero)
  ∨ (patch_type p = DistillationQubit
     ∧ 2 * n <= fst c <= 2 * n + 4 ∧ 0 <= snd c <= 2).
Proof.
  unfold simpleLayout. simpl patches. rewrite elem_of_app. intros [Hp|Hp] Hc.
  - left. apply list_elem_of_fmap in Hp as (j & -> & Hj). apply elem_of_range in Hj.
    simpl in Hc. apply list_elem_of_singleton in Hc. by exists j.
  - right. unfold simpleRightFacingDistillery in Hp.
    repeat (apply elem_of_cons in Hp as [->|Hp]); try (by apply elem_of_nil in Hp);
      simpl in Hc;
      repeat (apply elem_of_cons in Hc as [->|Hc]); try (by apply elem_of_nil in Hc);
      simpl; (split; [reflexivity|lia]).
Qed.

(** X25: [simpleLayout(n)], for [n] at least 0, has [n + 7] patches,
    no cell in two patches, no Ancilla patch and no stitched border; it has 3
    rows and [2 n + 5] columns; the logical qubit [j] is the single-cell patch
    at [(2 j, 0)], its own representative, and the cell to its right is
    free. *)
Theorem simpleLayout_shape (n : Z) :
  0 <= n ->
  disjoint_cells (simpleLayout n)
  ∧ clean (simpleLayout n)
  ∧ length (patches (simpleLayout n)) = (Z.to_nat n + 7)%nat
  ∧ getRows (simpleLayout n) = Ok 3
  ∧ getCols (simpleLayout n) = Ok (2 * n + 5)
  ∧ forall j, 0 <= j < n ->
      getPatchOfCell (simpleLayout n) (j * 2, 0)
      = Some (singleSquarePatch (j * 2, 0) Qubit Zero)
      ∧ getPatchRepresentative (simpleLayout n) (j * 2, 0) = (j * 2, 0)
      ∧ cellIsFree (simpleLayout n) (j * 2 + 1, 0) = true.
Proof.
  intros Hn.
  assert (Hdis : disjoint_cells (simpleLayout n)).
  { unfold disjoint_cells, simpleLayout. simpl patches.
    rewrite map_app, concat_app, cells_of_squares. apply NoDup_app.
    split; [|split].
    - apply NoDup_fmap_2; [|apply NoDup_range]. intros i j [= H]. lia.
    - intros c Hc Hc'. apply list_elem_of_fmap in Hc as (j & -> & Hj).
      apply elem_of_range in Hj. simpl in Hc'.
      repeat (apply elem_of_cons in Hc' as [Heq|Hc']; [inversion Heq; lia|]).
      by apply elem_of_nil in Hc'.
    - simpl.
      repeat (constructor;
              [rewrite ?not_elem_of_cons;
               repeat split; try apply not_elem_of_nil; intros Heq; inversion Heq; lia|]).
      constructor. }
  split; [exact Hdis|]. split; [|split; [|split; [|split]]].
  - unfold clean, simpleLayout. simpl patches. apply Forall_app. split.
    + apply Forall_forall. intros p Hp. apply list_elem_of_fmap in Hp as (j & -> & _).
      split; [discriminate|]. repeat constructor.
    + repeat constructor; discriminate.
  - unfold simpleLayout. simpl patches.
    rewrite length_app, length_map. unfold range. rewrite length_map, length_seq.
    reflexivity.
  - unfold getRows.
    rewrite (getMaxCoord_bound (simpleLayout n) Row
               (singleSquarePatch (2 * n + 3, 0 + 2) DistillationQubit Magic)
               (2 * n + 3, 0 + 2)).
    + reflexivity.
    + unfold simpleLayout. simpl patches. apply elem_of_app. right.
      do 3 apply list_elem_of_further. apply list_elem_of_here.
    + apply list_elem_of_here.
    + intros q d Hq Hd. destruct (simpleLayout_cells n q d Hq Hd)
        as [(j & _ & -> & _)|(_ & _ & H)]; simpl; lia.
  - unfold getCols.
    rewrite (getMaxCoord_bound (simpleLayout n) Col
               (singleSquarePatch (2 * n + 4, 0 + 1) DistillationQubit Plus)
               (2 * n + 4, 0 + 1)).
    + simpl. f_equal. lia.
    + unfold simpleLayout. simpl patches. apply elem_of_app. right.
      do 2 apply list_elem_of_further. apply list_elem_of_here.
    + apply list_elem_of_here.
    + intros q d Hq Hd. destruct (simpleLayout_cells n q d Hq Hd)
        as [(j & Hj & -> & _)|(_ & H & _)]; simpl; lia.
  - intros j Hj.
    assert (Hp : singleSquarePatch (j * 2, 0) Qubit Zero ∈ patches (simpleLayout n)).
    { unfold simpleLayout. simpl patches. apply elem_of_app. left.
      apply (list_elem_of_fmap_2 (fun j => singleSquarePatch (j * 2, 0) Qubit Zero)).
      by apply elem_of_range. }
    assert (Hown : getPatchOfCell (simpleLayout n) (j * 2, 0)
                   = Some (singleSquarePatch (j * 2, 0) Qubit Zero)).
    { apply disjoint_cells_owner; [exact Hdis|exact Hp|apply list_elem_of_here]. }
    split; [exact Hown|]. split.
    + unfold getPatchRepresentative. by rewrite Hown.
    + unfold cellIsFree.
      destruct (getPatchOfCell (simpleLayout n) (j * 2 + 1, 0)) as [q|] eqn:Hq;
        [|reflexivity].
      apply getPatchOfCell_Some in Hq as [Hq Hc].
      destruct (simpleLayout_cells n q _ Hq Hc)
        as [(i & _ & [= H] & _)|(_ & H & _)]; simpl in *; lia.
Qed.

Lemma simpleLayout_shape_witness :
  disjoint_cells (simpleLayout 2)
  ∧ clean (simpleLayout 2)
  ∧ length (patches (simpleLayout 2)) = (Z.to_nat 2 + 7)%nat
  ∧ getRows (simpleLayout 2) = Ok 3
  ∧ getCols (simpleLayout 2) = Ok (2 * 2 + 5)
  ∧ forall j, 0 <= j < 2 ->
      getPatchOfCell (simpleLayout 2) (j * 2, 0)
      = Some (singleSquarePatch (j * 2, 0) Qubit Zero)
      ∧ getPatchRepresentative (simpleLayout 2) (j * 2, 0) = (j * 2, 0)
      ∧ cellIsFree (simpleLayout 2) (j * 2 + 1, 0) = true.
Proof. apply (simpleLayout_shape 2). lia. Defined.

(** ** Products of Pauli operators *)

(** X26: [multiply_operators] returns a product for every pair of
    operators; two operators commute, for [are_commuting], exactly when they
    are equal or one of them is I, which is when the coefficient of their
    product is 1; the operator of the product does not depend on the order of
    the factors, the square of an operator is I, I is neutral, and the
    operators of the products are associative. *)
Theorem multiply_operators_total (a b : PauliOperator.t) :
  (exists c r, multiply_operators a b = Some (c, r))
  ∧ (are_commuting a b = true <-> a = b ∨ a = PauliOperator.I ∨ b = PauliOperator.I)
  ∧ are_commuting a b = are_commuting b a
  ∧ (are_commuting a b = true <-> fst <$> multiply_operators a b = Some One)
  ∧ snd <$> multiply_operators a b = snd <$> multiply_operators b a
  ∧ multiply_operators a a = Some (One, PauliOperator.I)
  ∧ multiply_operators PauliOperator.I a = Some (One, a)
  ∧ multiply_operators a PauliOperator.I = Some (One, a)
  ∧ forall c,
      (ab ← snd <$> multiply_operators a b; snd <$> multiply_operators ab c)
      = (bc ← snd <$> multiply_operators b c; snd <$> multiply_operators a bc).
Proof.
  split; [destruct a, b; vm_compute; eauto|].
  split; [destruct a, b; vm_compute; split; intros H; try done; auto;
          destruct H as [H|[H|H]]; discriminate|].
  split; [by destruct a, b|].
  split; [destruct a, b; vm_compute; split; intros H; done|].
  split; [by destruct a, b|].
  split; [by destruct a|]. split; [by destruct a|]. split; [by destruct a|].
  intros c. by destruct a, b, c.
Qed.

(** X27: the operator that [multiply_operators] returns is
    the one of the product of the two Pauli matrices, and the coefficient is
    the one of that product up to its sign; the sign is that of the matrix
    product for every pair but (Z, Y), (Y, Z), (Y, X) and (X, Y). *)
Theorem multiply_operators_and_matrices (a b : PauliOperator.t) :
  exists c r,
    multiply_operators a b = Some (c, r)
    ∧ (matrix_mul (pauli_matrix a) (pauli_matrix b)
       = matrix_scale (coefficient_value c) (pauli_matrix r)
       ∨ matrix_mul (pauli_matrix a) (pauli_matrix b)
         = matrix_scale (gauss_opp (coefficient_value c)) (pauli_matrix r))
    ∧ (matrix_mul (pauli_matrix a) (pauli_matrix b)
       = matrix_scale (coefficient_value c) (pauli_matrix r)
       <-> (a, b) ∉ [(PauliOperator.Z, PauliOperator.Y); (PauliOperator.Y, PauliOperator.Z);
                     (PauliOperator.Y, PauliOperator.X); (PauliOperator.X, PauliOperator.Y)]).
Proof.
  destruct a, b; vm_compute; eexists _, _; (split; [reflexivity|]);
    (split; [first [by left|by right]|]);
    (split; [intros H; try discriminate H;
             intros Hin; repeat (apply elem_of_cons in Hin as [Hin|Hin];
                                 [discriminate Hin|]); by apply elem_of_nil in Hin
            |intros H; try reflexivity; exfalso; apply H;
             repeat first [apply list_elem_of_here|apply list_elem_of_further]]).
Qed.

(** ** Operator lists *)

Lemma py_index_nat {A} (l : list A) (k : nat) :
  py_index l (Z.of_nat k)
  = match l !! k with
    | Some x => Ok x
    | None => Raise IndexError
    end.
Proof.
  unfold py_index. destruct (decide (Z.of_nat k < 0)) as [?|_]; [lia|].
  destruct (decide (Z.of_nat k < 0)) as [?|_]; [lia|]. by rewrite Nat2Z.id.
Qed.

Lemma py_index_in_range {A} (l : list A) (i : Z) :
  - Z.of_nat (length l) <= i < Z.of_nat (length l) ->
  py_index l i
  = match l !! Z.to_nat (i mod Z.of_nat (length l)) with
    | Some x => Ok x
    | None => Raise IndexError
    end.
Proof.
  intros Hi. unfold py_index. destruct (decide (i < 0)) as [Hneg|Hpos].
  - destruct (decide (i + Z.of_nat (length l) < 0)) as [?|_]; [lia|].
    replace (i mod Z.of_nat (length l)) with (i + Z.of_nat (length l)); [reflexivity|].
    apply Z.mod_unique with (q := -1); lia.
  - destruct (decide (i < 0)) as [?|_]; [lia|]. by rewrite Z.mod_small by lia.
Qed.

Lemma py_index_out_of_range {A} (l : list A) (i : Z) :
  ¬ (- Z.of_nat (length l) <= i < Z.of_nat (length l)) ->
  py_index l i = Raise IndexError.
Proof.
  intros Hi. unfold py_index. destruct (decide (i < 0)) as [Hneg|Hpos].
  - destruct (decide (i + Z.of_nat (length l) < 0)) as [_|?]; [reflexivity|lia].
  - destruct (decide (i < 0)) as [?|_]; [lia|].
    rewrite lookup_ge_None_2; [reflexivity|]. lia.
Qed.

Lemma py_setitem_in_range {A} (l : list A) (i : Z) (x : A) :
  - Z.of_nat (length l) <= i < Z.of_nat (length l) ->
  py_setitem l i x = Ok (<[Z.to_nat (i mod Z.of_nat (length l)) := x]> l).
Proof.
  intros Hi. unfold py_setitem. destruct (decide (i < 0)) as [Hneg|Hpos].
  - destruct (decide (i + Z.of_nat (length l) < 0)) as [?|_]; [lia|].
    destruct (decide (Z.to_nat (i + Z.of_nat (length l)) < length l)%nat) as [_|?];
      [|lia].
    replace (i mod Z.of_nat (length l)) with (i + Z.of_nat (length l)); [reflexivity|].
    apply Z.mod_unique with (q := -1); lia.
  - destruct (decide (i < 0)) as [?|_]; [lia|].
    destruct (decide (Z.to_nat i < length l)%nat) as [_|?]; [|lia].
    by rewrite Z.mod_small by lia.
Qed.

Lemma py_setitem_out_of_range {A} (l : list A) (i : Z) (x : A) :
  ¬ (- Z.of_nat (length l) <= i < Z.of_nat (length l)) ->
  py_setitem l i x = Raise IndexError.
Proof.
  intros Hi. unfold py_setitem. destruct (decide (i < 0)) as [Hneg|Hpos].
  - destruct (decide (i + Z.of_nat (length l) < 0)) as [_|?]; [reflexivity|].
    destruct (decide (Z.to_nat (i + Z.of_nat (length l)) < length l)%nat) as [?|_];
      [lia|reflexivity].
  - destruct (decide (i < 0)) as [?|_]; [lia|].
    destruct (decide (Z.to_nat i < length l)%nat) as [?|_]; [lia|reflexivity].
Qed.

(** X28: with a qubit index that Python accepts for the operator
    list, from minus its length up to its length, [change_single_op] keeps
    [qubit_num] and the length of the list, [get_op] then returns the new
    operator at that index, and the operators at the other positions are as
    before; with any other index both [change_single_op] and [get_op] raise
    [IndexError]. *)
Theorem change_single_op_then_get_op (self : PauliProductOperation) (qubit : Z)
    (new_op : PauliOperator.t) :
  let n := Z.of_nat (length (ops_list self)) in
  (- n <= qubit < n ->
   exists self',
     change_single_op self qubit new_op = Ok self'
     ∧ qubit_num self' = qubit_num self
     ∧ length (ops_list self') = length (ops_list self)
     ∧ get_op self' qubit = Ok new_op
     ∧ forall q, q ≠ qubit -> q ≠ qubit + n -> q ≠ qubit - n ->
                 get_op self' q = get_op self q)
  ∧ (¬ (- n <= qubit < n) ->
     change_single_op self qubit new_op = Raise IndexError
     ∧ get_op self qubit = Raise IndexError).
Proof.
  intros n. subst n. split.
  - intros Hq. unfold change_single_op, get_op.
    rewrite (py_setitem_in_range _ _ _ Hq). simpl.
    eexists. split; [reflexivity|]. simpl. split; [reflexivity|].
    split; [by rewrite length_insert|]. split.
    + rewrite py_index_in_range by (by rewrite length_insert).
      rewrite length_insert. rewrite list_lookup_insert_eq; [reflexivity|].
      pose proof (Z.mod_pos_bound qubit (Z.of_nat (length (ops_list self)))). lia.
    + intros q H1 H2 H3.
      destruct (decide (- Z.of_nat (length (ops_list self)) <= q
                        < Z.of_nat (length (ops_list self)))) as [Hin|Hout].
      * rewrite !py_index_in_range by (by rewrite ?length_insert).
        rewrite length_insert. rewrite list_lookup_insert_ne; [reflexivity|].
        intros Heq. apply Z2Nat.inj in Heq.
        -- assert (Hmod : (q - qubit) mod Z.of_nat (length (ops_list self)) = 0).
           { rewrite Zminus_mod, Heq, Z.sub_diag. apply Z.mod_0_l. lia. }
           apply Z.mod_divide in Hmod; [|lia]. destruct Hmod as [k Hk].
           assert (Hk' : -2 < k < 2) by nia.
           assert (Hcases : k = -1 ∨ k = 0 ∨ k = 1) by lia.
           destruct Hcases as [Hc|[Hc|Hc]]; subst k; lia.
        -- apply Z.mod_pos_bound. lia.
        -- apply Z.mod_pos_bound. lia.
      * rewrite !py_index_out_of_range by (by rewrite ?length_insert). reflexivity.
  - intros Hq. unfold change_single_op, get_op.
    by rewrite py_setitem_out_of_range, py_index_out_of_range.
Qed.

Lemma range_of_nat (n : nat) : range (Z.of_nat n) = Z.of_nat <$> seq 0 n.
Proof. unfold range. by rewrite Nat2Z.id. Qed.

Lemma initial_ops (n : nat) :
  map (fun _ => PauliOperator.I) (range (Z.of_nat n)) = replicate n PauliOperator.I.
Proof.
  rewrite range_of_nat. generalize 0%nat. induction n as [|n IH]; intros k; [reflexivity|].
  simpl. f_equal. apply IH.
Qed.

Lemma change_single_op_next (prefix : list PauliOperator.t) (op : PauliOperator.t)
    (k : nat) (n : Z) :
  change_single_op {| qubit_num := n;
                      ops_list := prefix ++ PauliOperator.I :: replicate k PauliOperator.I |}
    (Z.of_nat (length prefix)) op
  = Ok {| qubit_num := n;
          ops_list := (prefix ++ [op]) ++ replicate k PauliOperator.I |}.
Proof.
  unfold change_single_op. cbn [ops_list qubit_num].
  rewrite py_setitem_in_range by (rewrite length_app; simpl; lia).
  rewrite Z.mod_small by (rewrite length_app; simpl; lia).
  rewrite Nat2Z.id. simpl. do 2 f_equal. rewrite insert_app_r_alt by lia.
  rewrite Nat.sub_diag. simpl. by rewrite <- app_assoc.
Qed.

Lemma Rotation_from_list_loop (suffix prefix : list PauliOperator.t) (n : Z)
    (amount : Fraction) :
  foldM (fun r '(i, op) =>
      ops ← change_single_op (rotation_ops r) i op;
      Ok {| rotation_ops := ops; rotation_amount := rotation_amount r |})
    (enumerate_from (Z.of_nat (length prefix)) suffix)
    {| rotation_ops :=
         {| qubit_num := n;
            ops_list := prefix ++ replicate (length suffix) PauliOperator.I |};
       rotation_amount := amount |}
  = Ok {| rotation_ops := {| qubit_num := n; ops_list := prefix ++ suffix |};
          rotation_amount := amount |}.
Proof.
  revert prefix. induction suffix as [|op suffix IH]; intros prefix.
  - simpl. by rewrite app_nil_r.
  - cbn [foldM enumerate_from length replicate]. cbn [rotation_ops rotation_amount].
    rewrite change_single_op_next. unfold mbind, result_bind.
    replace (Z.of_nat (length prefix) + 1) with (Z.of_nat (length (prefix ++ [op])))
      by (rewrite length_app; simpl; lia).
    specialize (IH (prefix ++ [op])). unfold mbind, result_bind in IH.
    rewrite IH. by rewrite <- app_assoc.
Qed.

Lemma Measurement_from_list_loop (suffix prefix : list PauliOperator.t) (n : Z)
    (is_negative : bool) :
  foldM (fun m '(i, op) =>
      ops ← change_single_op (measurement_ops m) i op;
      Ok {| measurement_ops := ops; isNegative := isNegative m |})
    (enumerate_from (Z.of_nat (length prefix)) suffix)
    {| measurement_ops :=
         {| qubit_num := n;
            ops_list := prefix ++ replicate (length suffix) PauliOperator.I |};
       isNegative := is_negative |}
  = Ok {| measurement_ops := {| qubit_num := n; ops_list := prefix ++ suffix |};
          isNegative := is_negative |}.
Proof.
  revert prefix. induction suffix as [|op suffix IH]; intros prefix.
  - simpl. by rewrite app_nil_r.
  - cbn [foldM enumerate_from length replicate]. cbn [measurement_ops isNegative].
    rewrite change_single_op_next. unfold mbind, result_bind.
    replace (Z.of_nat (length prefix) + 1) with (Z.of_nat (length (prefix ++ [op])))
      by (rewrite length_app; simpl; lia).
    specialize (IH (prefix ++ [op])). unfold mbind, result_bind in IH.
    rewrite IH. by rewrite <- app_assoc.
Qed.

(** X29: [Rotation.from_list] and [Measurement.from_list] do not
    raise; the block they return spans as many qubits as the list is long and
    has the list as its operators, so that [get_op] reads the list back. *)
Theorem from_list_round_trip (pauli_ops : list PauliOperator.t) :
  (forall rotation,
     Rotation_from_list pauli_ops rotation
     = Ok {| rotation_ops := {| qubit_num := Z.of_nat (length pauli_ops);
                                ops_list := pauli_ops |};
             rotation_amount := rotation |})
  ∧ (forall is_negative,
       Measurement_from_list pauli_ops is_negative
       = Ok {| measurement_ops := {| qubit_num := Z.of_nat (length pauli_ops);
                                     ops_list := pauli_ops |};
               isNegative := is_negative |})
  ∧ forall qubit,
      get_op {| qubit_num := Z.of_nat (length pauli_ops); ops_list := pauli_ops |} qubit
      = py_index pauli_ops qubit.
Proof.
  split; [|split; [|reflexivity]].
  - intros rotation. unfold Rotation_from_list, Rotation_init, enumerate.
    rewrite initial_ops. apply (Rotation_from_list_loop pauli_ops []).
  - intros is_negative. unfold Measurement_from_list, Measurement_init, enumerate.
    rewrite initial_ops. apply (Measurement_from_list_loop pauli_ops []).
Qed.

Lemma get_ops_map_loop (ops : list PauliOperator.t) (m k : nat)
    (pairs : list (Z * PauliOperator.t)) :
  (k + m <= length ops)%nat ->
  foldM (fun pairs qn =>
      op ← py_index ops qn;
      Ok (if decide (op ≠ PauliOperator.I) then pairs ++ [(qn, op)] else pairs))
    (Z.of_nat <$> seq k m) pairs
  = Ok (pairs ++ filter (fun p => snd p ≠ PauliOperator.I)
                   (enumerate_from (Z.of_nat k) (take m (drop k ops)))).
Proof.
  revert k pairs. induction m as [|m IH]; intros k pairs Hk.
  - simpl. by rewrite app_nil_r.
  - cbn [seq fmap list_fmap foldM]. rewrite py_index_nat.
    destruct (ops !! k) as [x|] eqn:Hx;
      [|apply lookup_ge_None in Hx; lia].
    rewrite (drop_S _ _ _ Hx). cbn [take enumerate_from].
    unfold mbind, result_bind.
    specialize (IH (S k)). unfold mbind, result_bind in IH.
    replace (Z.of_nat k + 1) with (Z.of_nat (S k)) by lia.
    destruct (decide (x ≠ PauliOperator.I)) as [Hne|He].
    + rewrite IH by lia. rewrite filter_cons_True by exact Hne.
      by rewrite <- app_assoc.
    + rewrite IH by lia. by rewrite filter_cons_False by exact He.
Qed.

Lemma foldM_app {A B} (f : B -> A -> result B) (l1 l2 : list A) (b : B) :
  foldM f (l1 ++ l2) b = (b' ← foldM f l1 b; foldM f l2 b').
Proof.
  revert b. induction l1 as [|a l1 IH]; intros b; [reflexivity|].
  simpl. destruct (f b a) as [b'|e]; [apply IH|reflexivity].
Qed.

(** X30: [get_ops_map] lists, by increasing qubit, the operators other
    than I of the first [qubit_num] positions, each under its position; it
    raises [IndexError] when [qubit_num] exceeds the length of the operator
    list. *)
Theorem get_ops_map_lists_the_operators (self : PauliProductOperation) :
  get_ops_map self
  = if bool_decide (qubit_num self <= Z.of_nat (length (ops_list self)))
    then Ok (filter (fun p => snd p ≠ PauliOperator.I)
               (enumerate (take (Z.to_nat (qubit_num self)) (ops_list self))))
    else Raise IndexError.
Proof.
  unfold get_ops_map, range, enumerate. case_bool_decide as Hn.
  - rewrite (get_ops_map_loop (ops_list self) (Z.to_nat (qubit_num self)) 0 []) by lia.
    by rewrite drop_0.
  - replace (Z.to_nat (qubit_num self))
      with (length (ops_list self)
            + S (Z.to_nat (qubit_num self) - S (length (ops_list self))))%nat by lia.
    rewrite seq_app, fmap_app, foldM_app.
    rewrite (get_ops_map_loop (ops_list self) (length (ops_list self)) 0 []) by lia.
    unfold mbind at 1, result_bind at 1. cbn [seq fmap list_fmap foldM].
    simpl Nat.add. rewrite py_index_nat.
    by rewrite lookup_ge_None_2 by lia.
Qed.
